(** * scripts/generate-icons.py: the PNG encoder and the icon driver

    A shallow embedding of [create_png], its inner [png_chunk] and the
    module-level driver.  Python [bytes] are [list byte], Python [int]s are
    [Z], Python [float]s are the kernel's binary64 [float]s, and every
    exception the code can raise is a constructor of [exn]. *)

From Stdlib Require Import String Ascii.
From Stdlib Require Import ZArith List Lia Bool Reals Lra Psatz.
From Stdlib.Strings Require Import Byte.
From Stdlib Require Import Floats Uint63.
Import ListNotations.

Local Open Scope Z_scope.

(** ** Exceptions and results *)

Inductive exn : Set :=
| StructError        (* struct.error: value out of range for the format *)
| ZeroDivisionError  (* division by 0 or by 0.0 *)
| OverflowError      (* float result out of range; int(inf) *)
| ValueError         (* bytes() on a value outside range(256); int(nan) *)
| TypeError          (* int() on a complex number *)
| OSError.           (* open() on a path that cannot be written *)

Inductive result (A : Type) : Type :=
| Ok (a : A)
| Raise (e : exn).

Arguments Ok {A} a.
Arguments Raise {A} e.

Definition bind {A B : Type} (c : result A) (k : A -> result B) : result B :=
  match c with
  | Ok a => k a
  | Raise e => Raise e
  end.

Notation "x <- c ;; k" := (bind c (fun x => k))
  (at level 61, c at next level, right associativity).

(** [for x in xs: body], the loop state passed along; the first exception
    ends the loop. *)
Fixpoint for_each {A S : Type} (xs : list A) (body : S -> A -> result S) (s : S)
  : result S :=
  match xs with
  | [] => Ok s
  | x :: xs' => s' <- body s x ;; for_each xs' body s'
  end.

(** [range(n)]: 0, 1, ..., n-1, empty when [n <= 0]. *)
Definition range (n : Z) : list Z := map Z.of_nat (seq 0 (Z.to_nat n)).

(** ** Bytes *)

Definition byte_of_Z (z : Z) : byte :=
  match Byte.of_N (Z.to_N (Z.land z 255)) with
  | Some b => b
  | None => x00
  end.

Definition Z_of_byte (b : byte) : Z := Z.of_N (Byte.to_N b).

(** [bytes(ints)]: every element must be in [range(256)]. *)
Fixpoint bytes_of_ints (l : list Z) : result (list byte) :=
  match l with
  | [] => Ok []
  | v :: l' =>
      if (0 <=? v) && (v <? 256)
      then bs <- bytes_of_ints l' ;; Ok (byte_of_Z v :: bs)
      else Raise ValueError
  end.

(** [b'...'] literals. *)
Definition bytes_of_string (s : string) : list byte := list_byte_of_string s.

(** ** struct.pack *)

(** [struct.pack('>I', n)]: four bytes, most significant first;
    [struct.error] outside [0, 2^32). *)
Definition pack_I (n : Z) : result (list byte) :=
  if (0 <=? n) && (n <? 2 ^ 32)
  then Ok [byte_of_Z (Z.shiftr n 24); byte_of_Z (Z.shiftr n 16);
           byte_of_Z (Z.shiftr n 8); byte_of_Z n]
  else Raise StructError.

(** [struct.pack('>B', n)]: one byte; [struct.error] outside [0, 256). *)
Definition pack_B (n : Z) : result (list byte) :=
  if (0 <=? n) && (n <? 256) then Ok [byte_of_Z n] else Raise StructError.

(** [struct.pack('>IIBBBBB', a, b, c, d, e, f, g)]. *)
Definition pack_IIBBBBB (a b c d e f g : Z) : result (list byte) :=
  pa <- pack_I a ;; pb <- pack_I b ;;
  pc <- pack_B c ;; pd <- pack_B d ;; pe <- pack_B e ;;
  pf <- pack_B f ;; pg <- pack_B g ;;
  Ok (pa ++ pb ++ pc ++ pd ++ pe ++ pf ++ pg).

(** ** zlib.crc32

    The CRC-32 of zlib and PNG, bit by bit: reflected polynomial
    0xEDB88320, register initialised to 0xFFFFFFFF and complemented at the
    end. *)

Definition crc_poly : Z := 0xEDB88320.

Definition crc_shift (c : Z) : Z :=
  if Z.testbit c 0 then Z.lxor (Z.shiftr c 1) crc_poly else Z.shiftr c 1.

Definition crc_update (c : Z) (b : byte) : Z :=
  Nat.iter 8 crc_shift (Z.lxor c (Z_of_byte b)).

Definition crc32 (data : list byte) : Z :=
  Z.lxor (fold_left crc_update data 0xFFFFFFFF) 0xFFFFFFFF.

(** ** png_chunk *)

Definition png_chunk (chunk_type data : list byte) : result (list byte) :=
  let chunk := chunk_type ++ data in
  let crc := Z.land (crc32 chunk) 0xffffffff in
  len <- pack_I (Z.of_nat (length data)) ;;
  tail <- pack_I crc ;;
  Ok (len ++ chunk ++ tail).

(** ** Python floats

    A Python [float] is an IEEE 754 binary64 number: the kernel's [float],
    specified by [Prim2SF] and the operations of [SpecFloat]. *)

(** The value of [float(n)]: the integer rounded to the nearest binary64
    number, ties to even; infinite when the integer is too large. *)
Definition float_of_Z (n : Z) : float :=
  SF2Prim (binary_normalize prec emax n 0 false).

(** [float(n)] as done implicitly by [int op float]: [OverflowError] when
    the integer is too large for a float. *)
Definition float_of_int (n : Z) : result float :=
  let f := float_of_Z n in
  if PrimFloat.is_infinity f then Raise OverflowError else Ok f.

(** An integer as an unrounded binary number. *)
Definition SF_of_Z (n : Z) : spec_float :=
  match n with
  | Z0 => S754_zero false
  | Zpos p => S754_finite false p 0
  | Zneg p => S754_finite true p 0
  end.

(** [a / b] on two ints.  When both fit in 53 bits CPython divides the two
    converted floats; otherwise it rounds the exact quotient once, and
    raises [OverflowError] when that is too large for a float. *)
Definition int_truediv (a b : Z) : result float :=
  if b =? 0 then Raise ZeroDivisionError
  else if (Z.abs a <? 2 ^ 53) && (Z.abs b <? 2 ^ 53)
  then Ok (PrimFloat.div (float_of_Z a) (float_of_Z b))
  else let q := SF2Prim (SFdiv prec emax (SF_of_Z a) (SF_of_Z b)) in
       if PrimFloat.is_infinity q then Raise OverflowError else Ok q.

(** [a / b] on floats. *)
Definition float_truediv (a b : float) : result float :=
  if PrimFloat.is_zero b then Raise ZeroDivisionError
  else Ok (PrimFloat.div a b).

(** [int(x)] on a float: truncation toward zero. *)
Definition int_of_float (x : float) : result Z :=
  match Prim2SF x with
  | S754_nan => Raise ValueError
  | S754_infinity _ => Raise OverflowError
  | S754_zero _ => Ok 0
  | S754_finite s m e =>
      let a := match e with
               | Zneg p => Z.shiftr (Zpos m) (Zpos p)
               | _ => Z.shiftl (Zpos m) e
               end in
      Ok (if s then - a else a)
  end.

(** The literals [0.3] (the binary64 number nearest to 3/10) and [0.5]. *)
Definition lit_0_3 : float := 0x1.3333333333333p-2%float.
Definition lit_0_5 : float := 0x1p-1%float.

(** ** The power operator

    [x ** y] on floats is CPython's [float_pow]: it settles NaNs,
    infinities, zeros, negative bases and the base 1.0 itself, and hands
    every other case to the C library's [pow], whose result is the
    platform's and is not always the correctly rounded one.  The library
    function is a parameter here. *)

Section Pow.

(** C's [pow(x, y)], called on a finite positive [x] other than 1.0. *)
Variable libm_pow : float -> float -> float.

(** [x ** 2]: the exponent is an even integer, so a negative base is
    replaced by its absolute value; [OverflowError] when the library's
    result is infinite. *)
Definition float_pow_2 (x : float) : result float :=
  if PrimFloat.is_nan x then Ok x
  else if PrimFloat.is_infinity x then Ok (PrimFloat.abs x)
  else if PrimFloat.is_zero x then Ok PrimFloat.zero
  else
    let iv := PrimFloat.abs x in
    if PrimFloat.eqb iv PrimFloat.one then Ok PrimFloat.one
    else
      let ix := libm_pow iv PrimFloat.two in
      if PrimFloat.is_infinity ix then Raise OverflowError else Ok ix.

(** [x ** 0.5].  A negative finite base gives a complex number in Python,
    on which the later [int] raises [TypeError]; the model raises it
    here. *)
Definition float_pow_half (x : float) : result float :=
  if PrimFloat.is_nan x then Ok x
  else if PrimFloat.is_infinity x then Ok PrimFloat.infinity
  else if PrimFloat.is_zero x then Ok PrimFloat.zero
  else if PrimFloat.ltb x PrimFloat.zero then Raise TypeError
  else if PrimFloat.eqb x PrimFloat.one then Ok PrimFloat.one
  else
    let ix := libm_pow x lit_0_5 in
    if PrimFloat.is_infinity ix then Raise OverflowError else Ok ix.

End Pow.

(** ** create_png *)

Definition signature : list byte :=
  [x89; x50; x4e; x47; x0d; x0a; x1a; x0a].

Section CreatePng.

(** [zlib.compress(data, level)] is the zlib library's; the encoder uses
    it as a black box. *)
Variable zlib_compress : list byte -> Z -> list byte.

Variable libm_pow : float -> float -> float.

(** Lines 32-37: the body of the inner loop, appending to [raw_data]. *)
Definition pixel_body (center_x center_y max_dist : float) (r g b : Z)
    (y : Z) (raw_data : list Z) (x : Z) : result (list Z) :=
  fx <- float_of_int x ;;
  dx2 <- float_pow_2 libm_pow (PrimFloat.sub fx center_x) ;;
  fy <- float_of_int y ;;
  dy2 <- float_pow_2 libm_pow (PrimFloat.sub fy center_y) ;;
  dist <- float_pow_half libm_pow (PrimFloat.add dx2 dy2) ;;
  q <- float_truediv dist max_dist ;;
  let factor := PrimFloat.sub (float_of_Z 1) (PrimFloat.mul q lit_0_3) in
  fr <- float_of_int r ;;
  vr <- int_of_float (PrimFloat.mul fr factor) ;;
  let raw_data := raw_data ++ [vr] in
  fg <- float_of_int g ;;
  vg <- int_of_float (PrimFloat.mul fg factor) ;;
  let raw_data := raw_data ++ [vg] in
  fb <- float_of_int b ;;
  vb <- int_of_float (PrimFloat.mul fb factor) ;;
  let raw_data := raw_data ++ [vb] in
  Ok raw_data.

(** Lines 29-37: the body of the outer loop. *)
Definition row_body (width : Z) (center_x center_y max_dist : float)
    (r g b : Z) (raw_data : list Z) (y : Z) : result (list Z) :=
  let raw_data := raw_data ++ [0] in
  for_each (range width)
    (pixel_body center_x center_y max_dist r g b y) raw_data.

(** Lines 23-37: the uncompressed scanlines, as a list of ints. *)
Definition build_raw_data (width height r g b : Z) : result (list Z) :=
  let raw_data := [] in
  center_x <- int_truediv width 2 ;;
  center_y <- int_truediv height 2 ;;
  cx2 <- float_pow_2 libm_pow center_x ;;
  cy2 <- float_pow_2 libm_pow center_y ;;
  max_dist <- float_pow_half libm_pow (PrimFloat.add cx2 cy2) ;;
  for_each (range height)
    (row_body width center_x center_y max_dist r g b) raw_data.

Definition create_png (width height r g b : Z) : result (list byte) :=
  ihdr_data <- pack_IIBBBBB width height 8 2 0 0 0 ;;
  ihdr <- png_chunk (bytes_of_string "IHDR") ihdr_data ;;
  raw_data <- build_raw_data width height r g b ;;
  raw_bytes <- bytes_of_ints raw_data ;;
  let compressed := zlib_compress raw_bytes 9 in
  idat <- png_chunk (bytes_of_string "IDAT") compressed ;;
  iend <- png_chunk (bytes_of_string "IEND") [] ;;
  Ok (signature ++ ihdr ++ idat ++ iend).

End CreatePng.

(** ** The module-level driver (lines 48-73)

    The script's effects are the files it writes and the lines it prints,
    recorded in order.  [open(path, 'wb')] depends on the file system: it is
    a parameter telling which paths can be opened for writing. *)

Inductive event : Set :=
| FileWritten (path : string) (data : list byte)
| Printed (text : string).

Definition io (A : Type) : Type := list event -> result A * list event.

Definition io_bind {A B : Type} (c : io A) (k : A -> io B) : io B :=
  fun t => match c t with
           | (Ok a, t') => k a t'
           | (Raise e, t') => (Raise e, t')
           end.

Notation "x <~ c ;; k" := (io_bind c (fun x => k))
  (at level 61, c at next level, right associativity).

Definition io_lift {A : Type} (r : result A) : io A := fun t => (r, t).

Definition print (text : string) : io unit :=
  fun t => (Ok tt, t ++ [Printed text]).

(** [os.path.join(a, b)] on POSIX. *)
Definition ends_with_slash (s : string) : bool :=
  match rev (list_ascii_of_string s) with
  | c :: _ => Ascii.eqb c "/"
  | [] => false
  end.

Definition path_join (a b : string) : string :=
  if String.prefix "/" b then b
  else if (String.eqb a "" || ends_with_slash a)%bool then (a ++ b)%string
  else (a ++ "/" ++ b)%string.

Section Driver.

Variable zlib_compress : list byte -> Z -> list byte.
Variable libm_pow : float -> float -> float.
Variable writable : string -> bool.

(** [with open(path, 'wb') as f: f.write(data)]. *)
Definition write_file (path : string) (data : list byte) : io unit :=
  fun t => if writable path then (Ok tt, t ++ [FileWritten path data])
           else (Raise OSError, t).

(** [script_dir] is [os.path.dirname(os.path.abspath(__file__))]. *)
Definition main (script_dir : string) : io unit :=
  let public_dir := path_join (path_join script_dir "..") "public" in
  let '(r, g, b) := (99, 102, 241) in
  png_192 <~ io_lift (create_png zlib_compress libm_pow 192 192 r g b) ;;
  _ <~ write_file (path_join public_dir "pwa-192x192.png") png_192 ;;
  _ <~ print "Created pwa-192x192.png" ;;
  png_512 <~ io_lift (create_png zlib_compress libm_pow 512 512 r g b) ;;
  _ <~ write_file (path_join public_dir "pwa-512x512.png") png_512 ;;
  _ <~ print "Created pwa-512x512.png" ;;
  png_180 <~ io_lift (create_png zlib_compress libm_pow 180 180 r g b) ;;
  _ <~ write_file (path_join public_dir "apple-touch-icon.png") png_180 ;;
  _ <~ print "Created apple-touch-icon.png" ;;
  print "All PWA icons created successfully!".

End Driver.

(** ** Pure counterparts of the values [create_png] computes

    The gradient formula as one expression per quantity, on the same
    binary64 operations and the same library [pow] as the code: the
    reference the loops are compared with. *)

(** [center_x], [center_y]. *)
Definition center (n : Z) : float :=
  PrimFloat.div (float_of_Z n) (float_of_Z 2).

(** [x - center_x]. *)
Definition delta (n i : Z) : float :=
  PrimFloat.sub (float_of_Z i) (center n).

(** The literal [0.7], which is also [1 - 0.3] in binary64. *)
Definition lit_0_7 : float := 0x1.6666666666666p-1%float.

(** Truncation toward zero, where [int] succeeds. *)
Definition trunc (x : float) : Z :=
  match int_of_float x with
  | Ok v => v
  | Raise _ => 0
  end.

Section Reference.

Variable libm_pow : float -> float -> float.

(** The value of [x ** 2], where it is a float. *)
Definition pow_2 (x : float) : float :=
  if PrimFloat.is_nan x then x
  else if PrimFloat.is_infinity x then PrimFloat.abs x
  else if PrimFloat.is_zero x then PrimFloat.zero
  else if PrimFloat.eqb (PrimFloat.abs x) PrimFloat.one then PrimFloat.one
  else libm_pow (PrimFloat.abs x) PrimFloat.two.

(** The value of [x ** 0.5], where it is a float. *)
Definition pow_half (x : float) : float :=
  if PrimFloat.is_nan x then x
  else if PrimFloat.is_infinity x then PrimFloat.infinity
  else if PrimFloat.is_zero x then PrimFloat.zero
  else if PrimFloat.eqb x PrimFloat.one then PrimFloat.one
  else libm_pow x lit_0_5.

Definition sq_sum (width height : Z) : float :=
  PrimFloat.add (pow_2 (center width)) (pow_2 (center height)).

(** [max_dist]. *)
Definition max_dist_of (width height : Z) : float :=
  pow_half (sq_sum width height).

(** [dist]. *)
Definition dist_at (width height x y : Z) : float :=
  pow_half (PrimFloat.add (pow_2 (delta width x)) (pow_2 (delta height y))).

(** [factor]. *)
Definition factor_at (width height x y : Z) : float :=
  PrimFloat.sub (float_of_Z 1)
    (PrimFloat.mul (PrimFloat.div (dist_at width height x y)
                                  (max_dist_of width height)) lit_0_3).

Definition pixel_rgb (width height r g b x y : Z) : list Z :=
  let factor := factor_at width height x y in
  [trunc (PrimFloat.mul (float_of_Z r) factor);
   trunc (PrimFloat.mul (float_of_Z g) factor);
   trunc (PrimFloat.mul (float_of_Z b) factor)].

Definition scanline (width height r g b y : Z) : list Z :=
  0 :: flat_map (fun x => pixel_rgb width height r g b x y) (range width).

(** The reference pixel buffer: per row a filter byte 0, then the row's
    RGB triplets. *)
Definition reference_grid (width height r g b : Z) : list Z :=
  flat_map (scanline width height r g b) (range height).


(** The bytes handed to [zlib.compress]. *)
Definition raw_bytes (w h r g b : Z) : list byte :=
  map byte_of_Z (reference_grid w h r g b).

End Reference.

(** A [pow] that rounds correctly, one of the library functions the
    theorems apply to. *)
Definition ideal_pow (x y : float) : float :=
  if PrimFloat.eqb y PrimFloat.two then PrimFloat.mul x x
  else PrimFloat.sqrt x.

(** The inputs [create_png] is meant for, within what the IHDR can hold. *)
Definition valid_input (width height r g b : Z) : Prop :=
  1 <= width < 2 ^ 32 /\ 1 <= height < 2 ^ 32 /\
  0 <= r <= 255 /\ 0 <= g <= 255 /\ 0 <= b <= 255.

(** The inputs the specification calls valid. *)
Definition spec_valid (width height r g b : Z) : Prop :=
  1 <= width /\ 1 <= height /\
  0 <= r <= 255 /\ 0 <= g <= 255 /\ 0 <= b <= 255.

(** The index in the pixel buffer of channel [c] (0, 1, 2) of pixel
    [(x, y)]. *)
Definition offset (width x y c : Z) : nat :=
  Z.to_nat (y * (1 + width * 3) + 1 + x * 3 + c).

(** ** The chunk layout, as a PNG reader sees it

    A four-byte big-endian unsigned integer, a serialized chunk, and a
    reader of the chunk sequence of a PNG stream: the vocabulary in which
    the output of [create_png] is described.  The reader checks the
    signature and each chunk's CRC. *)

Definition uint32_be (n : Z) : list byte :=
  [byte_of_Z (Z.shiftr n 24); byte_of_Z (Z.shiftr n 16);
   byte_of_Z (Z.shiftr n 8); byte_of_Z n].

Definition uint32_of_be (bs : list byte) : Z :=
  fold_left (fun acc b => acc * 256 + Z_of_byte b) bs 0.

Definition chunk_bytes (chunk_type data : list byte) : list byte :=
  uint32_be (Z.of_nat (length data)) ++ chunk_type ++ data
    ++ uint32_be (crc32 (chunk_type ++ data)).

Definition parse_chunk (bs : list byte)
  : option (list byte * list byte * list byte) :=
  let len := Z.to_nat (uint32_of_be (firstn 4 bs)) in
  let chunk_type := firstn 4 (skipn 4 bs) in
  let data := firstn len (skipn 8 bs) in
  let crc := firstn 4 (skipn (8 + len) bs) in
  if (length bs <? 12 + len)%nat then None
  else if uint32_of_be crc =? crc32 (chunk_type ++ data)
       then Some (chunk_type, data, skipn (12 + len) bs)
       else None.

Fixpoint parse_chunks (fuel : nat) (bs : list byte)
  : option (list (list byte * list byte)) :=
  match bs with
  | [] => Some []
  | _ :: _ =>
      match fuel with
      | O => None
      | S fuel' =>
          match parse_chunk bs with
          | Some (chunk_type, data, rest) =>
              match parse_chunks fuel' rest with
              | Some chunks => Some ((chunk_type, data) :: chunks)
              | None => None
              end
          | None => None
          end
      end
  end.

Definition parse_png (bs : list byte) : option (list (list byte * list byte)) :=
  if list_eq_dec Byte.byte_eq_dec (firstn 8 bs) signature
  then parse_chunks (length bs) (skipn 8 bs)
  else None.

(** The fields of an IHDR payload: width, height, bit depth, colour type. *)
Definition parse_ihdr (data : list byte) : option (Z * Z * Z * Z) :=
  match skipn 8 data with
  | depth :: color :: _ :: _ :: _ :: [] =>
      Some (uint32_of_be (firstn 4 data), uint32_of_be (firstn 4 (skipn 4 data)),
            Z_of_byte depth, Z_of_byte color)
  | _ => None
  end.

(** A codec that stores the data as it is: the instance of the zlib
    functions in the closed examples. *)
Definition store (data : list byte) (level : Z) : list byte := data.

(** The 13 bytes of the IHDR payload and the whole stream, given the
    compressed pixel data. *)
Definition ihdr_payload (width height : Z) : list byte :=
  uint32_be width ++ uint32_be height ++ [x08; x02; x00; x00; x00].

Definition png_stream (width height : Z) (compressed : list byte) : list byte :=
  signature
    ++ chunk_bytes (bytes_of_string "IHDR") (ihdr_payload width height)
    ++ chunk_bytes (bytes_of_string "IDAT") compressed
    ++ chunk_bytes (bytes_of_string "IEND") [].

(** Where [main] puts the file [name]. *)
Definition icon_path (script_dir name : string) : string :=
  path_join (path_join (path_join script_dir "..") "public") name.



(** * Binary64 values

    The real value of a float, brackets of a real between consecutive
    multiples of a power of two (as [SpecFloat]'s rounding reads them), and
    what it means for a float to be a correctly rounded result. *)

Definition bpow (e : Z) : R := powerRZ 2 e.

Definition inbetween (m e : Z) (l : location) (x : R) : Prop :=
  match l with
  | loc_Exact => x = (IZR m * bpow e)%R
  | loc_Inexact Lt => (IZR m * bpow e < x < (IZR m + /2) * bpow e)%R
  | loc_Inexact Eq => x = ((IZR m + /2) * bpow e)%R
  | loc_Inexact Gt => ((IZR m + /2) * bpow e < x < (IZR m + 1) * bpow e)%R
  end.

Definition inb_rec (mrs : shr_record) (e : Z) (x : R) : Prop :=
  0 <= shr_m mrs /\ inbetween (shr_m mrs) e (loc_of_shr_record mrs) x.

(** The float [binary_round_aux] builds from a rounded mantissa [k] at
    exponent [E]. *)
Definition rnd_result (s : bool) (k E : Z) : spec_float :=
  if k =? 0 then S754_zero s
  else if k =? 2 ^ 53
       then if E + 1 <=? 971 then S754_finite s (Z.to_pos (2 ^ 52)) (E + 1)
            else S754_infinity s
       else if E <=? 971 then S754_finite s (Z.to_pos k) E
            else S754_infinity s.

Definition SF2R (f : spec_float) : R :=
  match f with
  | S754_finite s m e => (IZR (cond_Zopp s (Zpos m)) * bpow e)%R
  | _ => 0%R
  end.

Definition SFfinite (f : spec_float) : bool :=
  match f with
  | S754_finite _ _ _ | S754_zero _ => true
  | _ => false
  end.

(** [rounds x k E]: [k * 2^E] is [x >= 0] rounded to nearest, ties to even,
    in binary64 (overflow apart). *)
Definition rounds (x : R) (k E : Z) : Prop :=
  exists m l,
    inbetween m E l x /\ k = round_nearest_even m l /\
    0 <= m < 2 ^ 53 /\ -1074 <= E /\ (-1074 < E -> 2 ^ 52 <= m).

Definition SFzero (f : spec_float) : Prop := f = S754_zero false.

(** [rounded s x f]: the float [f] is the magnitude [x >= 0] rounded to
    nearest-even and given the sign [s]. *)
Definition rounded (s : bool) (x : R) (f : spec_float) : Prop :=
  (x = 0%R /\ SFzero f) \/
  (exists k E, rounds x k E /\ f = rnd_result s k E).

(** Finite and not negative: a zero of either sign or a positive float. *)
Definition SFnonneg (f : spec_float) : Prop :=
  match f with
  | S754_zero s | S754_finite s _ _ => s = false
  | _ => False
  end.

Definition F2R (x : float) : R := SF2R (Prim2SF x).

Definition Ffinite (x : float) : Prop := SFfinite (Prim2SF x) = true.

Definition Fnonneg (x : float) : Prop := SFnonneg (Prim2SF x).

Definition Frounded (v : R) (x : float) : Prop := rounded false v (Prim2SF x).

(** ** What is asked of the C library's [pow]

    On the bases [create_png] passes for a width and a height below 2^32,
    [pow(x, 2.0)] and [pow(x, 0.5)] return a finite float within
    [pow_error] of the exact value, relatively: four units in the last
    place.  Nothing is asked of the rounding direction, nor that [pow] be
    monotone. *)

Definition pow_error : R := bpow (-50).

Definition pow_accurate (libm_pow : float -> float -> float) : Prop :=
  (forall x, Fnonneg x -> (bpow (-1) <= F2R x <= bpow 31)%R ->
     Fnonneg (libm_pow x PrimFloat.two) /\
     (Rabs (F2R (libm_pow x PrimFloat.two) - F2R x * F2R x)
        <= pow_error * (F2R x * F2R x))%R) /\
  (forall x, Fnonneg x -> (bpow (-3) <= F2R x <= bpow 64)%R ->
     Fnonneg (libm_pow x lit_0_5) /\
     (Rabs (F2R (libm_pow x lit_0_5) - R_sqrt.sqrt (F2R x))
        <= pow_error * R_sqrt.sqrt (F2R x))%R).
(** * Binary64 arithmetic: rounding is monotone and exact on representable values *)


Lemma bpow_gt_0 e : (0 < bpow e)%R.
Proof. apply powerRZ_lt. lra. Qed.

Lemma bpow_plus a b : bpow (a + b) = (bpow a * bpow b)%R.
Proof. apply powerRZ_add. lra. Qed.

Lemma bpow_succ e : bpow (e + 1) = (2 * bpow e)%R.
Proof. rewrite bpow_plus. unfold bpow at 2. simpl. lra. Qed.

Lemma bpow_IZR n : 0 <= n -> bpow n = IZR (2 ^ n).
Proof.
  intros Hn. pattern n. apply natlike_ind; trivial.
  - intros k Hk IH. unfold Z.succ. rewrite bpow_succ, IH, Z.pow_add_r by lia.
    rewrite mult_IZR. simpl. lra.
Qed.

Lemma bpow_ge_1 n : 0 <= n -> (1 <= bpow n)%R.
Proof.
  intros Hn. rewrite bpow_IZR by trivial. apply IZR_le.
  pose proof (Z.pow_pos_nonneg 2 n). lia.
Qed.

Lemma bpow_le a b : a <= b -> (bpow a <= bpow b)%R.
Proof.
  intros H. replace b with (a + (b - a)) by lia. rewrite bpow_plus.
  pose proof (bpow_gt_0 a) as Ha. pose proof (bpow_ge_1 (b - a)) as Hb.
  specialize (Hb ltac:(lia)).
  rewrite <- (Rmult_1_r (bpow a)) at 1. apply Rmult_le_compat_l; lra.
Qed.

Lemma bpow_lt a b : a < b -> (bpow a < bpow b)%R.
Proof.
  intros H. apply Rlt_le_trans with (bpow (a + 1)).
  - rewrite bpow_succ. pose proof (bpow_gt_0 a). lra.
  - apply bpow_le. lia.
Qed.


(** ** Brackets: where a real sits between two consecutive multiples of 2^e *)



Lemma IZR_xO p : IZR (Zpos p~0) = (2 * IZR (Zpos p))%R.
Proof. change (Zpos p~0) with (2 * Zpos p). now rewrite mult_IZR. Qed.

Lemma IZR_xI p : IZR (Zpos p~1) = (2 * IZR (Zpos p) + 1)%R.
Proof. change (Zpos p~1) with (2 * Zpos p + 1). now rewrite plus_IZR, mult_IZR. Qed.

Lemma inbetween_bounds m e l x :
  inbetween m e l x -> (IZR m * bpow e <= x < (IZR m + 1) * bpow e)%R.
Proof.
  pose proof (bpow_gt_0 e).
  destruct l as [|[| |]]; simpl; intros; nra.
Qed.

Lemma shr_1_inb mrs e x : inb_rec mrs e x -> inb_rec (shr_1 mrs) (e + 1) x.
Proof.
  destruct mrs as [m r s]. unfold inb_rec.
  intros [Hm H]. pose proof (bpow_gt_0 e) as Hb.
  destruct m as [|p|p]; [ | destruct p as [p|p|] | simpl in Hm; lia ];
    try (assert (0 < IZR (Zpos p))%R by (apply IZR_lt; lia));
    destruct r, s; cbn [shr_1 shr_m loc_of_shr_record inbetween orb] in *;
    rewrite ?bpow_succ; try rewrite (IZR_xO p) in H; try rewrite (IZR_xI p) in H;
    (split; [lia | lra]).
Qed.

Lemma iter_shr_1_inb p : forall mrs e x,
  inb_rec mrs e x -> inb_rec (iter_pos shr_1 p mrs) (e + Zpos p) x.
Proof.
  induction p as [p IH|p IH|]; intros mrs e x H; simpl.
  - replace (e + Zpos p~1) with (e + 1 + Zpos p + Zpos p) by lia.
    apply IH, IH, shr_1_inb, H.
  - replace (e + Zpos p~0) with (e + Zpos p + Zpos p) by lia.
    apply IH, IH, H.
  - apply shr_1_inb, H.
Qed.

(** ** Binary64 rounding *)

Abbreviation fexp64 := (SpecFloat.fexp prec emax).
Abbreviation bra := (binary_round_aux prec emax).

Lemma fexp64_eq e : fexp64 e = Z.max (e - 53) (-1074).
Proof. reflexivity. Qed.

Lemma digits2_pos_bounds p :
  2 ^ (Zpos (digits2_pos p) - 1) <= Zpos p < 2 ^ Zpos (digits2_pos p).
Proof.
  induction p as [p IH|p IH|]; cbn [digits2_pos].
  - rewrite Pos2Z.inj_succ. replace (Z.succ (Zpos (digits2_pos p)) - 1)
      with (Z.succ (Zpos (digits2_pos p) - 1)) by lia.
    rewrite !Z.pow_succ_r by lia. lia.
  - rewrite Pos2Z.inj_succ. replace (Z.succ (Zpos (digits2_pos p)) - 1)
      with (Z.succ (Zpos (digits2_pos p) - 1)) by lia.
    rewrite !Z.pow_succ_r by lia. lia.
  - simpl. lia.
Qed.

Lemma Zdigits2_nonneg m : 0 <= Zdigits2 m.
Proof. destruct m; simpl; lia. Qed.

Lemma Zdigits2_upper m : 0 <= m -> m + 1 <= 2 ^ Zdigits2 m.
Proof.
  destruct m as [|p|p]; cbn [Zdigits2]; intros; try lia.
  pose proof (digits2_pos_bounds p). lia.
Qed.

Lemma Zdigits2_lower m : 0 < m -> 2 ^ (Zdigits2 m - 1) <= m.
Proof.
  destruct m as [|p|p]; cbn [Zdigits2]; intros; try lia.
  pose proof (digits2_pos_bounds p). lia.
Qed.

Lemma Zdigits2_le m n : 0 <= m -> 0 <= n -> m < 2 ^ n -> Zdigits2 m <= n.
Proof.
  intros Hm Hn H. destruct (Z.eq_dec m 0) as [->|Hz]; [simpl; lia|].
  pose proof (Zdigits2_lower m ltac:(lia)) as Hl.
  destruct (Z_le_gt_dec (Zdigits2 m) n) as [|Hgt]; trivial.
  assert (2 ^ n <= 2 ^ (Zdigits2 m - 1)) by (apply Z.pow_le_mono_r; lia). lia.
Qed.

Lemma inb_rec_of_loc m l e x :
  0 <= m -> inbetween m e l x -> inb_rec (shr_record_of_loc m l) e x.
Proof. intros Hm H. split; destruct l as [|[| |]]; simpl; trivial. Qed.

Lemma shr_fexp_inb m e l x :
  0 <= m -> inbetween m e l x -> e <= fexp64 (Zdigits2 m + e) ->
  inb_rec (fst (shr_fexp prec emax m e l)) (fexp64 (Zdigits2 m + e)) x /\
  snd (shr_fexp prec emax m e l) = fexp64 (Zdigits2 m + e).
Proof.
  intros Hm H He. unfold shr_fexp, shr.
  pose proof (inb_rec_of_loc m l e x Hm H) as Hr.
  destruct (fexp64 (Zdigits2 m + e) - e) as [|p|p] eqn:Hn; cbn [fst snd].
  - replace (fexp64 (Zdigits2 m + e)) with e by lia. auto.
  - replace (fexp64 (Zdigits2 m + e)) with (e + Zpos p) by lia.
    split; [apply iter_shr_1_inb, Hr | reflexivity].
  - lia.
Qed.

Lemma IZR_bpow_lt m n : (IZR m < bpow n)%R -> 0 <= n -> m < 2 ^ n.
Proof. intros H Hn. rewrite bpow_IZR in H by trivial. now apply lt_IZR. Qed.

Lemma IZR_bpow_le m n : (bpow n <= IZR m)%R -> 0 <= n -> 2 ^ n <= m.
Proof. intros H Hn. rewrite bpow_IZR in H by trivial. now apply le_IZR. Qed.

Lemma bpow_IZR_lt m n : (bpow n < IZR m)%R -> 0 <= n -> 2 ^ n < m.
Proof. intros H Hn. rewrite bpow_IZR in H by trivial. now apply lt_IZR. Qed.

Lemma Rmult_bpow_lt a b e : (a * bpow e < b * bpow e)%R -> (a < b)%R.
Proof. pose proof (bpow_gt_0 e). intros. nra. Qed.

(** What the first shift of [binary_round_aux] leaves: a bracket of [x] at
    the exponent of its binade, with a mantissa of at most 53 bits, and of
    exactly 53 bits above the subnormal range. *)
Lemma shr_fexp_mantissa m e l x :
  0 <= m -> inbetween m e l x -> e <= fexp64 (Zdigits2 m + e) ->
  let E := fexp64 (Zdigits2 m + e) in
  let mrs := fst (shr_fexp prec emax m e l) in
  inbetween (shr_m mrs) E (loc_of_shr_record mrs) x /\
  0 <= shr_m mrs < 2 ^ 53 /\ -1074 <= E /\ (-1074 < E -> 2 ^ 52 <= shr_m mrs).
Proof.
  intros Hm H He E mrs.
  destruct (shr_fexp_inb m e l x Hm H He) as [[Hm' Hin] _].
  fold E in Hin. fold mrs in Hm', Hin.
  pose proof (inbetween_bounds _ _ _ _ H) as [Hx1 Hx2].
  pose proof (inbetween_bounds _ _ _ _ Hin) as [Hy1 Hy2].
  pose proof (bpow_gt_0 e) as Hbe. pose proof (bpow_gt_0 E) as HbE.
  assert (HE : E = Z.max (Zdigits2 m + e - 53) (-1074)) by reflexivity.
  pose proof (Zdigits2_nonneg m) as Hd.
  split; [exact Hin|]. split; [|split; [lia|]].
  - split; [exact Hm'|].
    apply IZR_bpow_lt; [|lia].
    apply Rmult_bpow_lt with E. rewrite <- bpow_plus.
    apply Rle_lt_trans with x; trivial.
    apply Rlt_le_trans with ((IZR m + 1) * bpow e)%R; trivial.
    apply Rle_trans with (bpow (Zdigits2 m + e)); [|apply bpow_le; lia].
    rewrite bpow_plus. apply Rmult_le_compat_r; [lra|].
    rewrite bpow_IZR by trivial. rewrite <- plus_IZR. apply IZR_le.
    now apply Zdigits2_upper.
  - intros HEm.
    assert (Hm0 : 0 < m).
    { destruct (Z.eq_dec m 0) as [->|]; [|lia]. simpl in *. lia. }
    pose proof (Zdigits2_lower m Hm0) as Hl.
    assert (Hd1 : 1 <= Zdigits2 m) by (destruct m; simpl in *; lia).
    assert (bpow (52 + E) <= x)%R.
    { apply Rle_trans with (IZR m * bpow e)%R; trivial.
      replace (52 + E) with ((Zdigits2 m - 1) + e) by lia.
      rewrite bpow_plus. apply Rmult_le_compat_r; [lra|].
      rewrite bpow_IZR by lia. now apply IZR_le. }
    assert (Hlt : (bpow 52 * bpow E < (IZR (shr_m mrs) + 1) * bpow E)%R).
    { rewrite <- bpow_plus. lra. }
    apply Rmult_bpow_lt in Hlt. rewrite <- plus_IZR in Hlt.
    apply bpow_IZR_lt in Hlt; lia.
Qed.


Lemma rne_bounds m l :
  m <= round_nearest_even m l <= m + 1.
Proof.
  destruct l as [|[| |]]; simpl; try lia. destruct (Z.even m); lia.
Qed.

Lemma bra_shape s m e l :
  let mrs := fst (shr_fexp prec emax m e l) in
  let E := snd (shr_fexp prec emax m e l) in
  let k := round_nearest_even (shr_m mrs) (loc_of_shr_record mrs) in
  0 <= k <= 2 ^ 53 -> -1074 <= E -> bra s m e l = rnd_result s k E.
Proof.
  unfold binary_round_aux. destruct (shr_fexp prec emax m e l) as [mrs E].
  cbn [fst snd]. set (k := round_nearest_even _ _). intros Hk HE.
  unfold rnd_result.
  destruct (Z.eqb_spec k (2 ^ 53)) as [->|Hne].
  - unfold shr_fexp, shr. change (Zdigits2 (2 ^ 53)) with 54.
    rewrite fexp64_eq. replace (Z.max (54 + E - 53) (-1074) - E) with 1 by lia.
    cbn. change (Z.sub emax prec) with 971. reflexivity.
  - assert (Hd : Zdigits2 k <= 53) by (apply Zdigits2_le; lia).
    unfold shr_fexp, shr. rewrite fexp64_eq.
    destruct (Z.max (Zdigits2 k + E - 53) (-1074) - E) as [|p|p] eqn:Hn;
      try lia; cbn [shr_record_of_loc shr_m];
      destruct k as [|p'|p']; try lia; reflexivity.
Qed.

(** ** Values *)



Lemma bpow_lt_inv a b : (bpow a < bpow b)%R -> a < b.
Proof.
  intros H. destruct (Z_lt_le_dec a b) as [|Hle]; trivial.
  apply bpow_le in Hle. lra.
Qed.

Lemma rnd_result_value s k E :
  0 <= k <= 2 ^ 53 -> SFfinite (rnd_result s k E) = true ->
  SF2R (rnd_result s k E) = (IZR (cond_Zopp s k) * bpow E)%R.
Proof.
  intros Hk. unfold rnd_result.
  destruct (Z.eqb_spec k 0) as [->|Hk0].
  - intros _. destruct s; simpl; lra.
  - destruct (Z.eqb_spec k (2 ^ 53)) as [->|Hk53].
    + destruct (E + 1 <=? 971); [intros _|discriminate]. cbn [SF2R].
      rewrite bpow_succ. change (Zpos (Z.to_pos (2 ^ 52))) with (2 ^ 52).
      destruct s; cbn [cond_Zopp]; rewrite ?opp_IZR;
        change (2 ^ 53) with (2 * 2 ^ 52); rewrite (mult_IZR 2); lra.
    + destruct (E <=? 971); [intros _|discriminate]. cbn [SF2R].
      rewrite Z2Pos.id by lia. reflexivity.
Qed.

Lemma rnd_result_finite s k E :
  0 <= k <= 2 ^ 53 -> (-1074 < E -> 2 ^ 52 <= k) ->
  (SFfinite (rnd_result s k E) = true <-> (IZR k * bpow E < bpow 1024)%R).
Proof.
  intros Hk Hn. unfold rnd_result. pose proof (bpow_gt_0 E) as HbE.
  destruct (Z.eqb_spec k 0) as [->|Hk0].
  - cbn [SFfinite]. pose proof (bpow_gt_0 1024). split; trivial. intros _. lra.
  - destruct (Z.eqb_spec k (2 ^ 53)) as [->|Hk53].
    + rewrite <- bpow_IZR, <- bpow_plus by lia.
      destruct (Z.leb_spec (E + 1) 971); cbn [SFfinite]; split.
      * intros _. apply bpow_lt. lia.
      * trivial.
      * discriminate.
      * intros H'. apply bpow_lt_inv in H'. lia.
    + destruct (Z.leb_spec E 971); cbn [SFfinite]; split.
      * intros _. apply Rlt_le_trans with (bpow 53 * bpow E)%R.
        -- apply Rmult_lt_compat_r; trivial. rewrite bpow_IZR by lia.
           apply IZR_lt. lia.
        -- rewrite <- bpow_plus. apply bpow_le. lia.
      * trivial.
      * discriminate.
      * intros H'. exfalso.
        assert (bpow 1024 <= IZR k * bpow E)%R; [|lra].
        apply Rle_trans with (bpow 52 * bpow E)%R.
        -- rewrite <- bpow_plus. apply bpow_le. lia.
        -- apply Rmult_le_compat_r; [lra|]. rewrite bpow_IZR by lia.
           apply IZR_le. lia.
Qed.


Lemma bra_rounds s m e l x :
  0 <= m -> inbetween m e l x -> e <= fexp64 (Zdigits2 m + e) ->
  exists k E, rounds x k E /\ bra s m e l = rnd_result s k E.
Proof.
  intros Hm H He.
  destruct (shr_fexp_mantissa m e l x Hm H He) as (Hin & Hb & HE & Hn).
  destruct (shr_fexp_inb m e l x Hm H He) as [_ HsE].
  set (mrs := fst (shr_fexp prec emax m e l)) in *.
  exists (round_nearest_even (shr_m mrs) (loc_of_shr_record mrs)),
    (fexp64 (Zdigits2 m + e)).
  split.
  - exists (shr_m mrs), (loc_of_shr_record mrs). auto.
  - rewrite <- HsE. apply bra_shape; fold mrs.
    + pose proof (rne_bounds (shr_m mrs) (loc_of_shr_record mrs)). lia.
    + rewrite HsE. exact HE.
Qed.

Lemma rounds_range x k E :
  rounds x k E ->
  0 <= k <= 2 ^ 53 /\ -1074 <= E /\ (-1074 < E -> 2 ^ 52 <= k) /\ (0 <= x)%R.
Proof.
  intros (m & l & Hin & -> & Hm & HE & Hn).
  pose proof (rne_bounds m l). pose proof (inbetween_bounds _ _ _ _ Hin) as [H1 _].
  pose proof (bpow_gt_0 E).
  assert (0 <= IZR m)%R by (apply IZR_le; lia).
  repeat split; try lia. nra.
Qed.

Lemma IZR_mult_bpow_le a b e : a <= b -> (IZR a * bpow e <= IZR b * bpow e)%R.
Proof.
  intros H. apply Rmult_le_compat_r; [pose proof (bpow_gt_0 e); lra|].
  now apply IZR_le.
Qed.

Lemma rne_mono_loc m l1 l2 e x y :
  inbetween m e l1 x -> inbetween m e l2 y -> (x <= y)%R ->
  round_nearest_even m l1 <= round_nearest_even m l2.
Proof.
  pose proof (bpow_gt_0 e) as Hb.
  destruct l1 as [|[| |]], l2 as [|[| |]]; cbn [inbetween round_nearest_even];
    intros H1 H2 Hxy; try lia; try (destruct (Z.even m); lia);
    exfalso; nra.
Qed.

(** Rounding to nearest is monotone. *)
Lemma rounds_mono x y k1 E1 k2 E2 :
  rounds x k1 E1 -> rounds y k2 E2 -> (x <= y)%R ->
  (IZR k1 * bpow E1 <= IZR k2 * bpow E2)%R.
Proof.
  intros (m1 & l1 & Hi1 & -> & Hm1 & HE1 & Hn1)
         (m2 & l2 & Hi2 & -> & Hm2 & HE2 & Hn2) Hxy.
  pose proof (inbetween_bounds _ _ _ _ Hi1) as [Hx1 Hx2].
  pose proof (inbetween_bounds _ _ _ _ Hi2) as [Hy1 Hy2].
  pose proof (rne_bounds m1 l1) as Hr1. pose proof (rne_bounds m2 l2) as Hr2.
  pose proof (bpow_gt_0 E1) as Hb1. pose proof (bpow_gt_0 E2) as Hb2.
  destruct (Z.lt_total E1 E2) as [Hlt|[Heq|Hgt]].
  - specialize (Hn2 ltac:(lia)).
    apply Rle_trans with (bpow (53 + E1)).
    + rewrite bpow_plus, (bpow_IZR 53) by lia. apply IZR_mult_bpow_le. lia.
    + apply Rle_trans with (bpow (52 + E2)); [apply bpow_le; lia|].
      rewrite bpow_plus, (bpow_IZR 52) by lia. apply IZR_mult_bpow_le. lia.
  - subst E2. apply IZR_mult_bpow_le.
    destruct (Z.lt_total m1 m2) as [H|[H|H]].
    + lia.
    + subst m2. eapply rne_mono_loc; eauto.
    + exfalso. pose proof (IZR_mult_bpow_le (m2 + 1) m1 E1 ltac:(lia)) as Hc.
      rewrite plus_IZR in Hc. lra.
  - exfalso. specialize (Hn1 ltac:(lia)).
    assert (bpow (52 + E1) <= x)%R.
    { apply Rle_trans with (IZR m1 * bpow E1)%R; trivial.
      rewrite bpow_plus, (bpow_IZR 52) by lia. apply IZR_mult_bpow_le. lia. }
    assert (y < bpow (53 + E2))%R.
    { apply Rlt_le_trans with ((IZR m2 + 1) * bpow E2)%R; trivial.
      rewrite bpow_plus, (bpow_IZR 53), <- plus_IZR by lia.
      apply IZR_mult_bpow_le. lia. }
    pose proof (bpow_le (53 + E2) (52 + E1) ltac:(lia)). lra.
Qed.

(** The rounding exponent is that of the binade of [x]. *)
Lemma rounds_exp_le x k E M : rounds x k E -> (x < bpow M)%R -> E <= fexp64 M.
Proof.
  intros (m & l & Hi & -> & Hm & HE & Hn) Hx.
  rewrite fexp64_eq.
  destruct (Z.eq_dec E (-1074)) as [|Hne]; [lia|].
  specialize (Hn ltac:(lia)).
  pose proof (inbetween_bounds _ _ _ _ Hi) as [Hx1 _].
  assert (bpow (52 + E) <= x)%R.
  { apply Rle_trans with (IZR m * bpow E)%R; trivial.
    rewrite bpow_plus, (bpow_IZR 52) by lia. apply IZR_mult_bpow_le. lia. }
  assert (52 + E < M) by (apply bpow_lt_inv; lra). lia.
Qed.

Lemma rounds_exp_ge x k E M : rounds x k E -> (bpow (M - 1) <= x)%R -> fexp64 M <= E.
Proof.
  intros (m & l & Hi & -> & Hm & HE & Hn) Hx.
  rewrite fexp64_eq.
  pose proof (inbetween_bounds _ _ _ _ Hi) as [_ Hx2].
  assert (x < bpow (53 + E))%R.
  { apply Rlt_le_trans with ((IZR m + 1) * bpow E)%R; trivial.
    rewrite bpow_plus, (bpow_IZR 53), <- plus_IZR by lia.
    apply IZR_mult_bpow_le. lia. }
  assert (M - 1 < 53 + E) by (apply bpow_lt_inv; lra). lia.
Qed.

(** A multiple of [2^E] rounds to itself. *)
Lemma rounds_exact x k E n c :
  rounds x k E -> x = (IZR n * bpow c)%R -> E <= c -> (IZR k * bpow E)%R = x.
Proof.
  intros (m & l & Hi & -> & Hm & HE & Hn) Hx Hc.
  pose proof (bpow_gt_0 E) as Hb.
  assert (HN : x = (IZR (n * 2 ^ (c - E)) * bpow E)%R).
  { rewrite Hx, mult_IZR, <- bpow_IZR by lia.
    replace c with ((c - E) + E) at 1 by lia. rewrite bpow_plus. ring. }
  set (N := n * 2 ^ (c - E)) in HN.
  destruct l as [|[| |]]; cbn [inbetween round_nearest_even] in *.
  - now rewrite Hi.
  - exfalso. rewrite HN in Hi.
    assert (H3 : IZR (2 * N) = IZR (2 * m + 1)).
    { rewrite plus_IZR, !mult_IZR. nra. }
    apply eq_IZR in H3. lia.
  - exfalso. rewrite HN in Hi. destruct Hi as [H1 H2].
    apply Rmult_bpow_lt in H1. apply lt_IZR in H1.
    assert (H3 : (IZR N < IZR (m + 1))%R).
    { rewrite plus_IZR. apply Rmult_bpow_lt with E. nra. }
    apply lt_IZR in H3. lia.
  - exfalso. rewrite HN in Hi. destruct Hi as [H1 H2].
    apply Rmult_bpow_lt in H2. rewrite <- plus_IZR in H2. apply lt_IZR in H2.
    assert (H3 : (IZR m < IZR N)%R).
    { apply Rmult_bpow_lt with E. nra. }
    apply lt_IZR in H3. lia.
Qed.

(** ** Correctly rounded results *)



Lemma SF2R_rnd_result_sign s k E :
  SF2R (rnd_result s k E) = (if s then - SF2R (rnd_result false k E)
                             else SF2R (rnd_result false k E))%R.
Proof.
  destruct s; trivial. unfold rnd_result.
  repeat match goal with |- context [if ?c then _ else _] => destruct c end;
    cbn [SF2R cond_Zopp]; rewrite ?opp_IZR; lra.
Qed.

Lemma SFfinite_rnd_result_sign s k E :
  SFfinite (rnd_result s k E) = SFfinite (rnd_result false k E).
Proof.
  unfold rnd_result.
  repeat match goal with |- context [if ?c then _ else _] => destruct c end;
    reflexivity.
Qed.

Lemma rounds_value_nonneg x k E : rounds x k E -> (0 <= IZR k * bpow E)%R.
Proof.
  intros H. destruct (rounds_range _ _ _ H) as (Hk & _).
  pose proof (bpow_gt_0 E). assert (0 <= IZR k)%R by (apply IZR_le; lia). nra.
Qed.

Lemma rounded_nonneg x f : rounded false x f -> (0 <= SF2R f)%R.
Proof.
  intros [[_ ->] | (k & E & Hr & ->)]; cbn [SF2R]; try lra.
  destruct (rounds_range _ _ _ Hr) as (Hk & _).
  unfold rnd_result.
  repeat match goal with |- context [if ?c then _ else _] => destruct c end;
    cbn [SF2R cond_Zopp]; try lra;
    (apply Rmult_le_pos; [apply IZR_le; lia | pose proof (bpow_gt_0 E); pose proof (bpow_gt_0 (E+1)); lra]).
Qed.

Lemma rounds_zero k E : rounds 0 k E -> k = 0.
Proof.
  intros H. pose proof (rounds_exact 0 k E 0 E H) as Hx.
  rewrite Rmult_0_l in Hx. specialize (Hx eq_refl (Z.le_refl _)).
  pose proof (bpow_gt_0 E).
  assert (IZR k = 0%R) by nra. now apply eq_IZR.
Qed.

(** Monotonicity, on floats. *)
Lemma rounded_mono x y f g :
  rounded false x f -> rounded false y g -> (x <= y)%R ->
  SFfinite g = true ->
  SFfinite f = true /\ (SF2R f <= SF2R g)%R.
Proof.
  intros Hf Hg Hxy Hfin.
  pose proof (rounded_nonneg _ _ Hg) as Hg0.
  destruct Hf as [[Hx ->] | (k1 & E1 & Hr1 & ->)];
    try (split; [reflexivity | cbn [SF2R]; lra]).
  destruct (rounds_range _ _ _ Hr1) as (Hk1 & HE1 & Hn1 & Hx0).
  destruct Hg as [[Hy Hz] | (k2 & E2 & Hr2 & ->)].
  - assert (x = 0%R) by lra. subst x. apply rounds_zero in Hr1. subst k1.
    split; [reflexivity|]. cbn [SF2R] in *. unfold rnd_result. simpl. lra.
  - destruct (rounds_range _ _ _ Hr2) as (Hk2 & HE2 & Hn2 & Hy0).
    pose proof (rounds_mono _ _ _ _ _ _ Hr1 Hr2 Hxy) as Hle.
    pose proof (proj1 (rnd_result_finite false k2 E2 Hk2 Hn2) Hfin) as Hlt.
    assert (Hf1 : SFfinite (rnd_result false k1 E1) = true).
    { apply rnd_result_finite; trivial. lra. }
    split; trivial.
    rewrite !rnd_result_value by trivial. exact Hle.
Qed.

(** Exactness, on floats. *)
Lemma rounded_exact s x f n c M :
  rounded s x f -> x = (IZR n * bpow c)%R -> (x < bpow M)%R ->
  fexp64 M <= c -> M <= 1024 ->
  SFfinite f = true /\ SF2R f = (if s then - x else x)%R.
Proof.
  intros [[Hx ->] | (k & E & Hr & ->)] Hn HM Hc HM'.
  1: split; [reflexivity | cbn [SF2R]; destruct s; lra].
  destruct (rounds_range _ _ _ Hr) as (Hk & HE & Hn' & Hx0).
  pose proof (rounds_exp_le _ _ _ _ Hr HM) as HEM.
  pose proof (rounds_exact _ _ _ _ _ Hr Hn ltac:(lia)) as Hv.
  assert (Hfin : SFfinite (rnd_result false k E) = true).
  { apply rnd_result_finite; trivial. rewrite Hv.
    apply Rlt_le_trans with (bpow M); trivial. apply bpow_le; lia. }
  rewrite SFfinite_rnd_result_sign, SF2R_rnd_result_sign.
  rewrite rnd_result_value by trivial. cbn [cond_Zopp]. rewrite Hv.
  split; trivial.
Qed.

(** ** The operations of [SpecFloat] *)

Lemma valid_finite s m e :
  valid_binary (S754_finite s m e) = true ->
  fexp64 (Zpos (digits2_pos m) + e) = e /\ e <= 971.
Proof.
  cbn [SpecFloat.valid_binary]. unfold bounded, canonical_mantissa.
  intros H. apply andb_prop in H. destruct H as [H1 H2].
  apply Z.eqb_eq in H1. apply Z.leb_le in H2.
  change (Z.sub emax prec) with 971 in H2. auto.
Qed.

Lemma valid_mantissa s m e :
  valid_binary (S754_finite s m e) = true ->
  Zpos m < 2 ^ 53 /\ -1074 <= e <= 971 /\ (-1074 < e -> 2 ^ 52 <= Zpos m).
Proof.
  intros H. apply valid_finite in H. destruct H as [H1 H2].
  rewrite fexp64_eq in H1.
  pose proof (digits2_pos_bounds m) as [Hl Hu].
  assert (Hd : Zpos (digits2_pos m) <= 53) by lia.
  split; [|split; [lia|]].
  - apply Z.lt_le_trans with (2 ^ Zpos (digits2_pos m)); trivial.
    apply Z.pow_le_mono_r; lia.
  - intros He. replace (Zpos (digits2_pos m)) with 53 in Hl by lia. exact Hl.
Qed.

Lemma iter_xO_Z m p : Zpos (Pos.iter xO m p) = Zpos m * 2 ^ Zpos p.
Proof.
  induction p as [|p IH] using Pos.peano_ind.
  - simpl. lia.
  - rewrite Pos.iter_succ, Pos2Z.inj_succ, Z.pow_succ_r by lia.
    rewrite Pos2Z.inj_xO, IH. ring.
Qed.

Lemma digits_iter_xO m p :
  Zpos (digits2_pos (Pos.iter xO m p)) = Zpos (digits2_pos m) + Zpos p.
Proof.
  induction p as [|p IH] using Pos.peano_ind.
  - simpl. lia.
  - rewrite Pos.iter_succ. cbn [digits2_pos]. rewrite !Pos2Z.inj_succ, IH. lia.
Qed.

Lemma shl_align_value m e e' :
  let '(m', e'') := shl_align m e e' in
  (IZR (Zpos m') * bpow e'')%R = (IZR (Zpos m) * bpow e)%R /\
  e'' <= e /\ (e' <= e -> e'' = e') /\
  Zpos (digits2_pos m') + e'' = Zpos (digits2_pos m) + e.
Proof.
  unfold shl_align. destruct (e' - e) as [|p|p] eqn:Hd.
  - repeat split; lia.
  - repeat split; lia.
  - repeat split; try lia.
    + rewrite iter_xO_Z, mult_IZR, <- bpow_IZR by lia.
      assert (He : bpow e = (bpow (Zpos p) * bpow e')%R).
      { rewrite <- bpow_plus. f_equal. lia. }
      rewrite He. ring.
    + rewrite digits_iter_xO. lia.
Qed.

Lemma binary_round_rounded s m e :
  rounded s (IZR (Zpos m) * bpow e) (binary_round prec emax s m e).
Proof.
  unfold binary_round.
  pose proof (shl_align_value m e (fexp64 (Zpos (digits2_pos m) + e))) as H.
  destruct (shl_align m e _) as [mz ez]. destruct H as (Hv & Hle & He & Hd).
  right. rewrite <- Hv. apply bra_rounds.
  - lia.
  - reflexivity.
  - cbn [Zdigits2]. rewrite Hd.
    destruct (Z_le_gt_dec (fexp64 (Zpos (digits2_pos m) + e)) e); lia.
Qed.

(** A valid nonnegative float is its own rounding. *)
Lemma rounded_self m e :
  valid_binary (S754_finite false m e) = true ->
  rounded false (IZR (Zpos m) * bpow e) (S754_finite false m e).
Proof.
  intros Hv. apply valid_mantissa in Hv. destruct Hv as (Hm & He & Hn).
  right. exists (Zpos m), e. split.
  - exists (Zpos m), loc_Exact. cbn. repeat split; trivial; lia.
  - unfold rnd_result.
    destruct (Z.eqb_spec (Zpos m) 0); [lia|].
    destruct (Z.eqb_spec (Zpos m) (2 ^ 53)); [lia|].
    destruct (Z.leb_spec e 971); [reflexivity | lia].
Qed.


Lemma Zdigits2_ge m n : 0 <= n -> 2 ^ n <= m -> n + 1 <= Zdigits2 m.
Proof.
  intros Hn H. assert (Hm : 0 <= m) by (pose proof (Z.pow_pos_nonneg 2 n); lia).
  pose proof (Zdigits2_upper m Hm) as Hu. pose proof (Zdigits2_nonneg m).
  assert (2 ^ n < 2 ^ Zdigits2 m) by lia.
  apply Z.pow_lt_mono_r_iff in H1; lia.
Qed.

Lemma fexp64_mono a b : a <= b -> fexp64 a <= fexp64 b.
Proof. rewrite !fexp64_eq. lia. Qed.

Lemma rounded_self_sign s m e :
  valid_binary (S754_finite s m e) = true ->
  rounded s (IZR (Zpos m) * bpow e) (S754_finite s m e).
Proof.
  intros Hv. destruct (rounded_self m e Hv) as [[H _]|(k & E & Hr & Heq)].
  - pose proof (bpow_gt_0 e). assert (0 < IZR (Zpos m))%R by (apply IZR_lt; lia).
    nra.
  - right. exists k, E. split; trivial. revert Heq. unfold rnd_result.
    repeat match goal with |- context [if ?c then _ else _] => destruct c end;
      intros Heq; inversion Heq; reflexivity.
Qed.

Lemma SF2R_pos m e : (0 < IZR (Zpos m) * bpow e)%R.
Proof.
  apply Rmult_lt_0_compat; [apply IZR_lt; lia | apply bpow_gt_0].
Qed.

Lemma SFmul_finite_rounded sx mx ex sy my ey :
  valid_binary (S754_finite sx mx ex) = true ->
  valid_binary (S754_finite sy my ey) = true ->
  rounded (xorb sx sy) ((IZR (Zpos mx) * bpow ex) * (IZR (Zpos my) * bpow ey))
    (SF64mul (S754_finite sx mx ex) (S754_finite sy my ey)).
Proof.
  intros Hx Hy. apply valid_finite in Hx, Hy. destruct Hx as [Hx _], Hy as [Hy _].
  unfold SF64mul, SFmul. right. apply bra_rounds.
  - lia.
  - cbn [inbetween]. rewrite Pos2Z.inj_mul, mult_IZR, bpow_plus. ring.
  - pose proof (digits2_pos_bounds mx) as [Hlx Hux].
    pose proof (digits2_pos_bounds my) as [Hly Huy].
    assert (Hd : Zpos (digits2_pos mx) + Zpos (digits2_pos my) - 1
                 <= Zdigits2 (Zpos (mx * my))).
    { replace (Zpos (digits2_pos mx) + Zpos (digits2_pos my) - 1)
        with ((Zpos (digits2_pos mx) - 1) + (Zpos (digits2_pos my) - 1) + 1) by lia.
      apply Zdigits2_ge; [lia|]. rewrite Z.pow_add_r, Pos2Z.inj_mul by lia.
      apply Z.mul_le_mono_nonneg; trivial; apply Z.pow_nonneg; lia. }
    rewrite fexp64_eq in *. lia.
Qed.

Lemma SFmul_rounded a b :
  valid_binary a = true -> valid_binary b = true ->
  SFnonneg a -> SFnonneg b ->
  rounded false (SF2R a * SF2R b) (SF64mul a b).
Proof.
  intros Va Vb Ha Hb.
  destruct a as [sa|sa| |sa ma ea]; try easy;
    destruct b as [sb|sb| |sb mb eb]; try easy; cbn [SFnonneg] in *; subst.
  all: try (left; cbn; split; [lra | reflexivity]).
  apply (SFmul_finite_rounded false ma ea false mb eb Va Vb).
Qed.

Lemma SFmul_rounded_square a :
  valid_binary a = true -> SFfinite a = true ->
  rounded false (SF2R a * SF2R a) (SF64mul a a).
Proof.
  intros Va Ha. destruct a as [sa|sa| |sa ma ea]; try easy.
  - left. cbn. split; [lra | destruct sa; reflexivity].
  - pose proof (SFmul_finite_rounded sa ma ea sa ma ea Va Va) as H.
    replace (xorb sa sa) with false in H by (now destruct sa). cbn [SF2R].
    destruct sa; cbn [cond_Zopp]; rewrite ?opp_IZR.
    + replace (- IZR (Zpos ma) * bpow ea * (- IZR (Zpos ma) * bpow ea))%R
        with (IZR (Zpos ma) * bpow ea * (IZR (Zpos ma) * bpow ea))%R by ring.
      exact H.
    + exact H.
Qed.

Lemma shl_align_fst_value m e e' :
  e' <= e ->
  (IZR (Zpos (fst (shl_align m e e'))) * bpow e')%R = (IZR (Zpos m) * bpow e)%R.
Proof.
  intros H. pose proof (shl_align_value m e e') as Hs.
  destruct (shl_align m e e') as [m' e'']. cbn [fst].
  destruct Hs as (Hv & _ & He & _). rewrite <- (He H) at 1. exact Hv.
Qed.

Lemma SFadd_rounded a b :
  valid_binary a = true -> valid_binary b = true ->
  SFnonneg a -> SFnonneg b ->
  rounded false (SF2R a + SF2R b) (SF64add a b).
Proof.
  intros Va Vb Ha Hb.
  destruct a as [sa|sa| |sa ma ea]; try easy;
    destruct b as [sb|sb| |sb mb eb]; try easy; cbn [SFnonneg] in *; subst.
  - left. cbn. split; [lra | reflexivity].
  - cbn. rewrite Rplus_0_l. now apply rounded_self.
  - cbn. rewrite Rplus_0_r. now apply rounded_self.
  - unfold SF64add, SFadd. cbn [cond_Zopp SF2R].
    set (ez := Z.min ea eb).
    pose proof (shl_align_fst_value ma ea ez ltac:(lia)) as H1.
    pose proof (shl_align_fst_value mb eb ez ltac:(lia)) as H2.
    rewrite <- H1, <- H2, <- Rmult_plus_distr_r, <- plus_IZR.
    cbn [Z.add binary_normalize]. apply binary_round_rounded.
Qed.

Lemma SFsub_rounded a b :
  valid_binary a = true -> valid_binary b = true ->
  SFnonneg a -> SFnonneg b ->
  ((SF2R b <= SF2R a)%R -> rounded false (SF2R a - SF2R b) (SF64sub a b)) /\
  ((SF2R a <= SF2R b)%R -> rounded true (SF2R b - SF2R a) (SF64sub a b)).
Proof.
  intros Va Vb Ha Hb.
  destruct a as [sa|sa| |sa ma ea]; try easy;
    destruct b as [sb|sb| |sb mb eb]; try easy; cbn [SFnonneg] in *; subst.
  - split; intros _; left; cbn; (split; [lra | reflexivity]).
  - cbn. pose proof (SF2R_pos mb eb). split; intros H'; [lra|].
    rewrite Rminus_0_r. now apply rounded_self_sign.
  - cbn. pose proof (SF2R_pos ma ea). split; intros H'; [|lra].
    rewrite Rminus_0_r. now apply rounded_self.
  - unfold SF64sub, SFsub. cbn [cond_Zopp SF2R].
    set (ez := Z.min ea eb).
    pose proof (shl_align_fst_value ma ea ez ltac:(lia)) as H1.
    pose proof (shl_align_fst_value mb eb ez ltac:(lia)) as H2.
    rewrite <- H1, <- H2.
    set (A := Zpos (fst (shl_align ma ea ez))).
    set (B := Zpos (fst (shl_align mb eb ez))).
    pose proof (bpow_gt_0 ez) as Hb.
    destruct (A - B) as [|d|d] eqn:Hd; cbn [binary_normalize].
    + assert (HAB : IZR A = IZR B) by (f_equal; lia). split; intros _; left;
        (split; [ rewrite HAB; lra | reflexivity ]).
    + assert (HA : IZR A = (IZR B + IZR (Zpos d))%R)
        by (rewrite <- plus_IZR; f_equal; lia).
      pose proof (SF2R_pos d ez). split; intros H'.
      * replace (IZR A * bpow ez - IZR B * bpow ez)%R
          with (IZR (Zpos d) * bpow ez)%R by (rewrite HA; ring).
        apply binary_round_rounded.
      * rewrite HA in H'. exfalso. nra.
    + assert (HA : IZR B = (IZR A + IZR (Zpos d))%R)
        by (rewrite <- plus_IZR; f_equal; lia).
      pose proof (SF2R_pos d ez). split; intros H'.
      * rewrite HA in H'. exfalso. nra.
      * replace (IZR B * bpow ez - IZR A * bpow ez)%R
          with (IZR (Zpos d) * bpow ez)%R by (rewrite HA; ring).
        apply binary_round_rounded.
Qed.

(** *** Division *)

Lemma new_location_inb nb k q e x :
  0 < nb -> 0 <= k < nb ->
  (x * IZR nb = (IZR nb * IZR q + IZR k) * bpow e)%R ->
  inbetween q e (new_location nb k) x.
Proof.
  intros Hnb Hk Hx. pose proof (bpow_gt_0 e) as Hb.
  assert (HN : (0 < IZR nb)%R) by (apply IZR_lt; lia).
  assert (Hcancel : forall a b : R, (a * IZR nb = b * IZR nb -> a = b)%R)
    by (intros a b' Hab; nra).
  assert (Hlt : forall a b : R, (a * IZR nb < b * IZR nb -> a < b)%R)
    by (intros a b' Hab; nra).
  assert (HkB : forall c, c < k -> (IZR c * bpow e < IZR k * bpow e)%R).
  { intros c Hc. apply Rmult_lt_compat_r; trivial. now apply IZR_lt. }
  assert (HkB' : forall c, k < c -> (IZR k * bpow e < IZR c * bpow e)%R).
  { intros c Hc. apply Rmult_lt_compat_r; trivial. now apply IZR_lt. }
  unfold new_location.
  destruct (Z.even nb) eqn:Hev; unfold new_location_even, new_location_odd;
    (destruct (Z.eqb_spec k 0) as [->|Hk0]; [cbn; apply Hcancel; lra|]);
    specialize (HkB 0 ltac:(lia)); specialize (HkB' nb ltac:(lia));
    rewrite Rmult_0_l in HkB.
  - destruct (Z.compare_spec (2 * k) nb) as [Heq|Hl|Hg]; cbn [inbetween].
    + apply Hcancel. rewrite <- Heq in *. rewrite mult_IZR in *. lra.
    + assert (2 * (IZR k * bpow e) < IZR nb * bpow e)%R.
      { rewrite <- Rmult_assoc, <- mult_IZR.
        apply Rmult_lt_compat_r; trivial. now apply IZR_lt. }
      split; apply Hlt; lra.
    + assert (IZR nb * bpow e < 2 * (IZR k * bpow e))%R.
      { rewrite <- Rmult_assoc, <- mult_IZR.
        apply Rmult_lt_compat_r; trivial. now apply IZR_lt. }
      split; apply Hlt; lra.
  - assert (Hodd : 2 * k <> nb).
    { intros <-. rewrite Z.even_mul in Hev. discriminate. }
    destruct (Z.compare_spec (2 * k + 1) nb) as [Heq|Hl|Hg]; cbn [inbetween].
    + assert (2 * (IZR k * bpow e) < IZR nb * bpow e)%R.
      { rewrite <- Rmult_assoc, <- mult_IZR.
        apply Rmult_lt_compat_r; trivial. apply IZR_lt. lia. }
      split; apply Hlt; lra.
    + assert (2 * (IZR k * bpow e) < IZR nb * bpow e)%R.
      { rewrite <- Rmult_assoc, <- mult_IZR.
        apply Rmult_lt_compat_r; trivial. apply IZR_lt. lia. }
      split; apply Hlt; lra.
    + assert (IZR nb * bpow e < 2 * (IZR k * bpow e))%R.
      { rewrite <- Rmult_assoc, <- mult_IZR.
        apply Rmult_lt_compat_r; trivial. apply IZR_lt. lia. }
      split; apply Hlt; lra.
Qed.

Lemma SFdiv_core_spec mx ex my ey x :
  (x * (IZR (Zpos my) * bpow ey) = IZR (Zpos mx) * bpow ex)%R ->
  let '(q, e', l) := SFdiv_core_binary prec emax (Zpos mx) ex (Zpos my) ey in
  0 <= q /\ inbetween q e' l x /\ e' <= fexp64 (Zdigits2 q + e').
Proof.
  intros Hx. unfold SFdiv_core_binary. cbn [Zdigits2].
  set (d1 := Zpos (digits2_pos mx)). set (d2 := Zpos (digits2_pos my)).
  set (e' := Z.min (fexp64 (d1 + ex - (d2 + ey))) (ex - ey)).
  set (s := ex - ey - e').
  assert (Hs : 0 <= s) by (unfold s, e'; lia).
  set (m' := match s with Zpos _ => Z.shiftl (Zpos mx) s | 0 => Zpos mx | Zneg _ => 0 end).
  assert (Hm' : m' = Zpos mx * 2 ^ s).
  { unfold m'. destruct s as [|p|p] eqn:Hsp.
    - simpl. lia.
    - rewrite Z.shiftl_mul_pow2; lia.
    - lia. }
  clearbody m'.
  pose proof (Z_div_mod m' (Zpos my) ltac:(lia)) as Hdm.
  destruct (Z.div_eucl m' (Zpos my)) as [q r]. destruct Hdm as [Hqr Hr].
  assert (Hp2 : 0 < 2 ^ s) by (apply Z.pow_pos_nonneg; lia).
  assert (Hq : 0 <= q) by nia.
  split; [exact Hq|]. split.
  - apply new_location_inb; try lia.
    pose proof (bpow_gt_0 ey) as Hbey.
    assert (He : bpow ex = (bpow s * bpow e' * bpow ey)%R).
    { rewrite <- !bpow_plus. f_equal. unfold s. lia. }
    assert (HM : (IZR (Zpos my) * IZR q + IZR r = IZR (Zpos mx) * bpow s)%R).
    { rewrite <- mult_IZR, <- plus_IZR, <- Hqr, Hm', mult_IZR, bpow_IZR by lia.
      reflexivity. }
    rewrite HM. rewrite He in Hx.
    apply Rmult_eq_reg_r with (bpow ey); [|lra].
    rewrite Rmult_assoc, Hx. ring.
  - pose proof (digits2_pos_bounds mx) as [Hl1 Hu1].
    pose proof (digits2_pos_bounds my) as [Hl2 Hu2]. fold d1 in Hl1, Hu1.
    fold d2 in Hl2, Hu2.
    set (D := d1 + ex - (d2 + ey)) in *.
    assert (He'D : e' <= fexp64 D) by (unfold e'; lia).
    destruct (Z_le_gt_dec D e') as [HJ|HJ].
    + rewrite fexp64_eq in *. lia.
    + apply Z.le_trans with (fexp64 D); trivial. apply fexp64_mono.
      set (J := D - e' - 1). assert (HJ0 : 0 <= J) by (unfold J; lia).
      assert (HqJ : 2 ^ J <= q).
      { assert (H1 : 2 ^ J * 2 ^ d2 <= m').
        { rewrite Hm', <- Z.pow_add_r by (unfold d2; lia).
          replace (J + d2) with ((d1 - 1) + s) by (unfold J, D, s; lia).
          rewrite Z.pow_add_r by (unfold d1; lia).
          apply Z.mul_le_mono_nonneg_r; lia. }
        assert (H2 : 0 < 2 ^ J) by (apply Z.pow_pos_nonneg; lia).
        assert (H3 : 2 ^ J * Zpos my < Zpos my * (q + 1)) by nia.
        nia. }
      apply Zdigits2_ge in HqJ; trivial. unfold J in HqJ. lia.
Qed.

Lemma SFdiv_rounded a b x :
  valid_binary a = true -> valid_binary b = true ->
  SFnonneg a -> SFnonneg b -> (0 < SF2R b)%R ->
  (x * SF2R b = SF2R a)%R ->
  rounded false x (SF64div a b).
Proof.
  intros Va Vb Ha Hb Hb0 Hx.
  destruct b as [sb|sb| |sb mb eb]; try easy; cbn [SFnonneg] in Hb.
  { cbn in Hb0. lra. }
  subst sb. destruct a as [sa|sa| |sa ma ea]; try easy; cbn [SFnonneg] in Ha.
  - left. cbn in *. subst sa. split; [nra | reflexivity].
  - subst sa. unfold SF64div, SFdiv. cbn [SF2R cond_Zopp xorb] in *.
    pose proof (SFdiv_core_spec ma ea mb eb x Hx) as H.
    destruct (SFdiv_core_binary prec emax (Zpos ma) ea (Zpos mb) eb) as [[q e'] l].
    destruct H as (Hq & Hin & He). right. now apply bra_rounds.
Qed.

(** *** Square root *)

Lemma Rsq_lt_inv a b : (0 <= b -> a * a < b * b -> a < b)%R.
Proof. intros. nra. Qed.

Lemma Rsq_eq_inv a b : (0 <= a -> 0 <= b -> a * a = b * b -> a = b)%R.
Proof. intros. nra. Qed.

Lemma SFsqrt_core_spec mx ex x :
  (0 <= x)%R -> (x * x = IZR (Zpos mx) * bpow ex)%R ->
  let '(q, e', l) := SFsqrt_core_binary prec emax (Zpos mx) ex in
  0 <= q /\ inbetween q e' l x /\ e' <= fexp64 (Zdigits2 q + e').
Proof.
  intros Hx0 Hx. unfold SFsqrt_core_binary. cbn [Zdigits2].
  set (d := Zpos (digits2_pos mx)).
  set (M := Z.div2 (d + ex + 1)).
  set (e' := Z.min (fexp64 M) (Z.div2 ex)).
  set (s := ex - 2 * e').
  assert (HM : M = (d + ex + 1) / 2) by apply Z.div2_div.
  assert (He2 : Z.div2 ex = ex / 2) by apply Z.div2_div.
  assert (He'2 : 2 * e' <= ex).
  { pose proof (Z.le_min_r (fexp64 M) (Z.div2 ex)) as Hmin. fold e' in Hmin.
    rewrite He2 in Hmin. pose proof (Z.mul_div_le ex 2 ltac:(lia)). lia. }
  assert (Hs : 0 <= s) by (unfold s; lia).
  set (m' := match s with Zpos _ => Z.shiftl (Zpos mx) s | 0 => Zpos mx | Zneg _ => 0 end).
  assert (Hm' : m' = Zpos mx * 2 ^ s).
  { unfold m'. destruct s as [|p|p] eqn:Hsp.
    - simpl. lia.
    - rewrite Z.shiftl_mul_pow2; lia.
    - lia. }
  clearbody m'.
  assert (Hp2 : 0 < 2 ^ s) by (apply Z.pow_pos_nonneg; lia).
  pose proof (Z.sqrtrem_spec m' ltac:(nia)) as Hsq.
  destruct (Z.sqrtrem m') as [q r]. destruct Hsq as [Hqr Hr].
  assert (Hq : 0 <= q) by lia.
  split; [exact Hq|]. split.
  - pose proof (bpow_gt_0 e') as HB. set (B := bpow e') in *.
    assert (He : bpow ex = (bpow s * (B * B))%R).
    { unfold B. rewrite <- !bpow_plus. f_equal. unfold s. lia. }
    assert (Hxx : (x * x = (IZR q * IZR q + IZR r) * (B * B))%R).
    { assert (Hm : (IZR q * IZR q + IZR r = IZR (Zpos mx) * bpow s)%R).
      { rewrite <- mult_IZR, <- plus_IZR, <- Hqr, Hm', mult_IZR.
        now rewrite (bpow_IZR s) by lia. }
      rewrite Hx, He, Hm. ring. }
    assert (HBB : (0 < B * B)%R) by nra.
    assert (HQ : (0 <= IZR q)%R) by (apply IZR_le; lia).
    assert (HQB : (0 <= IZR q * B)%R) by nra.
    destruct (Z.eqb_spec r 0) as [->|Hr0]; cbn [inbetween]; fold B.
    + apply Rsq_eq_inv; trivial. rewrite Hxx. ring.
    + assert (HrB : (0 < IZR r * (B * B))%R).
      { apply Rmult_lt_0_compat; trivial. apply IZR_lt. lia. }
      assert (Hr2 : (IZR r * (B * B) <= 2 * IZR q * (B * B))%R).
      { rewrite <- mult_IZR. apply Rmult_le_compat_r; [lra|]. apply IZR_le. lia. }
      assert (HQBB : (0 <= IZR q * (B * B))%R) by nra.
      destruct (Z.leb_spec r q) as [Hle|Hgt]; cbn [inbetween]; fold B.
      * assert (Hr1 : (IZR r * (B * B) <= IZR q * (B * B))%R).
        { apply Rmult_le_compat_r; [lra|]. now apply IZR_le. }
        split; apply Rsq_lt_inv; try nra.
      * assert (Hr1 : ((IZR q + 1) * (B * B) <= IZR r * (B * B))%R).
        { rewrite <- plus_IZR. apply Rmult_le_compat_r; [lra|]. apply IZR_le. lia. }
        split; apply Rsq_lt_inv; try nra.
  - pose proof (digits2_pos_bounds mx) as [Hl Hu]. fold d in Hl, Hu.
    assert (He'M : e' <= fexp64 M) by (unfold e'; lia).
    destruct (Z_le_gt_dec M e') as [HJ|HJ].
    + rewrite fexp64_eq in *. lia.
    + apply Z.le_trans with (fexp64 M); trivial. apply fexp64_mono.
      set (J := M - e' - 1). assert (HJ0 : 0 <= J) by (unfold J; lia).
      assert (HqJ : 2 ^ J <= q).
      { assert (H1 : 2 ^ J * 2 ^ J <= m').
        { rewrite Hm', <- Z.pow_add_r by lia.
          apply Z.le_trans with (2 ^ (d - 1) * 2 ^ s).
          - rewrite <- Z.pow_add_r by (unfold d; lia).
            apply Z.pow_le_mono_r; [lia|]. unfold J, s.
            pose proof (Z.mul_div_le (d + ex + 1) 2 ltac:(lia)) as HM2.
            rewrite <- HM in HM2. lia.
          - apply Z.mul_le_mono_nonneg_r; lia. }
        assert (H2 : 0 < 2 ^ J) by (apply Z.pow_pos_nonneg; lia).
        nia. }
      apply Zdigits2_ge in HqJ; trivial. unfold J in HqJ. lia.
Qed.

Lemma SFsqrt_rounded a x :
  valid_binary a = true -> SFnonneg a -> (0 < SF2R a)%R ->
  (0 <= x)%R -> (x * x = SF2R a)%R ->
  rounded false x (SF64sqrt a).
Proof.
  intros Va Ha Ha0 Hx0 Hx.
  destruct a as [sa|sa| |sa ma ea]; try easy; cbn [SFnonneg] in Ha.
  { cbn in Ha0. lra. }
  subst sa. unfold SF64sqrt, SFsqrt. cbn [SF2R cond_Zopp] in *.
  pose proof (SFsqrt_core_spec ma ea x Hx0 Hx) as H.
  destruct (SFsqrt_core_binary prec emax (Zpos ma) ea) as [[q e'] l].
  destruct H as (Hq & Hin & He). right. now apply bra_rounds.
Qed.

(** ** Primitive floats *)


Lemma SFnonneg_finite f : SFnonneg f -> SFfinite f = true.
Proof. destruct f; simpl; intros; easy. Qed.

Lemma rounded_finite_nonneg x f :
  rounded false x f -> SFfinite f = true -> SFnonneg f.
Proof.
  intros [[_ ->] | (k & E & _ & ->)]; cbn; trivial.
  unfold rnd_result.
  repeat match goal with |- context [if ?c then _ else _] => destruct c end;
    cbn; intros; easy.
Qed.

Lemma SFnonneg_F2R f : SFnonneg f -> (0 <= SF2R f)%R.
Proof.
  destruct f as [| | |s m e]; cbn; intros H; try lra; try easy.
  subst s. cbn. pose proof (SF2R_pos m e). lra.
Qed.

Lemma Fnonneg_F2R x : Fnonneg x -> (0 <= F2R x)%R.
Proof. apply SFnonneg_F2R. Qed.

Lemma SFfinite_pos_nonneg f : SFfinite f = true -> (0 < SF2R f)%R -> SFnonneg f.
Proof.
  destruct f as [s| | |s m e]; cbn [SFfinite SFnonneg]; intros H H0; try easy.
  { cbn in H0. lra. }
  destruct s; trivial. unfold SF2R, cond_Zopp in H0. rewrite opp_IZR in H0.
  pose proof (SF2R_pos m e). lra.
Qed.

Lemma Frounded_self x : Fnonneg x -> Frounded (F2R x) x.
Proof.
  unfold Fnonneg, Frounded, F2R. pose proof (Prim2SF_valid x) as Hv.
  destruct (Prim2SF x) as [s|s| |s m e]; cbn [SFnonneg]; intros H; try easy.
  - left. subst s. split; reflexivity.
  - subst s. now apply rounded_self.
Qed.

Lemma Frounded_mono v w x y :
  Frounded v x -> Frounded w y -> (v <= w)%R -> Fnonneg y ->
  Fnonneg x /\ (F2R x <= F2R y)%R.
Proof.
  intros Hx Hy Hvw Hfy.
  destruct (rounded_mono _ _ _ _ Hx Hy Hvw (SFnonneg_finite _ Hfy)) as [Hf Hle].
  split; trivial. eapply rounded_finite_nonneg; eauto.
Qed.

Lemma Frounded_exact v x n c M :
  Frounded v x -> v = (IZR n * bpow c)%R -> (v < bpow M)%R ->
  fexp64 M <= c -> M <= 1024 ->
  Fnonneg x /\ F2R x = v.
Proof.
  intros Hx Hv HM Hc HM'.
  destruct (rounded_exact _ _ _ _ _ _ Hx Hv HM Hc HM') as [Hf He].
  split; trivial. eapply rounded_finite_nonneg; eauto.
Qed.

Lemma Fmul_rounded a b :
  Fnonneg a -> Fnonneg b -> Frounded (F2R a * F2R b) (a * b).
Proof.
  intros Ha Hb. unfold Frounded. rewrite FloatAxioms.mul_spec.
  apply SFmul_rounded; trivial; apply Prim2SF_valid.
Qed.

Lemma Fsquare_rounded a : Ffinite a -> Frounded (F2R a * F2R a) (a * a).
Proof.
  intros Ha. unfold Frounded. rewrite FloatAxioms.mul_spec.
  apply SFmul_rounded_square; trivial; apply Prim2SF_valid.
Qed.

Lemma Fadd_rounded a b :
  Fnonneg a -> Fnonneg b -> Frounded (F2R a + F2R b) (a + b).
Proof.
  intros Ha Hb. unfold Frounded. rewrite FloatAxioms.add_spec.
  apply SFadd_rounded; trivial; apply Prim2SF_valid.
Qed.

Lemma Fsub_rounded a b :
  Fnonneg a -> Fnonneg b -> (F2R b <= F2R a)%R ->
  Frounded (F2R a - F2R b) (a - b).
Proof.
  intros Ha Hb Hle. unfold Frounded. rewrite FloatAxioms.sub_spec.
  apply SFsub_rounded; trivial; apply Prim2SF_valid.
Qed.

Lemma Fdiv_rounded a b :
  Fnonneg a -> Fnonneg b -> (0 < F2R b)%R ->
  Frounded (F2R a / F2R b) (a / b).
Proof.
  intros Ha Hb Hb0. unfold Frounded. rewrite FloatAxioms.div_spec.
  apply SFdiv_rounded; trivial; try apply Prim2SF_valid.
  unfold F2R in *. field. lra.
Qed.

Lemma Fsqrt_rounded a :
  Fnonneg a -> (0 < F2R a)%R -> Frounded (R_sqrt.sqrt (F2R a)) (PrimFloat.sqrt a).
Proof.
  intros Ha Ha0. unfold Frounded. rewrite FloatAxioms.sqrt_spec.
  apply SFsqrt_rounded; trivial; try apply Prim2SF_valid.
  - apply sqrt_pos.
  - apply sqrt_sqrt. unfold F2R in *. lra.
Qed.
(** ** Classification of finite nonnegative floats *)

Lemma Prim2SF_infinity : Prim2SF infinity = S754_infinity false.
Proof. reflexivity. Qed.

Lemma Prim2SF_zero : Prim2SF zero = S754_zero false.
Proof. reflexivity. Qed.

Lemma SFcompare_refl_finite s m e :
  SFcompare (S754_finite s m e) (S754_finite s m e) = Some Eq.
Proof.
  cbn. rewrite Z.compare_refl.
  change (Pos.compare_cont Eq m m) with (Pos.compare m m).
  rewrite Pos.compare_refl. now destruct s.
Qed.

Lemma Fnonneg_is_infinity x : Fnonneg x -> PrimFloat.is_infinity x = false.
Proof.
  unfold Fnonneg, PrimFloat.is_infinity. rewrite FloatAxioms.eqb_spec, abs_spec, Prim2SF_infinity.
  destruct (Prim2SF x) as [s|s| |s m e]; cbn; intros H; try easy.
Qed.

Lemma Fnonneg_is_nan x : Fnonneg x -> PrimFloat.is_nan x = false.
Proof.
  unfold Fnonneg, PrimFloat.is_nan. rewrite FloatAxioms.eqb_spec.
  destruct (Prim2SF x) as [s|s| |s m e]; cbn [SFnonneg]; intros H; try easy.
  unfold SFeqb. now rewrite SFcompare_refl_finite.
Qed.

Lemma Fnonneg_ltb_zero x : Fnonneg x -> (x <? zero)%float = false.
Proof.
  unfold Fnonneg. rewrite FloatAxioms.ltb_spec, Prim2SF_zero.
  destruct (Prim2SF x) as [s|s| |s m e]; cbn; intros H; try easy.
  now subst s.
Qed.

Lemma Fnonneg_is_zero x :
  Fnonneg x ->
  (PrimFloat.is_zero x = true /\ F2R x = 0%R) \/ (PrimFloat.is_zero x = false /\ (0 < F2R x)%R).
Proof.
  unfold Fnonneg, PrimFloat.is_zero, F2R. rewrite FloatAxioms.eqb_spec, Prim2SF_zero.
  destruct (Prim2SF x) as [s|s| |s m e]; cbn [SFnonneg]; intros H; try easy.
  - left. now cbn.
  - subst s. right. split; [reflexivity | apply SF2R_pos].
Qed.

(** ** Comparisons *)



(** ** Conversions *)

Lemma float_of_Z_small n :
  0 <= n < 2 ^ 63 -> float_of_Z n = PrimFloat.of_uint63 (Uint63.of_Z n).
Proof.
  intros Hn. unfold float_of_Z.
  rewrite <- (SF2Prim_Prim2SF (of_uint63 (of_Z n))).
  rewrite of_uint63_spec, Uint63.of_Z_spec.
  rewrite Z.mod_small by (change Uint63Axioms.wB with (2 ^ 63); lia).
  reflexivity.
Qed.

Lemma float_of_Z_exact n :
  0 <= n < 2 ^ 53 ->
  Fnonneg (float_of_Z n) /\ F2R (float_of_Z n) = IZR n.
Proof.
  intros Hn. rewrite float_of_Z_small by lia. unfold Fnonneg, F2R.
  rewrite of_uint63_spec, Uint63.of_Z_spec.
  rewrite Z.mod_small by (change Uint63Axioms.wB with (2 ^ 63); lia).
  destruct n as [|p|p]; [cbn; auto | | lia].
  cbn [binary_normalize].
  pose proof (binary_round_rounded false p 0) as Hr.
  assert (Hb0 : bpow 0 = 1%R) by reflexivity.
  destruct (rounded_exact false _ _ (Zpos p) 0 53 Hr eq_refl) as [Hf Hv].
  - rewrite Hb0, Rmult_1_r, (bpow_IZR 53) by lia. apply IZR_lt. lia.
  - reflexivity.
  - lia.
  - split.
    + eapply rounded_finite_nonneg; eauto.
    + rewrite Hv, Hb0. ring.
Qed.

Lemma Ffinite_nonneg x : Fnonneg x -> Ffinite x.
Proof. apply SFnonneg_finite. Qed.

(** Subtraction of two nonnegative floats whose difference is
    representable is exact, whatever its sign. *)
Lemma Fsub_exact a b n c M :
  Fnonneg a -> Fnonneg b ->
  (F2R a - F2R b = IZR n * bpow c)%R ->
  (Rabs (F2R a - F2R b) < bpow M)%R -> fexp64 M <= c -> M <= 1024 ->
  Ffinite (a - b) /\ F2R (a - b) = (F2R a - F2R b)%R.
Proof.
  intros Ha Hb Hn HM Hc HM'. unfold Ffinite, F2R. rewrite FloatAxioms.sub_spec.
  pose proof (SFsub_rounded (Prim2SF a) (Prim2SF b) (Prim2SF_valid a)
                (Prim2SF_valid b) Ha Hb) as [H1 H2].
  fold (F2R a) in *. fold (F2R b) in *.
  destruct (Rle_lt_dec (F2R b) (F2R a)) as [Hle|Hlt].
  - specialize (H1 Hle). rewrite Rabs_right in HM by lra.
    apply (rounded_exact false _ _ n c M H1 Hn HM Hc HM').
  - specialize (H2 (Rlt_le _ _ Hlt)). rewrite Rabs_left in HM by lra.
    destruct (rounded_exact true _ _ (- n) c M H2) as [Hf Hv]; trivial.
    + rewrite opp_IZR. lra.
    + lra.
    + split; trivial. rewrite Hv. lra.
Qed.

(** [int] of a finite nonnegative float is the floor of its value. *)
Lemma int_of_float_floor x :
  Fnonneg x ->
  exists k, int_of_float x = Ok k /\ 0 <= k /\ (IZR k <= F2R x < IZR k + 1)%R.
Proof.
  unfold Fnonneg, F2R, int_of_float.
  destruct (Prim2SF x) as [s|s| |s m e]; cbn [SFnonneg]; intros H; try easy.
  - exists 0. cbn. repeat split; try lia; lra.
  - subst s. cbn [SF2R cond_Zopp].
    destruct e as [|p|p].
    + exists (Zpos m). rewrite Z.shiftl_0_r. change (bpow 0) with 1%R.
      repeat split; try lia; lra.
    + exists (Zpos m * 2 ^ Zpos p). rewrite Z.shiftl_mul_pow2 by lia.
      assert (0 < 2 ^ Zpos p) by (apply Z.pow_pos_nonneg; lia).
      rewrite mult_IZR, <- bpow_IZR by lia.
      repeat split; try nia; lra.
    + exists (Zpos m / 2 ^ Zpos p). rewrite Z.shiftr_div_pow2 by lia.
      assert (Hp : 0 < 2 ^ Zpos p) by (apply Z.pow_pos_nonneg; lia).
      pose proof (Z.div_mod (Zpos m) (2 ^ Zpos p) ltac:(lia)) as Hdm.
      pose proof (Z.mod_pos_bound (Zpos m) (2 ^ Zpos p) Hp) as Hmod.
      set (q := Zpos m / 2 ^ Zpos p) in *.
      set (r := Zpos m mod 2 ^ Zpos p) in *.
      assert (Hq : 0 <= q) by (apply Z.div_pos; lia).
      split; [reflexivity|]. split; [exact Hq|].
      assert (Hb : (bpow (Zneg p) * bpow (Zpos p) = 1)%R).
      { rewrite <- bpow_plus. replace (Zneg p + Zpos p) with 0 by lia.
        reflexivity. }
      pose proof (bpow_gt_0 (Zneg p)) as Hbn.
      assert (Hm : (IZR (Zpos m) = IZR q * bpow (Zpos p) + IZR r)%R).
      { rewrite bpow_IZR, <- mult_IZR, <- plus_IZR by lia. f_equal. lia. }
      assert (Hr0 : (0 <= IZR r * bpow (Zneg p))%R).
      { apply Rmult_le_pos; [apply IZR_le; lia | lra]. }
      assert (Hr1 : (IZR r * bpow (Zneg p) < 1)%R).
      { rewrite <- Hb, Rmult_comm. apply Rmult_lt_compat_l; trivial.
        rewrite bpow_IZR by lia. apply IZR_lt. lia. }
      rewrite Hm.
      replace ((IZR q * bpow (Zpos p) + IZR r) * bpow (Zneg p))%R
        with (IZR q * (bpow (Zneg p) * bpow (Zpos p)) + IZR r * bpow (Zneg p))%R
        by ring.
      rewrite Hb. lra.
Qed.

(** ** Bounds by representable numbers *)

Lemma bpow_pos_lit p : bpow (Zpos p) = IZR (2 ^ Zpos p).
Proof. apply bpow_IZR. lia. Qed.

Lemma bpow_neg_lit p : bpow (Zneg p) = (/ IZR (2 ^ Zpos p))%R.
Proof.
  change (Zneg p) with (- Zpos p). unfold bpow. rewrite powerRZ_neg'.
  f_equal. apply bpow_IZR. lia.
Qed.

Lemma bpow_0 : bpow 0 = 1%R.
Proof. reflexivity. Qed.

Ltac bpow_lit :=
  repeat match goal with
  | |- context [bpow (Zpos ?p)] =>
      rewrite (bpow_pos_lit p);
      let v := eval vm_compute in (2 ^ Zpos p) in change (2 ^ Zpos p) with v
  | |- context [bpow (Zneg ?p)] =>
      rewrite (bpow_neg_lit p);
      let v := eval vm_compute in (2 ^ Zpos p) in change (2 ^ Zpos p) with v
  | |- context [bpow 0] => rewrite bpow_0
  | H : context [bpow (Zpos ?p)] |- _ =>
      rewrite (bpow_pos_lit p) in H;
      let v := eval vm_compute in (2 ^ Zpos p) in change (2 ^ Zpos p) with v in H
  | H : context [bpow (Zneg ?p)] |- _ =>
      rewrite (bpow_neg_lit p) in H;
      let v := eval vm_compute in (2 ^ Zpos p) in change (2 ^ Zpos p) with v in H
  | H : context [bpow 0] |- _ => rewrite bpow_0 in H
  end.

Lemma repr_rounded n c M :
  (IZR (Zpos n) * bpow c < bpow M)%R -> fexp64 M <= c -> M <= 1024 ->
  exists g, rounded false (IZR (Zpos n) * bpow c) g /\ SFfinite g = true /\
            SF2R g = (IZR (Zpos n) * bpow c)%R.
Proof.
  intros HM Hc HM'. exists (binary_round prec emax false n c).
  pose proof (binary_round_rounded false n c) as Hr.
  destruct (rounded_exact false _ _ _ c M Hr eq_refl HM Hc HM') as [Hf Hv].
  auto.
Qed.

Lemma Frounded_le_bound v x n c M :
  Frounded v x -> (v <= IZR (Zpos n) * bpow c)%R ->
  (IZR (Zpos n) * bpow c < bpow M)%R -> fexp64 M <= c -> M <= 1024 ->
  Fnonneg x /\ (F2R x <= IZR (Zpos n) * bpow c)%R.
Proof.
  intros Hx Hv HM Hc HM'.
  destruct (repr_rounded n c M HM Hc HM') as (g & Hg & Hf & Hgv).
  destruct (rounded_mono _ _ _ _ Hx Hg Hv Hf) as [Hfx Hle].
  split; [eapply rounded_finite_nonneg; eauto | unfold F2R; lra].
Qed.

Lemma Frounded_ge_bound v x n c M :
  Frounded v x -> Fnonneg x -> (IZR (Zpos n) * bpow c <= v)%R ->
  (IZR (Zpos n) * bpow c < bpow M)%R -> fexp64 M <= c -> M <= 1024 ->
  (IZR (Zpos n) * bpow c <= F2R x)%R.
Proof.
  intros Hx Hfx Hv HM Hc HM'.
  destruct (repr_rounded n c M HM Hc HM') as (g & Hg & Hf & Hgv).
  destruct (rounded_mono _ _ _ _ Hg Hx Hv (SFnonneg_finite _ Hfx)) as [_ Hle].
  unfold F2R. lra.
Qed.

Lemma Fnonneg_zero_eq x : Fnonneg x -> F2R x = 0%R -> x = zero.
Proof.
  unfold Fnonneg, F2R. intros H H0. apply Prim2SF_inj. rewrite Prim2SF_zero.
  destruct (Prim2SF x) as [s|s| |s m e]; cbn [SFnonneg] in H; try easy.
  - now subst.
  - subst s. cbn in H0. pose proof (SF2R_pos m e). lra.
Qed.


(** ** Finite floats of either sign *)

Lemma float_of_int_ok n :
  0 <= n < 2 ^ 53 -> float_of_int n = Ok (float_of_Z n).
Proof.
  intros Hn. unfold float_of_int.
  destruct (float_of_Z_exact n Hn) as [Hf _].
  now rewrite (Fnonneg_is_infinity _ Hf).
Qed.

Lemma Ffinite_is_nan x : Ffinite x -> PrimFloat.is_nan x = false.
Proof.
  unfold Ffinite, PrimFloat.is_nan. rewrite FloatAxioms.eqb_spec.
  destruct (Prim2SF x) as [s|s| |s m e]; cbn [SFfinite]; intros H; try easy.
  unfold SFeqb. now rewrite SFcompare_refl_finite.
Qed.

Lemma Ffinite_is_infinity x : Ffinite x -> PrimFloat.is_infinity x = false.
Proof.
  unfold Ffinite, PrimFloat.is_infinity.
  rewrite FloatAxioms.eqb_spec, abs_spec, Prim2SF_infinity.
  destruct (Prim2SF x) as [s|s| |s m e]; cbn [SFfinite]; intros H; easy.
Qed.

Lemma Ffinite_is_zero x :
  Ffinite x ->
  (PrimFloat.is_zero x = true /\ F2R x = 0%R) \/
  (PrimFloat.is_zero x = false /\ F2R x <> 0%R).
Proof.
  unfold Ffinite, PrimFloat.is_zero, F2R.
  rewrite FloatAxioms.eqb_spec, Prim2SF_zero.
  destruct (Prim2SF x) as [s|s| |s m e]; cbn [SFfinite]; intros H; try easy.
  - left. now destruct s.
  - right. split; [now destruct s|]. cbn [SF2R].
    pose proof (SF2R_pos m e). destruct s; cbn [cond_Zopp].
    + change (Z.opp (Zpos m)) with (- Zpos m). rewrite opp_IZR. lra.
    + lra.
Qed.

Lemma Fabs_spec x :
  Ffinite x ->
  Fnonneg (PrimFloat.abs x) /\ F2R (PrimFloat.abs x) = Rabs (F2R x).
Proof.
  unfold Ffinite, Fnonneg, F2R. rewrite abs_spec.
  destruct (Prim2SF x) as [s|s| |s m e]; cbn [SFfinite]; intros H; try easy.
  - split; [reflexivity|]. cbn. now rewrite Rabs_R0.
  - split; [reflexivity|]. cbn [SFabs SF2R cond_Zopp].
    pose proof (SF2R_pos m e). destruct s; cbn [cond_Zopp].
    + change (Z.opp (Zpos m)) with (- Zpos m). rewrite opp_IZR.
      rewrite Rabs_left by lra. lra.
    + rewrite Rabs_right by lra. reflexivity.
Qed.

Lemma Fnonneg_one : Fnonneg PrimFloat.one /\ F2R PrimFloat.one = 1%R.
Proof.
  split; [reflexivity|]. unfold F2R.
  change (Prim2SF one) with (S754_finite false 4503599627370496 (-52)).
  cbn [SF2R cond_Zopp]. rewrite (bpow_neg_lit 52).
  change (2 ^ 52) with 4503599627370496. field.
Qed.

Lemma Feqb_F2R x y :
  Fnonneg x -> Fnonneg y -> PrimFloat.eqb x y = true -> F2R x = F2R y.
Proof.
  unfold Fnonneg, F2R. rewrite FloatAxioms.eqb_spec.
  destruct (Prim2SF x) as [sx|sx| |sx mx ex]; try easy;
    destruct (Prim2SF y) as [sy|sy| |sy my ey]; try easy;
    cbn [SFnonneg]; intros Hx Hy; subst; try reflexivity; try discriminate.
  unfold SFeqb, SFcompare.
  destruct (Z.compare_spec ex ey) as [He|He|He]; try discriminate.
  subst ey. change (Pos.compare_cont Eq mx my) with (Pos.compare mx my).
  destruct (Pos.compare_spec mx my) as [Hm|Hm|Hm]; try discriminate.
  now subst.
Qed.

(** ** The relative error of one rounding *)

Lemma Frounded_rel v x :
  Frounded v x -> Fnonneg x -> (bpow (-1021) <= v)%R ->
  (Rabs (F2R x - v) <= bpow (-53) * v)%R.
Proof.
  unfold Frounded, Fnonneg, F2R. intros Hr Hx Hv.
  pose proof (bpow_gt_0 (-1021)) as Hp.
  destruct Hr as [[H0 _]|(k & E & Hr & Hf)]; [lra|].
  destruct (rounds_range _ _ _ Hr) as (Hk & _ & _ & _).
  rewrite Hf in Hx |- *.
  rewrite (rnd_result_value false k E Hk (SFnonneg_finite _ Hx)).
  cbn [cond_Zopp].
  destruct Hr as (m & l & Hin & Hkm & Hm & HE & Hn).
  pose proof (inbetween_bounds _ _ _ _ Hin) as [Hlo Hhi].
  pose proof (bpow_gt_0 E) as HbE.
  assert (HE' : -1074 < E).
  { destruct (Z.eq_dec E (-1074)) as [->|]; [exfalso|lia].
    assert (IZR m + 1 <= bpow 53)%R.
    { rewrite (bpow_IZR 53), <- plus_IZR by lia. apply IZR_le. lia. }
    assert (bpow 53 * bpow (-1074) = bpow (-1021))%R
      by (rewrite <- bpow_plus; reflexivity).
    nra. }
  specialize (Hn HE').
  assert (Hm52 : (bpow 52 <= IZR m)%R).
  { rewrite (bpow_IZR 52) by lia. now apply IZR_le. }
  assert (Hhalf : (bpow (-53) * bpow 52 = / 2)%R).
  { rewrite <- bpow_plus. change (-53 + 52) with (-1).
    rewrite (bpow_neg_lit 1). change (2 ^ 1) with 2. reflexivity. }
  assert (Hb : (bpow E / 2 <= bpow (-53) * v)%R).
  { pose proof (bpow_gt_0 (-53)).
    assert (bpow (-53) * (bpow 52 * bpow E) <= bpow (-53) * v)%R.
    { apply Rmult_le_compat_l; [lra|]. nra. }
    nra. }
  assert (Herr : (Rabs (IZR k * bpow E - v) <= bpow E / 2)%R).
  { subst k. destruct l as [|[| |]]; cbn [inbetween round_nearest_even] in *.
    - rewrite Hin. replace (_ - _)%R with 0%R by ring. rewrite Rabs_R0. lra.
    - destruct (Z.even m).
      + apply Rabs_le. rewrite Hin. lra.
      + apply Rabs_le. rewrite Hin, plus_IZR. lra.
    - apply Rabs_le. lra.
    - apply Rabs_le. rewrite plus_IZR. lra. }
  lra.
Qed.

Lemma Frounded_rel_bounds v x :
  Frounded v x -> Fnonneg x -> (bpow (-1021) <= v)%R ->
  ((1 - bpow (-53)) * v <= F2R x <= (1 + bpow (-53)) * v)%R.
Proof.
  intros Hr Hx Hv. pose proof (Frounded_rel v x Hr Hx Hv) as H.
  unfold Rabs in H. destruct (Rcase_abs (F2R x - v)); lra.
Qed.

(** Finite nonnegative floats are determined by their value. *)
Lemma Fnonneg_F2R_inj x y : Fnonneg x -> Fnonneg y -> F2R x = F2R y -> x = y.
Proof.
  unfold Fnonneg, F2R. intros Hx Hy Hxy. apply Prim2SF_inj.
  pose proof (Prim2SF_valid x) as Vx. pose proof (Prim2SF_valid y) as Vy.
  destruct (Prim2SF x) as [sx|sx| |sx mx ex]; try easy;
    destruct (Prim2SF y) as [sy|sy| |sy my ey]; try easy;
    cbn [SFnonneg] in Hx, Hy; subst; trivial.
  - exfalso. cbn in Hxy. pose proof (SF2R_pos my ey). lra.
  - exfalso. cbn in Hxy. pose proof (SF2R_pos mx ex). lra.
  - apply valid_mantissa in Vx, Vy.
    destruct Vx as (Hmx & Hex & Hnx), Vy as (Hmy & Hey & Hny).
    cbn [SF2R cond_Zopp] in Hxy.
    assert (Hlow : forall m e, Zpos m < 2 ^ 53 ->
              (IZR (Zpos m) * bpow e < bpow (53 + e))%R).
    { intros m e Hm. rewrite bpow_plus, (bpow_IZR 53) by lia.
      apply Rmult_lt_compat_r; [apply bpow_gt_0 | apply IZR_lt; lia]. }
    assert (Hhigh : forall m e, 2 ^ 52 <= Zpos m ->
              (bpow (52 + e) <= IZR (Zpos m) * bpow e)%R).
    { intros m e Hm. rewrite bpow_plus, (bpow_IZR 52) by lia.
      now apply IZR_mult_bpow_le. }
    assert (He : ex = ey).
    { destruct (Z.lt_total ex ey) as [Hlt|[Heq|Hgt]]; trivial; exfalso.
      - pose proof (Hlow mx ex Hmx). pose proof (Hhigh my ey (Hny ltac:(lia))).
        pose proof (bpow_le (53 + ex) (52 + ey) ltac:(lia)). lra.
      - pose proof (Hlow my ey Hmy). pose proof (Hhigh mx ex (Hnx ltac:(lia))).
        pose proof (bpow_le (53 + ey) (52 + ex) ltac:(lia)). lra. }
    subst ey. pose proof (bpow_gt_0 ex).
    assert (Hm : IZR (Zpos mx) = IZR (Zpos my)) by nra.
    apply eq_IZR in Hm. now inversion Hm.
Qed.


(** * The gradient under an accurate [pow] *)

Lemma float_of_Z_1 : float_of_Z 1 = PrimFloat.one.
Proof. reflexivity. Qed.

Lemma lit_0_7_eq : PrimFloat.sub (float_of_Z 1) lit_0_3 = lit_0_7.
Proof. reflexivity. Qed.

Lemma Fnonneg_lit_0_3 : Fnonneg lit_0_3.
Proof. reflexivity. Qed.

Lemma F2R_lit_0_3 : F2R lit_0_3 = (IZR 5404319552844595 * bpow (-54))%R.
Proof. reflexivity. Qed.

Lemma Fnonneg_lit_0_7 : Fnonneg lit_0_7.
Proof. reflexivity. Qed.

Lemma F2R_lit_0_7 : F2R lit_0_7 = (IZR 6305039478318694 * bpow (-53))%R.
Proof. reflexivity. Qed.

Lemma Rsqrt_le_bound v b : (0 <= v -> 0 <= b -> v <= b * b -> R_sqrt.sqrt v <= b)%R.
Proof.
  intros Hv Hb H. rewrite <- (sqrt_square b) by trivial.
  now apply sqrt_le_1_alt.
Qed.

Lemma Rsqrt_ge_bound v b : (0 <= b -> b * b <= v -> b <= R_sqrt.sqrt v)%R.
Proof.
  intros Hb H. rewrite <- (sqrt_square b) at 1 by trivial.
  now apply sqrt_le_1_alt.
Qed.

Lemma Rabs_rel e v x :
  (Rabs (x - v) <= e * v -> (1 - e) * v <= x <= (1 + e) * v)%R.
Proof.
  intros H. unfold Rabs in H. destruct (Rcase_abs (x - v)); lra.
Qed.

Lemma normal_of_sixteenth v : (/ 16 <= v -> bpow (-1021) <= v)%R.
Proof.
  intros Hv. pose proof (bpow_le (-1021) (-4) ltac:(lia)) as H.
  rewrite (bpow_neg_lit 4) in H. change (2 ^ 4) with 16 in H. lra.
Qed.

Lemma Rabs_sq a : (Rabs a * Rabs a = a * a)%R.
Proof.
  unfold Rabs. destruct (Rcase_abs a); ring.
Qed.

Lemma center_ok w :
  1 <= w < 2 ^ 32 ->
  int_truediv w 2 = Ok (center w) /\ Fnonneg (center w) /\
  F2R (center w) = (IZR w / 2)%R.
Proof.
  intros Hw. split.
  { unfold int_truediv, center. cbn [Z.eqb].
    destruct (Z.ltb_spec (Z.abs w) (2 ^ 53)); [|lia].
    destruct (Z.ltb_spec (Z.abs 2) (2 ^ 53)); [|lia]. reflexivity. }
  destruct (float_of_Z_exact w ltac:(lia)) as [Hfw Hvw].
  destruct (float_of_Z_exact 2 ltac:(lia)) as [Hf2 Hv2].
  pose proof (Fdiv_rounded _ _ Hfw Hf2 ltac:(rewrite Hv2; lra)) as Hr.
  rewrite Hvw, Hv2 in Hr.
  assert (HW : (1 <= IZR w <= 4294967295)%R).
  { split; apply IZR_le; lia. }
  apply (Frounded_exact _ _ w (-1) 32 Hr).
  - bpow_lit. lra.
  - bpow_lit. lra.
  - rewrite fexp64_eq. lia.
  - lia.
Qed.

(** The offset of a coordinate from the centre is computed exactly; it is
    zero or at least a half, and at most the centre itself. *)
Lemma delta_exact n i :
  1 <= n < 2 ^ 32 -> 0 <= i < n ->
  float_of_int i = Ok (float_of_Z i) /\
  Ffinite (delta n i) /\ F2R (delta n i) = (IZR i - IZR n / 2)%R /\
  (F2R (delta n i) = 0 \/ bpow (-1) <= Rabs (F2R (delta n i)) <= bpow 31)%R.
Proof.
  intros Hn Hi. split; [apply float_of_int_ok; lia|].
  destruct (center_ok n Hn) as (_ & Hc & Hcv).
  destruct (float_of_Z_exact i ltac:(lia)) as [Hfi Hvi].
  assert (HN : (1 <= IZR n <= 4294967295)%R) by (split; apply IZR_le; lia).
  assert (HI : (0 <= IZR i <= IZR n - 1)%R).
  { rewrite <- minus_IZR. split; apply IZR_le; lia. }
  destruct (Fsub_exact (float_of_Z i) (center n) (2 * i - n) (-1) 32)
    as [Hfd Hvd]; trivial.
  - rewrite Hvi, Hcv, minus_IZR, mult_IZR. bpow_lit. lra.
  - rewrite Hvi, Hcv. bpow_lit. apply Rabs_def1; lra.
  - rewrite fexp64_eq. lia.
  - lia.
  - fold (delta n i) in Hfd, Hvd. rewrite Hvi, Hcv in Hvd.
    split; [exact Hfd|]. split; [exact Hvd|]. rewrite Hvd. bpow_lit.
    destruct (Z.eq_dec (2 * i) n) as [He|He].
    + left. apply (f_equal IZR) in He. rewrite mult_IZR in He. lra.
    + right. destruct (Z_lt_le_dec (2 * i) n) as [Hlt|Hge].
      * assert (H1 : (2 * IZR i + 1 <= IZR n)%R).
        { rewrite <- mult_IZR, <- plus_IZR. apply IZR_le. lia. }
        rewrite Rabs_left by lra. lra.
      * assert (H1 : (IZR n + 1 <= 2 * IZR i)%R).
        { rewrite <- mult_IZR, <- plus_IZR. apply IZR_le. lia. }
        rewrite Rabs_right by lra. lra.
Qed.

Lemma in_range n i : In i (range n) <-> 0 <= i < n.
Proof.
  unfold range. rewrite in_map_iff. split.
  - intros (k & <- & Hk). apply in_seq in Hk. lia.
  - intros Hi. exists (Z.to_nat i). split; [lia|]. apply in_seq. lia.
Qed.

Lemma for_each_app {A B : Type} (xs : list A)
    (body : list B -> A -> result (list B)) (f : A -> list B) :
  (forall s x, In x xs -> body s x = Ok (s ++ f x)) ->
  forall s, for_each xs body s = Ok (s ++ flat_map f xs).
Proof.
  induction xs as [|x xs IH]; intros H s; cbn [for_each flat_map].
  - now rewrite app_nil_r.
  - rewrite H by (now left). cbn [bind].
    rewrite IH by (intros; apply H; now right).
    now rewrite app_assoc.
Qed.

Section Gradient.

Variable libm_pow : float -> float -> float.

(** ** What the operations return, when they return *)

Lemma float_pow_2_value x v :
  float_pow_2 libm_pow x = Ok v -> v = pow_2 libm_pow x.
Proof.
  unfold float_pow_2, pow_2.
  destruct (PrimFloat.is_nan x); [congruence|].
  destruct (PrimFloat.is_infinity x); [congruence|].
  destruct (PrimFloat.is_zero x); [congruence|].
  destruct (PrimFloat.eqb (PrimFloat.abs x) one); [congruence|].
  destruct (PrimFloat.is_infinity _); congruence.
Qed.

Lemma float_pow_half_value x v :
  float_pow_half libm_pow x = Ok v -> v = pow_half libm_pow x.
Proof.
  unfold float_pow_half, pow_half.
  destruct (PrimFloat.is_nan x); [congruence|].
  destruct (PrimFloat.is_infinity x); [congruence|].
  destruct (PrimFloat.is_zero x); [congruence|].
  destruct (PrimFloat.ltb x zero); [congruence|].
  destruct (PrimFloat.eqb x one); [congruence|].
  destruct (PrimFloat.is_infinity _); congruence.
Qed.

(** [x ** 2] does not see the sign of [x]. *)
Lemma pow_2_even a b :
  Ffinite a -> Ffinite b -> Rabs (F2R a) = Rabs (F2R b) ->
  pow_2 libm_pow a = pow_2 libm_pow b.
Proof.
  intros Ha Hb Hab. unfold pow_2.
  rewrite (Ffinite_is_nan _ Ha), (Ffinite_is_nan _ Hb).
  rewrite (Ffinite_is_infinity _ Ha), (Ffinite_is_infinity _ Hb).
  destruct (Fabs_spec a Ha) as [Hna Hva]. destruct (Fabs_spec b Hb) as [Hnb Hvb].
  assert (E : PrimFloat.abs a = PrimFloat.abs b).
  { apply Fnonneg_F2R_inj; trivial. congruence. }
  destruct (Ffinite_is_zero a Ha) as [[-> Za]|[-> Za]];
    destruct (Ffinite_is_zero b Hb) as [[-> Zb]|[-> Zb]]; trivial.
  - exfalso. apply (Rabs_no_R0 _ Zb). now rewrite <- Hab, Za, Rabs_R0.
  - exfalso. apply (Rabs_no_R0 _ Za). now rewrite Hab, Zb, Rabs_R0.
  - now rewrite E.
Qed.

Hypothesis pow_ok : pow_accurate libm_pow.

Lemma pow_2_ok d :
  Ffinite d -> (F2R d = 0 \/ bpow (-1) <= Rabs (F2R d) <= bpow 31)%R ->
  float_pow_2 libm_pow d = Ok (pow_2 libm_pow d) /\
  Fnonneg (pow_2 libm_pow d) /\
  (Rabs (F2R (pow_2 libm_pow d) - F2R d * F2R d)
     <= pow_error * (F2R d * F2R d))%R.
Proof.
  intros Hd Hr. unfold float_pow_2, pow_2.
  rewrite (Ffinite_is_nan _ Hd), (Ffinite_is_infinity _ Hd).
  destruct (Ffinite_is_zero d Hd) as [[-> Hz]|[-> Hz]].
  - split; [reflexivity|]. split; [reflexivity|].
    change (F2R zero) with 0%R. rewrite Hz.
    replace (0 - 0 * 0)%R with 0%R by ring. rewrite Rabs_R0. lra.
  - destruct Hr as [Hr|Hr]; [contradiction|].
    destruct (Fabs_spec d Hd) as [Hn Hv]. cbv zeta.
    destruct (PrimFloat.eqb (PrimFloat.abs d) one) eqn:E1.
    + split; [reflexivity|]. destruct Fnonneg_one as [H1 V1].
      split; [exact H1|].
      pose proof (Feqb_F2R _ _ Hn H1 E1) as He. rewrite Hv, V1 in He.
      rewrite <- (Rabs_sq (F2R d)), He, V1.
      replace (1 - 1 * 1)%R with 0%R by ring. rewrite Rabs_R0.
      unfold pow_error. pose proof (bpow_gt_0 (-50)). lra.
    + destruct (proj1 pow_ok (PrimFloat.abs d) Hn ltac:(rewrite Hv; exact Hr))
        as [Hp He].
      rewrite (Fnonneg_is_infinity _ Hp).
      split; [reflexivity|]. split; [exact Hp|].
      rewrite Hv, Rabs_sq in He. exact He.
Qed.

Lemma pow_half_ok s :
  Fnonneg s -> (F2R s = 0 \/ bpow (-3) <= F2R s <= bpow 64)%R ->
  float_pow_half libm_pow s = Ok (pow_half libm_pow s) /\ Fnonneg (pow_half libm_pow s) /\
  (Rabs (F2R (pow_half libm_pow s) - R_sqrt.sqrt (F2R s))
     <= pow_error * R_sqrt.sqrt (F2R s))%R.
Proof.
  intros Hs Hr. unfold float_pow_half, pow_half.
  rewrite (Fnonneg_is_nan _ Hs), (Fnonneg_is_infinity _ Hs).
  destruct (Fnonneg_is_zero s Hs) as [[-> Hz]|[-> Hz]].
  - split; [reflexivity|]. split; [reflexivity|].
    change (F2R zero) with 0%R. rewrite Hz, sqrt_0.
    replace (0 - 0)%R with 0%R by ring. rewrite Rabs_R0. lra.
  - destruct Hr as [Hr|Hr]; [lra|].
    rewrite (Fnonneg_ltb_zero _ Hs).
    destruct (PrimFloat.eqb s one) eqn:E1.
    + split; [reflexivity|]. destruct Fnonneg_one as [H1 V1].
      split; [exact H1|].
      pose proof (Feqb_F2R _ _ Hs H1 E1) as He. rewrite V1 in He.
      rewrite He, V1, sqrt_1.
      replace (1 - 1)%R with 0%R by ring. rewrite Rabs_R0.
      unfold pow_error. pose proof (bpow_gt_0 (-50)). lra.
    + destruct (proj2 pow_ok s Hs Hr) as [Hp He]. cbv zeta.
      rewrite (Fnonneg_is_infinity _ Hp). auto.
Qed.

(** ** The largest distance *)

Lemma sq_center_ok w :
  1 <= w < 2 ^ 32 ->
  float_pow_2 libm_pow (center w) = Ok (pow_2 libm_pow (center w)) /\
  Fnonneg (pow_2 libm_pow (center w)) /\
  ((1 - pow_error) * (IZR w / 2 * (IZR w / 2))
     <= F2R (pow_2 libm_pow (center w))
     <= (1 + pow_error) * (IZR w / 2 * (IZR w / 2)))%R.
Proof.
  intros Hw. destruct (center_ok w Hw) as (_ & Hf & Hv).
  assert (HW : (1 <= IZR w <= 4294967295)%R) by (split; apply IZR_le; lia).
  destruct (pow_2_ok (center w) (Ffinite_nonneg _ Hf)) as (H1 & H2 & H3).
  { right. rewrite Hv, Rabs_right by lra. bpow_lit. lra. }
  rewrite Hv in H3. apply Rabs_rel in H3. auto.
Qed.

Lemma sq_sum_ok w h :
  1 <= w < 2 ^ 32 -> 1 <= h < 2 ^ 32 ->
  Fnonneg (sq_sum libm_pow w h) /\
  ((1 - bpow (-49)) * (IZR w / 2 * (IZR w / 2) + IZR h / 2 * (IZR h / 2))
     <= F2R (sq_sum libm_pow w h)
     <= (1 + bpow (-49)) * (IZR w / 2 * (IZR w / 2) + IZR h / 2 * (IZR h / 2)))%R /\
  (bpow (-3) <= F2R (sq_sum libm_pow w h) <= bpow 64)%R.
Proof.
  intros Hw Hh.
  destruct (sq_center_ok w Hw) as (_ & Hfw & Hbw).
  destruct (sq_center_ok h Hh) as (_ & Hfh & Hbh).
  assert (HW : (1 <= IZR w <= 4294967295)%R) by (split; apply IZR_le; lia).
  assert (HH : (1 <= IZR h <= 4294967295)%R) by (split; apply IZR_le; lia).
  set (a := (IZR w / 2 * (IZR w / 2))%R) in *.
  set (b := (IZR h / 2 * (IZR h / 2))%R) in *.
  assert (Ha : (/ 4 <= a <= 4611686018427387904)%R) by (unfold a; nra).
  assert (Hb : (/ 4 <= b <= 4611686018427387904)%R) by (unfold b; nra).
  unfold pow_error in Hbw, Hbh. bpow_lit.
  pose proof (Fadd_rounded _ _ Hfw Hfh) as Hr. fold (sq_sum libm_pow w h) in Hr.
  destruct (Frounded_le_bound _ _ 1 64 65 Hr) as [Hn Hle].
  { bpow_lit. lra. } { bpow_lit. lra. } { rewrite fexp64_eq; lia. } { lia. }
  split; [exact Hn|].
  pose proof (Frounded_rel_bounds _ _ Hr Hn
                ltac:(apply normal_of_sixteenth; lra)) as Hrel.
  bpow_lit. lra.
Qed.

Lemma max_dist_ok w h :
  1 <= w < 2 ^ 32 -> 1 <= h < 2 ^ 32 ->
  float_pow_half libm_pow (sq_sum libm_pow w h)
    = Ok (max_dist_of libm_pow w h) /\
  Fnonneg (max_dist_of libm_pow w h) /\
  ((1 - pow_error) * R_sqrt.sqrt (F2R (sq_sum libm_pow w h))
     <= F2R (max_dist_of libm_pow w h))%R /\
  (0 < F2R (max_dist_of libm_pow w h))%R.
Proof.
  intros Hw Hh. destruct (sq_sum_ok w h Hw Hh) as (Hn & _ & Hr).
  destruct (pow_half_ok _ Hn (or_intror Hr)) as (H1 & H2 & H3).
  fold (max_dist_of libm_pow w h) in H1, H2, H3.
  apply Rabs_rel in H3.
  assert (Hs : (0 < R_sqrt.sqrt (F2R (sq_sum libm_pow w h)))%R).
  { apply sqrt_lt_R0. pose proof (bpow_gt_0 (-3)). lra. }
  unfold pow_error in *. bpow_lit.
  repeat split; trivial; lra.
Qed.

(** ** One pixel *)

Lemma delta_sq_ok n i :
  1 <= n < 2 ^ 32 -> 0 <= i < n ->
  float_pow_2 libm_pow (delta n i) = Ok (pow_2 libm_pow (delta n i)) /\
  Fnonneg (pow_2 libm_pow (delta n i)) /\
  ((1 - pow_error) * ((IZR i - IZR n / 2) * (IZR i - IZR n / 2))
     <= F2R (pow_2 libm_pow (delta n i))
     <= (1 + pow_error) * ((IZR i - IZR n / 2) * (IZR i - IZR n / 2)))%R /\
  ((IZR i - IZR n / 2) * (IZR i - IZR n / 2) = 0 \/
   / 4 <= (IZR i - IZR n / 2) * (IZR i - IZR n / 2))%R /\
  ((IZR i - IZR n / 2) * (IZR i - IZR n / 2) <= IZR n / 2 * (IZR n / 2))%R.
Proof.
  intros Hn Hi. destruct (delta_exact n i Hn Hi) as (_ & Hf & Hv & Hr).
  destruct (pow_2_ok (delta n i) Hf Hr) as (H1 & H2 & H3).
  rewrite Hv in H3, Hr. apply Rabs_rel in H3.
  assert (HN : (1 <= IZR n <= 4294967295)%R) by (split; apply IZR_le; lia).
  assert (HI : (0 <= IZR i <= IZR n - 1)%R).
  { rewrite <- minus_IZR. split; apply IZR_le; lia. }
  repeat split; trivial; try lra.
  - destruct Hr as [Hr|[Hr _]]; [left; rewrite Hr; ring|right].
    rewrite <- Rabs_sq. bpow_lit.
    pose proof (Rabs_pos (IZR i - IZR n / 2)). nra.
  - nra.
Qed.

Lemma dist_ok w h x y :
  1 <= w < 2 ^ 32 -> 1 <= h < 2 ^ 32 -> 0 <= x < w -> 0 <= y < h ->
  float_pow_half libm_pow
    (PrimFloat.add (pow_2 libm_pow (delta w x)) (pow_2 libm_pow (delta h y)))
    = Ok (dist_at libm_pow w h x y) /\
  Fnonneg (dist_at libm_pow w h x y) /\
  (F2R (dist_at libm_pow w h x y)
     <= (1 + bpow (-41)) * F2R (max_dist_of libm_pow w h))%R.
Proof.
  intros Hw Hh Hx Hy.
  destruct (delta_sq_ok w x Hw Hx) as (_ & Hfx & Hbx & Hzx & Hlx).
  destruct (delta_sq_ok h y Hh Hy) as (_ & Hfy & Hby & Hzy & Hly).
  destruct (sq_sum_ok w h Hw Hh) as (HfS & HbS & HrS).
  destruct (max_dist_ok w h Hw Hh) as (_ & HfM & HbM & HM0).
  assert (HW : (1 <= IZR w <= 4294967295)%R) by (split; apply IZR_le; lia).
  assert (HH : (1 <= IZR h <= 4294967295)%R) by (split; apply IZR_le; lia).
  set (dx2 := ((IZR x - IZR w / 2) * (IZR x - IZR w / 2))%R) in *.
  set (dy2 := ((IZR y - IZR h / 2) * (IZR y - IZR h / 2))%R) in *.
  set (a := (IZR w / 2 * (IZR w / 2))%R) in *.
  set (b := (IZR h / 2 * (IZR h / 2))%R) in *.
  assert (Ha : (/ 4 <= a <= 4611686018427387904)%R) by (unfold a; nra).
  assert (Hb : (/ 4 <= b <= 4611686018427387904)%R) by (unfold b; nra).
  assert (Hdx : (0 <= dx2)%R) by (unfold dx2; apply Rle_0_sqr).
  assert (Hdy : (0 <= dy2)%R) by (unfold dy2; apply Rle_0_sqr).
  set (X := F2R (pow_2 libm_pow (delta w x))) in *.
  set (Y := F2R (pow_2 libm_pow (delta h y))) in *.
  set (S := F2R (sq_sum libm_pow w h)) in *.
  set (M := F2R (max_dist_of libm_pow w h)) in *.
  unfold pow_error in *. bpow_lit.
  pose proof (Fadd_rounded _ _ Hfx Hfy) as Hr. fold X Y in Hr.
  set (sd := PrimFloat.add _ _) in *.
  destruct (Frounded_le_bound _ _ 1 64 65 Hr) as [Hn Hle].
  { bpow_lit. lra. } { bpow_lit. lra. } { rewrite fexp64_eq; lia. } { lia. }
  rewrite Rmult_1_l in Hle.
  unfold dist_at. fold sd.
  assert (Hrange : (F2R sd = 0 \/ bpow (-3) <= F2R sd <= bpow 64)%R).
  { destruct (Fnonneg_is_zero sd Hn) as [[_ H0]|[_ H0]]; [now left|right].
    split; [|exact Hle].
    assert (Hxy : (/ 4 * (1 - / 1125899906842624) <= X + Y)%R).
    { destruct (Rle_lt_dec (X + Y) 0) as [Hneg|Hpos].
      - exfalso. assert (Hz : Fnonneg zero) by reflexivity.
        pose proof (Frounded_self _ Hz) as Hr0. change (F2R zero) with 0%R in Hr0.
        destruct (Frounded_mono _ _ _ _ Hr Hr0 Hneg Hz) as [_ Hc].
        change (F2R zero) with 0%R in Hc. lra.
      - destruct Hzx as [Hzx|Hzx]; destruct Hzy as [Hzy|Hzy]; lra. }
    replace (bpow (-3)) with (IZR (Zpos 1) * bpow (-3))%R by lra.
    apply (Frounded_ge_bound _ _ 1 (-3) (-2) Hr Hn).
    - bpow_lit. lra.
    - bpow_lit. lra.
    - rewrite fexp64_eq; lia.
    - lia. }
  destruct (pow_half_ok sd Hn Hrange) as (H1 & H2 & H3).
  split; [exact H1|]. split; [exact H2|].
  apply Rabs_rel in H3. unfold pow_error in H3. bpow_lit.
  set (D := F2R (pow_half libm_pow sd)) in *.
  destruct Hrange as [H0|[Hlo Hhi]].
  { rewrite H0, sqrt_0 in H3. lra. }
  assert (Hxy0 : (bpow (-3) <= X + Y)%R).
  { destruct (Rle_lt_dec (bpow (-3)) (X + Y)) as [|Hlt]; trivial. exfalso.
    assert (Hc : (F2R sd <= IZR (Zpos 1) * bpow (-4))%R).
    { apply (Frounded_le_bound _ _ 1 (-4) (-3) Hr).
      - bpow_lit. destruct Hzx as [Hzx|Hzx]; destruct Hzy as [Hzy|Hzy]; lra.
      - bpow_lit. lra.
      - rewrite fexp64_eq; lia.
      - lia. }
    bpow_lit. lra. }
  bpow_lit.
  pose proof (Frounded_rel_bounds _ _ Hr Hn
                ltac:(apply normal_of_sixteenth; lra)) as Hrel.
  bpow_lit.
  set (sg := R_sqrt.sqrt S) in *.
  assert (Hsg : (0 < sg)%R).
  { apply sqrt_lt_R0. lra. }
  assert (HsgS : (sg * sg = S)%R) by (apply sqrt_sqrt; lra).
  assert (Hsd : (R_sqrt.sqrt (F2R sd) <= (1 + / 281474976710656) * sg)%R).
  { apply Rsqrt_le_bound; [lra | lra |].
    replace ((1 + / 281474976710656) * sg * ((1 + / 281474976710656) * sg))%R
      with ((1 + / 281474976710656) * (1 + / 281474976710656) * S)%R
      by (rewrite <- HsgS; ring).
    lra. }
  lra.
Qed.

Lemma Rdiv_le_bound a b c : (0 < b -> a <= c * b -> a / b <= c)%R.
Proof.
  intros Hb Hab. unfold Rdiv.
  replace c with (c * b * / b)%R by (field; lra).
  apply Rmult_le_compat_r; trivial. left. now apply Rinv_0_lt_compat.
Qed.

Lemma factor_ok w h x y :
  1 <= w < 2 ^ 32 -> 1 <= h < 2 ^ 32 -> 0 <= x < w -> 0 <= y < h ->
  float_truediv (dist_at libm_pow w h x y) (max_dist_of libm_pow w h)
    = Ok (PrimFloat.div (dist_at libm_pow w h x y)
                        (max_dist_of libm_pow w h)) /\
  Fnonneg (factor_at libm_pow w h x y) /\
  (F2R lit_0_7 - bpow (-42) <= F2R (factor_at libm_pow w h x y) <= 1)%R.
Proof.
  intros Hw Hh Hx Hy.
  destruct (dist_ok w h x y Hw Hh Hx Hy) as (_ & Hfd & Hld).
  destruct (max_dist_ok w h Hw Hh) as (_ & Hfm & _ & Hm0).
  split.
  { unfold float_truediv.
    destruct (Fnonneg_is_zero _ Hfm) as [[_ H0]|[-> _]]; [lra | reflexivity]. }
  pose proof (Fnonneg_F2R _ Hfd) as Hd0.
  pose proof (Fdiv_rounded _ _ Hfd Hfm Hm0) as Hq.
  destruct (Frounded_le_bound _ _ 2199023255553 (-41) 1 Hq) as [Hfq Hlq].
  { apply Rdiv_le_bound; trivial. bpow_lit. lra. }
  { bpow_lit. lra. } { rewrite fexp64_eq; lia. } { lia. }
  pose proof (Fnonneg_F2R _ Hfq) as Hq0.
  pose proof (Fmul_rounded _ _ Hfq Fnonneg_lit_0_3) as Ht.
  destruct (Frounded_le_bound _ _ 5404319552848691 (-54) (-1) Ht) as [Hft Hlt].
  { rewrite F2R_lit_0_3. bpow_lit. lra. }
  { bpow_lit. lra. } { rewrite fexp64_eq; lia. } { lia. }
  pose proof (Fnonneg_F2R _ Hft) as Ht0.
  destruct (float_of_Z_exact 1 ltac:(lia)) as [Hf1 Hv1].
  pose proof (Fsub_rounded _ _ Hf1 Hft ltac:(rewrite Hv1; bpow_lit; lra)) as Hf.
  fold (factor_at libm_pow w h x y) in Hf. rewrite Hv1 in Hf.
  pose proof (Frounded_self _ Hf1) as H1. rewrite Hv1 in H1.
  destruct (Frounded_mono _ _ _ _ Hf H1 ltac:(lra) Hf1) as [Hff Hlf].
  rewrite Hv1 in Hlf.
  split; [exact Hff|]. split; [|exact Hlf].
  pose proof (Frounded_ge_bound _ _ 6305039478316646 (-53) 0 Hf Hff) as Hge.
  rewrite F2R_lit_0_7. bpow_lit.
  specialize (Hge ltac:(bpow_lit; lra) ltac:(bpow_lit; lra)
                  ltac:(rewrite fexp64_eq; lia) ltac:(lia)).
  bpow_lit. lra.
Qed.

Lemma channel_ok c f :
  0 <= c < 2 ^ 53 -> Fnonneg f -> (F2R f <= 1)%R ->
  float_of_int c = Ok (float_of_Z c) /\
  int_of_float (PrimFloat.mul (float_of_Z c) f)
    = Ok (trunc (PrimFloat.mul (float_of_Z c) f)) /\
  0 <= trunc (PrimFloat.mul (float_of_Z c) f) <= c.
Proof.
  intros Hc Hf Hf1. split; [now apply float_of_int_ok|].
  destruct (float_of_Z_exact c Hc) as [Hfc Hvc].
  pose proof (Fnonneg_F2R _ Hf) as Hf0.
  assert (HC : (0 <= IZR c)%R) by (apply IZR_le; lia).
  pose proof (Fmul_rounded _ _ Hfc Hf) as Hr.
  pose proof (Frounded_self _ Hfc) as Hs.
  destruct (Frounded_mono _ _ _ _ Hr Hs ltac:(rewrite Hvc; nra) Hfc) as [Hfp Hlp].
  destruct (int_of_float_floor _ Hfp) as (k & Hk & Hk0 & Hk1 & _).
  unfold trunc. rewrite Hk. split; [reflexivity|]. split; [exact Hk0|].
  apply le_IZR. lra.
Qed.

(** ** The loops *)

Lemma pixel_body_exact w h r g b x y raw :
  1 <= w < 2 ^ 32 -> 1 <= h < 2 ^ 32 ->
  0 <= r < 2 ^ 53 -> 0 <= g < 2 ^ 53 -> 0 <= b < 2 ^ 53 ->
  0 <= x < w -> 0 <= y < h ->
  pixel_body libm_pow (center w) (center h) (max_dist_of libm_pow w h)
    r g b y raw x
    = Ok (raw ++ pixel_rgb libm_pow w h r g b x y).
Proof.
  intros Hw Hh Hr Hg Hb Hx Hy. unfold pixel_body.
  destruct (delta_exact w x Hw Hx) as (-> & _).
  destruct (delta_exact h y Hh Hy) as (-> & _). cbn [bind].
  destruct (delta_sq_ok w x Hw Hx) as (Hdx & _).
  destruct (delta_sq_ok h y Hh Hy) as (Hdy & _).
  destruct (dist_ok w h x y Hw Hh Hx Hy) as (Hd & _).
  destruct (factor_ok w h x y Hw Hh Hx Hy) as (Hq & Hff & _ & Hf1).
  fold (delta w x). fold (delta h y). rewrite Hdx. cbn [bind].
  rewrite Hdy. cbn [bind]. rewrite Hd. cbn [bind]. rewrite Hq. cbn [bind].
  fold (factor_at libm_pow w h x y).
  destruct (channel_ok r _ Hr Hff Hf1) as (Er & Vr & _).
  destruct (channel_ok g _ Hg Hff Hf1) as (Eg & Vg & _).
  destruct (channel_ok b _ Hb Hff Hf1) as (Eb & Vb & _).
  rewrite Er. cbn [bind]. rewrite Vr. cbn [bind].
  rewrite Eg. cbn [bind]. rewrite Vg. cbn [bind].
  rewrite Eb. cbn [bind]. rewrite Vb. cbn [bind].
  unfold pixel_rgb. now rewrite <- !app_assoc.
Qed.

Lemma row_body_exact w h r g b y raw :
  1 <= w < 2 ^ 32 -> 1 <= h < 2 ^ 32 ->
  0 <= r < 2 ^ 53 -> 0 <= g < 2 ^ 53 -> 0 <= b < 2 ^ 53 ->
  0 <= y < h ->
  row_body libm_pow w (center w) (center h) (max_dist_of libm_pow w h)
    r g b raw y
    = Ok (raw ++ scanline libm_pow w h r g b y).
Proof.
  intros Hw Hh Hr Hg Hb Hy. unfold row_body, scanline.
  rewrite for_each_app with (f := fun x => pixel_rgb libm_pow w h r g b x y).
  - now rewrite <- app_assoc.
  - intros s x Hx. apply pixel_body_exact; trivial. now apply in_range.
Qed.

Lemma build_raw_data_exact w h r g b :
  1 <= w < 2 ^ 32 -> 1 <= h < 2 ^ 32 ->
  0 <= r < 2 ^ 53 -> 0 <= g < 2 ^ 53 -> 0 <= b < 2 ^ 53 ->
  build_raw_data libm_pow w h r g b = Ok (reference_grid libm_pow w h r g b).
Proof.
  intros Hw Hh Hr Hg Hb. unfold build_raw_data.
  destruct (center_ok w Hw) as (-> & _). destruct (center_ok h Hh) as (-> & _).
  cbn [bind].
  destruct (sq_center_ok w Hw) as (-> & _).
  destruct (sq_center_ok h Hh) as (-> & _). cbn [bind].
  fold (sq_sum libm_pow w h).
  destruct (max_dist_ok w h Hw Hh) as (-> & _). cbn [bind].
  rewrite for_each_app with (f := scanline libm_pow w h r g b).
  - reflexivity.
  - intros s y Hy. apply row_body_exact; trivial. now apply in_range.
Qed.

Lemma build_raw_data_ok w h r g b :
  valid_input w h r g b ->
  build_raw_data libm_pow w h r g b = Ok (reference_grid libm_pow w h r g b).
Proof.
  intros (Hw & Hh & Hr & Hg & Hb). apply build_raw_data_exact; lia.
Qed.

Lemma pixel_rgb_range w h r g b x y :
  valid_input w h r g b -> 0 <= x < w -> 0 <= y < h ->
  Forall (fun v => 0 <= v <= 255) (pixel_rgb libm_pow w h r g b x y).
Proof.
  intros (Hw & Hh & Hr & Hg & Hb) Hx Hy.
  destruct (factor_ok w h x y Hw Hh Hx Hy) as (_ & Hff & _ & Hf1).
  unfold pixel_rgb.
  pose proof (channel_ok r _ ltac:(lia) Hff Hf1) as (_ & _ & ?).
  pose proof (channel_ok g _ ltac:(lia) Hff Hf1) as (_ & _ & ?).
  pose proof (channel_ok b _ ltac:(lia) Hff Hf1) as (_ & _ & ?).
  repeat constructor; lia.
Qed.

Lemma reference_grid_range w h r g b :
  valid_input w h r g b ->
  Forall (fun v => 0 <= v <= 255) (reference_grid libm_pow w h r g b).
Proof.
  intros Hv. unfold reference_grid. apply Forall_flat_map.
  apply Forall_forall. intros y Hy. apply in_range in Hy.
  unfold scanline. constructor; [lia|]. apply Forall_flat_map.
  apply Forall_forall. intros x Hx. apply in_range in Hx.
  now apply pixel_rgb_range.
Qed.

End Gradient.

(** * What the loops return, whenever they return

    No assumption on [pow] is needed to know which values a run that
    raised nothing has produced. *)

Lemma for_each_inv {A B : Type} (xs : list A)
    (body : list B -> A -> result (list B)) (f : A -> list B) :
  (forall s x s', In x xs -> body s x = Ok s' -> s' = s ++ f x) ->
  forall s s', for_each xs body s = Ok s' -> s' = s ++ flat_map f xs.
Proof.
  induction xs as [|x xs IH]; intros H s s' E; cbn [for_each flat_map] in *.
  - inversion E. now rewrite app_nil_r.
  - destruct (body s x) as [s1|e] eqn:Eb; cbn [bind] in E; [|discriminate].
    apply H in Eb; [|now left]. subst s1.
    apply IH in E; [|intros; eapply H; eauto; now right].
    now rewrite E, app_assoc.
Qed.

Lemma float_of_int_value n f : float_of_int n = Ok f -> f = float_of_Z n.
Proof.
  unfold float_of_int. destruct (PrimFloat.is_infinity _); congruence.
Qed.

Lemma int_of_float_value x v : int_of_float x = Ok v -> v = trunc x.
Proof. intros H. unfold trunc. now rewrite H. Qed.

Lemma float_truediv_value a b q :
  float_truediv a b = Ok q -> q = PrimFloat.div a b.
Proof.
  unfold float_truediv. destruct (PrimFloat.is_zero b); congruence.
Qed.

Lemma int_truediv_value n c :
  Z.abs n < 2 ^ 53 -> int_truediv n 2 = Ok c -> c = center n.
Proof.
  intros Hn. unfold int_truediv, center. cbn [Z.eqb].
  destruct (Z.ltb_spec (Z.abs n) (2 ^ 53)); [|lia].
  destruct (Z.ltb_spec (Z.abs 2) (2 ^ 53)); [|lia].
  cbn [andb]. congruence.
Qed.

Section Inversion.

Variable libm_pow : float -> float -> float.

Lemma pixel_body_inv w h r g b x y raw raw' :
  pixel_body libm_pow (center w) (center h) (max_dist_of libm_pow w h)
    r g b y raw x = Ok raw' ->
  raw' = raw ++ pixel_rgb libm_pow w h r g b x y.
Proof.
  unfold pixel_body. intros H.
  destruct (float_of_int x) as [fx|] eqn:Ex; cbn [bind] in H; [|discriminate].
  apply float_of_int_value in Ex. subst fx. fold (delta w x) in H.
  destruct (float_pow_2 libm_pow (delta w x)) as [dx2|] eqn:Edx;
    cbn [bind] in H; [|discriminate].
  apply float_pow_2_value in Edx. subst dx2.
  destruct (float_of_int y) as [fy|] eqn:Ey; cbn [bind] in H; [|discriminate].
  apply float_of_int_value in Ey. subst fy. fold (delta h y) in H.
  destruct (float_pow_2 libm_pow (delta h y)) as [dy2|] eqn:Edy;
    cbn [bind] in H; [|discriminate].
  apply float_pow_2_value in Edy. subst dy2.
  destruct (float_pow_half libm_pow _) as [dist|] eqn:Ed;
    cbn [bind] in H; [|discriminate].
  apply float_pow_half_value in Ed. fold (dist_at libm_pow w h x y) in Ed.
  subst dist.
  destruct (float_truediv _ _) as [q|] eqn:Eq; cbn [bind] in H; [|discriminate].
  apply float_truediv_value in Eq. subst q.
  fold (factor_at libm_pow w h x y) in H.
  destruct (float_of_int r) as [fr|] eqn:Er; cbn [bind] in H; [|discriminate].
  apply float_of_int_value in Er. subst fr.
  destruct (int_of_float _) as [vr|] eqn:Vr; cbn [bind] in H; [|discriminate].
  apply int_of_float_value in Vr. subst vr.
  destruct (float_of_int g) as [fg|] eqn:Eg; cbn [bind] in H; [|discriminate].
  apply float_of_int_value in Eg. subst fg.
  destruct (int_of_float _) as [vg|] eqn:Vg; cbn [bind] in H; [|discriminate].
  apply int_of_float_value in Vg. subst vg.
  destruct (float_of_int b) as [fb|] eqn:Eb; cbn [bind] in H; [|discriminate].
  apply float_of_int_value in Eb. subst fb.
  destruct (int_of_float _) as [vb|] eqn:Vb; cbn [bind] in H; [|discriminate].
  apply int_of_float_value in Vb. subst vb.
  inversion H. unfold pixel_rgb. now rewrite <- !app_assoc.
Qed.

Lemma row_body_inv w h r g b y raw raw' :
  row_body libm_pow w (center w) (center h) (max_dist_of libm_pow w h)
    r g b raw y = Ok raw' ->
  raw' = raw ++ scanline libm_pow w h r g b y.
Proof.
  unfold row_body, scanline. intros H.
  apply for_each_inv
    with (f := fun x => pixel_rgb libm_pow w h r g b x y) in H.
  - now rewrite H, <- app_assoc.
  - intros s x s' _. apply pixel_body_inv.
Qed.

Lemma build_raw_data_inv w h r g b raw :
  Z.abs w < 2 ^ 53 -> Z.abs h < 2 ^ 53 ->
  build_raw_data libm_pow w h r g b = Ok raw ->
  raw = reference_grid libm_pow w h r g b.
Proof.
  intros Hw Hh. unfold build_raw_data. intros H.
  destruct (int_truediv w 2) as [cx|] eqn:Ecx; cbn [bind] in H; [|discriminate].
  apply int_truediv_value in Ecx; trivial. subst cx.
  destruct (int_truediv h 2) as [cy|] eqn:Ecy; cbn [bind] in H; [|discriminate].
  apply int_truediv_value in Ecy; trivial. subst cy.
  destruct (float_pow_2 libm_pow (center w)) as [cx2|] eqn:E1;
    cbn [bind] in H; [|discriminate].
  apply float_pow_2_value in E1. subst cx2.
  destruct (float_pow_2 libm_pow (center h)) as [cy2|] eqn:E2;
    cbn [bind] in H; [|discriminate].
  apply float_pow_2_value in E2. subst cy2.
  fold (sq_sum libm_pow w h) in H.
  destruct (float_pow_half libm_pow _) as [md|] eqn:E3;
    cbn [bind] in H; [|discriminate].
  apply float_pow_half_value in E3. fold (max_dist_of libm_pow w h) in E3.
  subst md.
  apply for_each_inv with (f := scanline libm_pow w h r g b) in H.
  - exact H.
  - intros s y s' _. apply row_body_inv.
Qed.

End Inversion.

(** * Bytes, packing, CRC and chunks *)

Lemma Z_of_byte_range b : 0 <= Z_of_byte b < 256.
Proof.
  unfold Z_of_byte. pose proof (Byte.to_N_bounded b). lia.
Qed.

Lemma Z_of_byte_of_Z z : Z_of_byte (byte_of_Z z) = z mod 256.
Proof.
  unfold byte_of_Z, Z_of_byte.
  change 255 with (Z.ones 8). rewrite Z.land_ones by lia.
  change (2 ^ 8) with 256.
  pose proof (Z.mod_pos_bound z 256 ltac:(lia)) as Hm.
  destruct (Byte.of_N (Z.to_N (z mod 256))) as [b|] eqn:Hb.
  - apply Byte.to_of_N in Hb. rewrite Hb. lia.
  - apply Byte.of_N_None_iff in Hb. lia.
Qed.

Lemma byte_of_Z_of_byte b : byte_of_Z (Z_of_byte b) = b.
Proof.
  unfold byte_of_Z, Z_of_byte.
  change 255 with (Z.ones 8). rewrite Z.land_ones by lia.
  pose proof (Byte.to_N_bounded b).
  rewrite Z.mod_small by (change (2 ^ 8) with 256; lia).
  rewrite N2Z.id, Byte.of_to_N. reflexivity.
Qed.

Lemma uint32_be_length n : length (uint32_be n) = 4%nat.
Proof. reflexivity. Qed.

(** Big-endian decoding inverts big-endian encoding below 2^32. *)
Lemma uint32_of_be_uint32_be n :
  0 <= n < 2 ^ 32 -> uint32_of_be (uint32_be n) = n.
Proof.
  intros Hn. unfold uint32_of_be, uint32_be. cbn [fold_left].
  rewrite !Z_of_byte_of_Z, !Z.shiftr_div_pow2 by lia.
  change (2 ^ 24) with (256 * 256 * 256). change (2 ^ 16) with (256 * 256).
  change (2 ^ 8) with 256. change (2 ^ 32) with 4294967296 in Hn.
  rewrite <- !Z.div_div by lia.
  set (a1 := n / 256). set (a2 := a1 / 256). set (a3 := a2 / 256).
  pose proof (Z.div_mod n 256 ltac:(lia)) as H0.
  pose proof (Z.div_mod a1 256 ltac:(lia)) as H1.
  pose proof (Z.div_mod a2 256 ltac:(lia)) as H2.
  fold a1 in H0. fold a2 in H1. fold a3 in H2.
  assert (Ha3 : a3 mod 256 = a3).
  { apply Z.mod_small. unfold a3, a2, a1.
    split; [repeat apply Z.div_pos; lia|].
    repeat (apply Z.div_lt_upper_bound; [lia|]). lia. }
  rewrite Ha3. lia.
Qed.

Lemma pack_I_ok n : 0 <= n < 2 ^ 32 -> pack_I n = Ok (uint32_be n).
Proof.
  intros Hn. unfold pack_I.
  destruct (Z.leb_spec 0 n); [|lia]. destruct (Z.ltb_spec n (2 ^ 32)); [|lia].
  reflexivity.
Qed.

Lemma pack_I_inv n bs : pack_I n = Ok bs -> 0 <= n < 2 ^ 32 /\ bs = uint32_be n.
Proof.
  unfold pack_I.
  destruct (Z.leb_spec 0 n); destruct (Z.ltb_spec n (2 ^ 32)); cbn [andb];
    intros Hp; inversion Hp; auto.
Qed.

Lemma pack_I_raise n : ~ 0 <= n < 2 ^ 32 -> pack_I n = Raise StructError.
Proof.
  intros Hn. unfold pack_I.
  destruct (Z.leb_spec 0 n); destruct (Z.ltb_spec n (2 ^ 32)); cbn [andb];
    trivial; lia.
Qed.

(** ** CRC-32 stays within 32 bits *)

Lemma lxor_bound a b n :
  0 <= n -> 0 <= a < 2 ^ n -> 0 <= b < 2 ^ n -> 0 <= Z.lxor a b < 2 ^ n.
Proof.
  intros Hn Ha Hb.
  assert (H0 : 0 <= Z.lxor a b) by (apply Z.lxor_nonneg; lia).
  split; [exact H0|].
  assert (Hp : 0 < 2 ^ n) by (apply Z.pow_pos_nonneg; lia).
  destruct (Z.eq_dec (Z.lxor a b) 0) as [->|Hz]; [lia|].
  assert (0 < Z.lxor a b) by lia.
  assert (0 < n).
  { destruct (Z.eq_dec n 0) as [->|]; [|lia]. exfalso. apply Hz.
    change (2 ^ 0) with 1 in *. assert (a = 0) by lia. assert (b = 0) by lia.
    subst. reflexivity. }
  apply Z.log2_lt_pow2; trivial.
  pose proof (Z.log2_lxor a b ltac:(lia) ltac:(lia)) as Hl.
  assert (Z.log2 a < n).
  { destruct (Z.eq_dec a 0) as [->|]; [simpl; lia|].
    apply Z.log2_lt_pow2; lia. }
  assert (Z.log2 b < n).
  { destruct (Z.eq_dec b 0) as [->|]; [simpl; lia|].
    apply Z.log2_lt_pow2; lia. }
  lia.
Qed.

Lemma crc_shift_range c : 0 <= c < 2 ^ 32 -> 0 <= crc_shift c < 2 ^ 32.
Proof.
  intros Hc. unfold crc_shift.
  assert (Hs : 0 <= Z.shiftr c 1 < 2 ^ 32).
  { rewrite Z.shiftr_div_pow2 by lia. change (2 ^ 1) with 2.
    pose proof (Z.div_pos c 2 ltac:(lia) ltac:(lia)).
    pose proof (Z.div_le_upper_bound c 2 c ltac:(lia) ltac:(lia)). lia. }
  destruct (Z.testbit c 0); trivial.
  apply lxor_bound; trivial; [lia|]. unfold crc_poly.
  change (2 ^ 32) with 4294967296. lia.
Qed.

Lemma crc_update_range c b : 0 <= c < 2 ^ 32 -> 0 <= crc_update c b < 2 ^ 32.
Proof.
  intros Hc. unfold crc_update.
  assert (H0 : 0 <= Z.lxor c (Z_of_byte b) < 2 ^ 32).
  { apply lxor_bound; trivial; [lia|]. pose proof (Z_of_byte_range b).
    change (2 ^ 32) with 4294967296. lia. }
  cbn [Nat.iter]. repeat apply crc_shift_range. exact H0.
Qed.

Lemma fold_crc_range data : forall c,
  0 <= c < 2 ^ 32 -> 0 <= fold_left crc_update data c < 2 ^ 32.
Proof.
  induction data as [|b data IH]; intros c Hc; cbn [fold_left]; trivial.
  apply IH, crc_update_range, Hc.
Qed.

Lemma crc32_range data : 0 <= crc32 data < 2 ^ 32.
Proof.
  unfold crc32. apply lxor_bound; [lia| |].
  - apply fold_crc_range. change (2 ^ 32) with 4294967296. lia.
  - change (2 ^ 32) with 4294967296. lia.
Qed.

Lemma crc32_mask data : Z.land (crc32 data) 0xffffffff = crc32 data.
Proof.
  change 0xffffffff with (Z.ones 32). rewrite Z.land_ones by lia.
  apply Z.mod_small, crc32_range.
Qed.

(** ** png_chunk *)

Lemma png_chunk_ok chunk_type data :
  Z.of_nat (length data) < 2 ^ 32 ->
  png_chunk chunk_type data = Ok (chunk_bytes chunk_type data).
Proof.
  intros Hl. unfold png_chunk, chunk_bytes.
  rewrite pack_I_ok by lia. cbn [bind].
  rewrite crc32_mask, pack_I_ok by apply crc32_range. cbn [bind].
  now rewrite <- app_assoc.
Qed.

Lemma png_chunk_raise chunk_type data :
  2 ^ 32 <= Z.of_nat (length data) ->
  png_chunk chunk_type data = Raise StructError.
Proof.
  intros Hl. unfold png_chunk. rewrite pack_I_raise by lia. reflexivity.
Qed.

Lemma png_chunk_inv chunk_type data c :
  png_chunk chunk_type data = Ok c ->
  Z.of_nat (length data) < 2 ^ 32 /\ c = chunk_bytes chunk_type data.
Proof.
  intros H. destruct (Z_lt_le_dec (Z.of_nat (length data)) (2 ^ 32)) as [Hl|Hl].
  - rewrite png_chunk_ok in H by trivial. inversion H. auto.
  - rewrite png_chunk_raise in H by trivial. discriminate.
Qed.

(** ** Reading chunks back *)

Lemma firstn_app_exact {A : Type} (l1 l2 : list A) n :
  n = length l1 -> firstn n (l1 ++ l2) = l1.
Proof.
  intros ->. rewrite firstn_app, Nat.sub_diag, firstn_all. cbn.
  apply app_nil_r.
Qed.

Lemma skipn_app_exact {A : Type} (l1 l2 : list A) n :
  n = length l1 -> skipn n (l1 ++ l2) = l2.
Proof.
  intros ->. rewrite skipn_app, Nat.sub_diag, skipn_all. reflexivity.
Qed.

Lemma parse_chunk_chunk_bytes chunk_type data rest :
  length chunk_type = 4%nat -> Z.of_nat (length data) < 2 ^ 32 ->
  parse_chunk (chunk_bytes chunk_type data ++ rest)
    = Some (chunk_type, data, rest).
Proof.
  intros Ht Hl. unfold parse_chunk, chunk_bytes.
  set (L := uint32_be (Z.of_nat (length data))).
  set (C := uint32_be (crc32 (chunk_type ++ data))).
  assert (HL : length L = 4%nat) by reflexivity.
  assert (HC : length C = 4%nat) by reflexivity.
  assert (HLv : Z.to_nat (uint32_of_be L) = length data).
  { unfold L. rewrite uint32_of_be_uint32_be by lia. apply Nat2Z.id. }
  assert (HCv : uint32_of_be C = crc32 (chunk_type ++ data)).
  { unfold C. apply uint32_of_be_uint32_be, crc32_range. }
  clearbody L C.
  rewrite <- !app_assoc.
  rewrite (firstn_app_exact L _ 4) by lia. rewrite HLv.
  rewrite (skipn_app_exact L _ 4) by lia.
  rewrite (firstn_app_exact chunk_type _ 4) by lia.
  replace (skipn 8 (L ++ chunk_type ++ data ++ C ++ rest))
    with (data ++ C ++ rest).
  2:{ rewrite (app_assoc L). symmetry. apply skipn_app_exact.
      rewrite length_app. lia. }
  rewrite (firstn_app_exact data _ (length data)) by lia.
  replace (skipn (8 + length data) (L ++ chunk_type ++ data ++ C ++ rest))
    with (C ++ rest).
  2:{ rewrite (app_assoc L), (app_assoc (L ++ chunk_type)). symmetry.
      apply skipn_app_exact. rewrite !length_app. lia. }
  rewrite (firstn_app_exact C _ 4) by lia.
  replace (skipn (12 + length data) (L ++ chunk_type ++ data ++ C ++ rest))
    with rest.
  2:{ rewrite (app_assoc L), (app_assoc (L ++ chunk_type)),
        (app_assoc ((L ++ chunk_type) ++ data)). symmetry.
      apply skipn_app_exact. rewrite !length_app. lia. }
  destruct (Nat.ltb_spec (length (L ++ chunk_type ++ data ++ C ++ rest))
              (12 + length data)) as [Hlt|_].
  { rewrite !length_app in Hlt. lia. }
  now rewrite HCv, Z.eqb_refl.
Qed.

(** ** bytes() *)

Lemma bytes_of_ints_ok l :
  Forall (fun v => 0 <= v <= 255) l ->
  bytes_of_ints l = Ok (map byte_of_Z l).
Proof.
  induction 1 as [|v l Hv _ IH]; cbn [bytes_of_ints map]; trivial.
  destruct (Z.leb_spec 0 v); [|lia]. destruct (Z.ltb_spec v 256); [|lia].
  cbn [andb]. now rewrite IH.
Qed.

Lemma bytes_of_ints_inv l bs :
  bytes_of_ints l = Ok bs ->
  Forall (fun v => 0 <= v <= 255) l /\ bs = map byte_of_Z l.
Proof.
  revert bs. induction l as [|v l IH]; cbn [bytes_of_ints map]; intros bs H.
  - inversion H. auto.
  - destruct (Z.leb_spec 0 v); destruct (Z.ltb_spec v 256); cbn [andb] in H;
      try discriminate.
    destruct (bytes_of_ints l) as [bs'|] eqn:Hl; cbn [bind] in H;
      [|discriminate].
    inversion H. destruct (IH bs' eq_refl) as [HF ->].
    split; [constructor; [lia | exact HF] | reflexivity].
Qed.

(** * The layout of the pixel buffer *)

Lemma length_range n : length (range n) = Z.to_nat n.
Proof. unfold range. now rewrite length_map, length_seq. Qed.

Lemma nth_error_range n i :
  (i < Z.to_nat n)%nat -> nth_error (range n) i = Some (Z.of_nat i).
Proof.
  intros Hi. unfold range. rewrite nth_error_map.
  rewrite nth_error_seq. destruct (Nat.ltb_spec i (Z.to_nat n)); [|lia].
  reflexivity.
Qed.

Lemma flat_map_length_const {A B : Type} (f : A -> list B) k l :
  (forall x, length (f x) = k) -> length (flat_map f l) = (length l * k)%nat.
Proof.
  intros Hk. induction l as [|x l IH]; cbn [flat_map length]; trivial.
  rewrite length_app, Hk, IH. lia.
Qed.

(** The [i]-th block of a concatenation of blocks of equal length. *)
Lemma flat_map_block {A B : Type} (f : A -> list B) k l i x :
  (forall x, length (f x) = k) -> nth_error l i = Some x ->
  firstn k (skipn (i * k) (flat_map f l)) = f x.
Proof.
  intros Hk. revert i. induction l as [|a l IH]; intros i Hi.
  - destruct i; discriminate.
  - destruct i as [|i]; cbn [nth_error] in Hi; cbn [flat_map].
    + inversion Hi; subst a. cbn [Nat.mul skipn].
      apply firstn_app_exact. now rewrite Hk.
    + replace (S i * k)%nat with (i * k + k)%nat by lia.
      rewrite <- skipn_skipn.
      rewrite (skipn_app_exact (f a) _ k) by (now rewrite Hk).
      now apply IH.
Qed.

Lemma flat_map_nth_error {A B : Type} (f : A -> list B) k l i j x :
  (forall x, length (f x) = k) -> nth_error l i = Some x -> (j < k)%nat ->
  nth_error (flat_map f l) (i * k + j) = nth_error (f x) j.
Proof.
  intros Hk Hi Hj.
  rewrite <- (flat_map_block f k l i x Hk Hi).
  rewrite nth_error_firstn. destruct (Nat.ltb_spec j k); [|lia].
  rewrite nth_error_skipn. reflexivity.
Qed.

Section Layout.

Variable libm_pow : float -> float -> float.

Lemma length_pixel_rgb w h r g b x y : length (pixel_rgb libm_pow w h r g b x y) = 3%nat.
Proof. reflexivity. Qed.

Lemma length_scanline w h r g b y :
  length (scanline libm_pow w h r g b y) = S (Z.to_nat w * 3).
Proof.
  unfold scanline. cbn [length]. f_equal.
  rewrite (flat_map_length_const _ 3) by reflexivity. now rewrite length_range.
Qed.

Lemma length_reference_grid w h r g b :
  length (reference_grid libm_pow w h r g b) = (Z.to_nat h * S (Z.to_nat w * 3))%nat.
Proof.
  unfold reference_grid.
  rewrite (flat_map_length_const _ (S (Z.to_nat w * 3))).
  - now rewrite length_range.
  - intros y. apply length_scanline.
Qed.

Lemma length_reference_grid_Z w h r g b :
  0 <= w -> 0 <= h ->
  Z.of_nat (length (reference_grid libm_pow w h r g b)) = h * (1 + w * 3).
Proof. intros Hw Hh. rewrite length_reference_grid. lia. Qed.

(** Row [y] of the buffer is the scanline libm_pow of [y]. *)
Lemma reference_grid_row w h r g b y :
  0 <= w -> 0 <= y < h ->
  firstn (Z.to_nat (1 + w * 3))
    (skipn (Z.to_nat (y * (1 + w * 3))) (reference_grid libm_pow w h r g b))
    = scanline libm_pow w h r g b y.
Proof.
  intros Hw Hy. unfold reference_grid.
  replace (Z.to_nat (1 + w * 3)) with (S (Z.to_nat w * 3)) by lia.
  replace (Z.to_nat (y * (1 + w * 3)))
    with (Z.to_nat y * S (Z.to_nat w * 3))%nat by lia.
  replace (scanline libm_pow w h r g b y) with (scanline libm_pow w h r g b (Z.of_nat (Z.to_nat y)))
    by (f_equal; lia).
  apply flat_map_block.
  - intros. apply length_scanline.
  - apply nth_error_range. lia.
Qed.

(** Channel [c] of pixel [(x, y)] sits at [offset width x y c]. *)
Lemma reference_grid_pixel w h r g b x y c :
  0 <= x < w -> 0 <= y < h -> (c < 3)%nat ->
  nth_error (reference_grid libm_pow w h r g b) (offset w x y (Z.of_nat c))
    = nth_error (pixel_rgb libm_pow w h r g b x y) c.
Proof.
  intros Hx Hy Hc. unfold reference_grid, offset.
  replace (Z.to_nat (y * (1 + w * 3) + 1 + x * 3 + Z.of_nat c))
    with (Z.to_nat y * S (Z.to_nat w * 3) + S (Z.to_nat x * 3 + c))%nat by lia.
  rewrite (flat_map_nth_error _ (S (Z.to_nat w * 3)) _ _ _ (Z.of_nat (Z.to_nat y))).
  - unfold scanline. cbn [nth_error].
    rewrite (flat_map_nth_error _ 3 _ _ _ (Z.of_nat (Z.to_nat x))); trivial.
    + now rewrite !Z2Nat.id by lia.
    + apply nth_error_range. lia.
  - intros. apply length_scanline.
  - apply nth_error_range. lia.
  - lia.
Qed.

Lemma reference_grid_filter w h r g b y :
  0 <= w -> 0 <= y < h ->
  nth_error (reference_grid libm_pow w h r g b) (Z.to_nat (y * (1 + w * 3))) = Some 0.
Proof.
  intros Hw Hy. unfold reference_grid.
  replace (Z.to_nat (y * (1 + w * 3)))
    with (Z.to_nat y * S (Z.to_nat w * 3) + 0)%nat by lia.
  rewrite (flat_map_nth_error _ (S (Z.to_nat w * 3)) _ _ _ (Z.of_nat (Z.to_nat y))).
  - reflexivity.
  - intros. apply length_scanline.
  - apply nth_error_range. lia.
  - lia.
Qed.

End Layout.

(** * create_png as a whole *)

Lemma pack_B_ok n : 0 <= n < 256 -> pack_B n = Ok [byte_of_Z n].
Proof.
  intros Hn. unfold pack_B.
  destruct (Z.leb_spec 0 n); [|lia]. destruct (Z.ltb_spec n 256); [|lia].
  reflexivity.
Qed.

Lemma pack_ihdr_ok w h :
  0 <= w < 2 ^ 32 -> 0 <= h < 2 ^ 32 ->
  pack_IIBBBBB w h 8 2 0 0 0 = Ok (ihdr_payload w h).
Proof.
  intros Hw Hh. unfold pack_IIBBBBB.
  rewrite !pack_I_ok by trivial. reflexivity.
Qed.

Lemma pack_ihdr_inv w h data :
  pack_IIBBBBB w h 8 2 0 0 0 = Ok data ->
  0 <= w < 2 ^ 32 /\ 0 <= h < 2 ^ 32.
Proof.
  unfold pack_IIBBBBB. intros H.
  destruct (pack_I w) as [pw|] eqn:Hpw; [|discriminate].
  destruct (pack_I h) as [ph|] eqn:Hph; [|discriminate].
  apply pack_I_inv in Hpw, Hph. tauto.
Qed.

Lemma length_ihdr_payload w h : length (ihdr_payload w h) = 13%nat.
Proof. reflexivity. Qed.

Section CreatePngFacts.

Variable zlib_compress : list byte -> Z -> list byte.
Variable libm_pow : float -> float -> float.

Lemma create_png_wide w h r g b :
  ~ (0 <= w < 2 ^ 32 /\ 0 <= h < 2 ^ 32) ->
  create_png zlib_compress libm_pow w h r g b = Raise StructError.
Proof.
  intros Hn. unfold create_png, pack_IIBBBBB.
  destruct (Z_lt_le_dec w 0); [rewrite (pack_I_raise w) by lia; reflexivity|].
  destruct (Z_lt_le_dec w (2 ^ 32));
    [|rewrite (pack_I_raise w) by lia; reflexivity].
  rewrite (pack_I_ok w) by lia. cbn [bind].
  rewrite (pack_I_raise h) by lia. reflexivity.
Qed.

(** Whenever [create_png] returns, whatever [pow] is: the sizes fit the
    header, the loops have built the reference buffer, every entry is a
    byte, and the result is the stream around its compression. *)
Lemma create_png_frame w h r g b out :
  create_png zlib_compress libm_pow w h r g b = Ok out ->
  0 <= w < 2 ^ 32 /\ 0 <= h < 2 ^ 32 /\
  build_raw_data libm_pow w h r g b = Ok (reference_grid libm_pow w h r g b) /\
  Forall (fun v => 0 <= v <= 255) (reference_grid libm_pow w h r g b) /\
  Z.of_nat (length (zlib_compress (raw_bytes libm_pow w h r g b) 9)) < 2 ^ 32 /\
  out = png_stream w h (zlib_compress (raw_bytes libm_pow w h r g b) 9).
Proof.
  unfold create_png. intros H.
  destruct (pack_IIBBBBB w h 8 2 0 0 0) as [ihdr_data|e] eqn:Ep;
    cbn [bind] in H; [|discriminate].
  destruct (pack_ihdr_inv _ _ _ Ep) as [Hw Hh].
  rewrite (pack_ihdr_ok w h Hw Hh) in Ep. inversion Ep; subst ihdr_data.
  rewrite png_chunk_ok in H by (rewrite length_ihdr_payload; lia).
  cbn [bind] in H.
  destruct (build_raw_data libm_pow w h r g b) as [raw|e] eqn:Er;
    cbn [bind] in H; [|discriminate].
  apply build_raw_data_inv in Er; [|lia|lia]. subst raw.
  destruct (bytes_of_ints _) as [bs|e] eqn:Eb;
    cbn [bind] in H; [|discriminate].
  destruct (bytes_of_ints_inv _ _ Eb) as [HF ->].
  fold (raw_bytes libm_pow w h r g b) in H.
  destruct (png_chunk (bytes_of_string "IDAT") _) as [idat|e] eqn:Ei;
    cbn [bind] in H; [|discriminate].
  destruct (png_chunk_inv _ _ _ Ei) as [Hl ->].
  rewrite png_chunk_ok in H by (cbn; lia). cbn [bind] in H.
  assert (Hout : png_stream w h (zlib_compress (raw_bytes libm_pow w h r g b) 9)
                 = out) by (unfold png_stream; congruence).
  auto 10.
Qed.

Lemma create_png_inv w h r g b out :
  spec_valid w h r g b ->
  create_png zlib_compress libm_pow w h r g b = Ok out ->
  valid_input w h r g b /\
  Z.of_nat (length (zlib_compress (raw_bytes libm_pow w h r g b) 9)) < 2 ^ 32 /\
  out = png_stream w h (zlib_compress (raw_bytes libm_pow w h r g b) 9).
Proof.
  intros (Hw & Hh & Hc) H.
  destruct (create_png_frame _ _ _ _ _ _ H) as (Hw' & Hh' & _ & _ & Hl & Ho).
  unfold valid_input. repeat split; trivial; lia.
Qed.

Hypothesis pow_ok : pow_accurate libm_pow.

Lemma create_png_ok w h r g b :
  valid_input w h r g b ->
  Z.of_nat (length (zlib_compress (raw_bytes libm_pow w h r g b) 9)) < 2 ^ 32 ->
  create_png zlib_compress libm_pow w h r g b
    = Ok (png_stream w h (zlib_compress (raw_bytes libm_pow w h r g b) 9)).
Proof.
  intros Hv Hl. pose proof Hv as (Hw & Hh & _). unfold create_png.
  rewrite pack_ihdr_ok by lia. cbn [bind].
  rewrite png_chunk_ok by (rewrite length_ihdr_payload; lia). cbn [bind].
  rewrite (build_raw_data_ok libm_pow pow_ok) by trivial. cbn [bind].
  rewrite bytes_of_ints_ok by (now apply reference_grid_range). cbn [bind].
  fold (raw_bytes libm_pow w h r g b).
  rewrite png_chunk_ok by trivial. cbn [bind].
  rewrite png_chunk_ok by (cbn; lia). reflexivity.
Qed.


End CreatePngFacts.

(** What a reader finds in the stream. *)
Lemma parse_png_stream w h compressed :
  Z.of_nat (length compressed) < 2 ^ 32 ->
  parse_png (png_stream w h compressed)
    = Some [(bytes_of_string "IHDR", ihdr_payload w h);
            (bytes_of_string "IDAT", compressed);
            (bytes_of_string "IEND", [])].
Proof.
  intros Hl. unfold parse_png, png_stream.
  rewrite (firstn_app_exact signature _ 8) by reflexivity.
  destruct (list_eq_dec Byte.byte_eq_dec signature signature) as [_|Hne];
    [|now elim Hne].
  rewrite (skipn_app_exact signature _ 8) by reflexivity.
  set (c1 := chunk_bytes (bytes_of_string "IHDR") (ihdr_payload w h)).
  set (c2 := chunk_bytes (bytes_of_string "IDAT") compressed).
  set (c3 := chunk_bytes (bytes_of_string "IEND") []).
  assert (H1 : parse_chunk (c1 ++ c2 ++ c3)
               = Some (bytes_of_string "IHDR", ihdr_payload w h, c2 ++ c3)).
  { apply parse_chunk_chunk_bytes; [reflexivity|].
    rewrite length_ihdr_payload. lia. }
  assert (H2 : parse_chunk (c2 ++ c3)
               = Some (bytes_of_string "IDAT", compressed, c3)).
  { apply parse_chunk_chunk_bytes; [reflexivity | exact Hl]. }
  assert (H3 : parse_chunk c3 = Some (bytes_of_string "IEND", [], [])).
  { rewrite <- (app_nil_r c3).
    apply parse_chunk_chunk_bytes; [reflexivity | cbn; lia]. }
  assert (Hc1 : exists x l, c1 ++ c2 ++ c3 = x :: l) by (now eexists _, _).
  assert (Hc2 : exists x l, c2 ++ c3 = x :: l) by (now eexists _, _).
  assert (Hc3 : exists x l, c3 = x :: l) by (now eexists _, _).
  assert (Hlen : (3 <= length (signature ++ c1 ++ c2 ++ c3))%nat)
    by (rewrite length_app; change (length signature) with 8%nat; lia).
  destruct (length (signature ++ c1 ++ c2 ++ c3)) as [|[|[|fuel]]]; try lia.
  clearbody c1 c2 c3.
  destruct Hc1 as (x1 & l1 & E1). cbn [parse_chunks]. rewrite E1, <- E1, H1.
  destruct Hc2 as (x2 & l2 & E2). cbn [parse_chunks]. rewrite E2, <- E2, H2.
  destruct Hc3 as (x3 & l3 & E3). cbn [parse_chunks]. rewrite E3, <- E3, H3.
  destruct fuel; reflexivity.
Qed.

Lemma parse_ihdr_payload w h :
  0 <= w < 2 ^ 32 -> 0 <= h < 2 ^ 32 ->
  parse_ihdr (ihdr_payload w h) = Some (w, h, 8, 2).
Proof.
  intros Hw Hh.
  change (parse_ihdr (ihdr_payload w h))
    with (Some (uint32_of_be (uint32_be w), uint32_of_be (uint32_be h),
                Z_of_byte x08, Z_of_byte x02)).
  rewrite !uint32_of_be_uint32_be by trivial. reflexivity.
Qed.

(** * The corner and the centre *)

Section Special.

Variable libm_pow : float -> float -> float.

(** At pixel (0, 0) the distance is the largest distance: the two are
    the same calls of [pow] on the same arguments. *)
Lemma corner_dist w h :
  1 <= w < 2 ^ 32 -> 1 <= h < 2 ^ 32 ->
  dist_at libm_pow w h 0 0 = max_dist_of libm_pow w h.
Proof.
  intros Hw Hh.
  assert (Hsq : forall n, 1 <= n < 2 ^ 32 ->
            pow_2 libm_pow (delta n 0) = pow_2 libm_pow (center n)).
  { intros n Hn. destruct (center_ok n Hn) as (_ & Hc & Hv).
    destruct (delta_exact n 0 Hn ltac:(lia)) as (_ & Hd & Hdv & _).
    apply pow_2_even; trivial; [now apply Ffinite_nonneg|].
    rewrite Hdv, Hv. replace (0 - IZR n / 2)%R with (- (IZR n / 2))%R by ring.
    apply Rabs_Ropp. }
  unfold dist_at, max_dist_of, sq_sum. now rewrite !Hsq.
Qed.

(** With even dimensions, pixel (w/2, h/2) is at distance 0. *)
Lemma centre_delta n :
  1 <= n < 2 ^ 32 -> Z.even n = true ->
  pow_2 libm_pow (delta n (n / 2)) = zero.
Proof.
  intros Hn He.
  assert (H2 : n = 2 * (n / 2)).
  { pose proof (Zeven_div2 n (proj1 (Zeven_bool_iff n) He)) as Hd.
    rewrite Z.div2_div in Hd. exact Hd. }
  destruct (delta_exact n (n / 2) Hn ltac:(lia)) as (_ & Hf & Hv & _).
  assert (H0 : F2R (delta n (n / 2)) = 0%R).
  { rewrite Hv. rewrite H2 at 2. rewrite mult_IZR. lra. }
  unfold pow_2. rewrite (Ffinite_is_nan _ Hf), (Ffinite_is_infinity _ Hf).
  destruct (Ffinite_is_zero _ Hf) as [[-> _]|[_ Hne]]; [reflexivity|].
  contradiction.
Qed.

Lemma centre_dist w h :
  1 <= w < 2 ^ 32 -> 1 <= h < 2 ^ 32 -> Z.even w = true -> Z.even h = true ->
  dist_at libm_pow w h (w / 2) (h / 2) = zero.
Proof.
  intros Hw Hh Ew Eh. unfold dist_at.
  rewrite !centre_delta by trivial. reflexivity.
Qed.

Hypothesis pow_ok : pow_accurate libm_pow.

Lemma corner_factor w h :
  1 <= w < 2 ^ 32 -> 1 <= h < 2 ^ 32 -> factor_at libm_pow w h 0 0 = lit_0_7.
Proof.
  intros Hw Hh. unfold factor_at. rewrite corner_dist by trivial.
  destruct (max_dist_ok libm_pow pow_ok w h Hw Hh) as (_ & Hfm & _ & Hm0).
  pose proof (Fdiv_rounded _ _ Hfm Hfm Hm0) as Hq.
  replace (F2R (max_dist_of libm_pow w h) / F2R (max_dist_of libm_pow w h))%R
    with 1%R in Hq by (field; lra).
  destruct (Frounded_exact _ _ 1 0 1 Hq) as [Hfq Hvq].
  { rewrite bpow_0. lra. } { bpow_lit. lra. } { rewrite fexp64_eq; lia. } { lia. }
  destruct Fnonneg_one as [Hf1 Hv1].
  rewrite (Fnonneg_F2R_inj _ PrimFloat.one Hfq Hf1) by lra.
  reflexivity.
Qed.

Lemma centre_factor w h :
  1 <= w < 2 ^ 32 -> 1 <= h < 2 ^ 32 -> Z.even w = true -> Z.even h = true ->
  factor_at libm_pow w h (w / 2) (h / 2) = float_of_Z 1.
Proof.
  intros Hw Hh Ew Eh. unfold factor_at. rewrite centre_dist by trivial.
  destruct (max_dist_ok libm_pow pow_ok w h Hw Hh) as (_ & Hfm & _ & Hm0).
  assert (Hz : Fnonneg zero) by reflexivity.
  pose proof (Fdiv_rounded _ _ Hz Hfm Hm0) as Hq.
  change (F2R zero) with 0%R in Hq.
  destruct (Frounded_exact _ _ 0 0 0 Hq) as [Hfq Hvq].
  { unfold Rdiv. lra. } { unfold Rdiv. rewrite bpow_0. lra. }
  { rewrite fexp64_eq; lia. } { lia. }
  rewrite (Fnonneg_zero_eq _ Hfq) by (rewrite Hvq; unfold Rdiv; lra).
  reflexivity.
Qed.

End Special.

(** Multiplying a colour component by 1.0 and truncating gives it back. *)
Lemma trunc_mul_one c :
  0 <= c < 2 ^ 53 ->
  trunc (PrimFloat.mul (float_of_Z c) (float_of_Z 1)) = c.
Proof.
  intros Hc. destruct (float_of_Z_exact c Hc) as [Hfc Hvc].
  destruct (float_of_Z_exact 1 ltac:(lia)) as [Hf1 Hv1].
  pose proof (Fmul_rounded _ _ Hfc Hf1) as Hr. rewrite Hvc, Hv1 in Hr.
  destruct (Frounded_exact _ _ c 0 53 Hr) as [Hfp Hvp].
  { rewrite bpow_0. lra. }
  { rewrite Rmult_1_r, (bpow_IZR 53) by lia. apply IZR_lt. lia. }
  { rewrite fexp64_eq; lia. } { lia. }
  destruct (int_of_float_floor _ Hfp) as (k & Hk & Hk0 & Hk1 & Hk2).
  unfold trunc. rewrite Hk. rewrite Hvp, Rmult_1_r in Hk1, Hk2.
  apply le_IZR in Hk1. rewrite <- plus_IZR in Hk2. apply lt_IZR in Hk2. lia.
Qed.

(** * The shape of the gradient *)

Lemma trunc_mono a b :
  Fnonneg a -> Fnonneg b -> (F2R a <= F2R b)%R -> trunc a <= trunc b.
Proof.
  intros Ha Hb Hab.
  destruct (int_of_float_floor _ Ha) as (ka & Eka & _ & Hka1 & Hka2).
  destruct (int_of_float_floor _ Hb) as (kb & Ekb & _ & Hkb1 & Hkb2).
  unfold trunc. rewrite Eka, Ekb.
  assert (H : (IZR ka < IZR (kb + 1))%R) by (rewrite plus_IZR; lra).
  apply lt_IZR in H. lia.
Qed.

(** A channel keeps its place among the channels of a pixel. *)
Lemma channel_mono_colour c1 c2 f :
  0 <= c1 <= c2 -> c2 < 2 ^ 53 -> Fnonneg f -> (F2R f <= 1)%R ->
  trunc (PrimFloat.mul (float_of_Z c1) f)
    <= trunc (PrimFloat.mul (float_of_Z c2) f).
Proof.
  intros Hc Hc2 Hf Hf1.
  destruct (float_of_Z_exact c1 ltac:(lia)) as [Hfc1 Hvc1].
  destruct (float_of_Z_exact c2 ltac:(lia)) as [Hfc2 Hvc2].
  assert (HC1 : (0 <= IZR c1)%R) by (apply IZR_le; lia).
  assert (HC : (IZR c1 <= IZR c2)%R) by (apply IZR_le; lia).
  pose proof (Fnonneg_F2R _ Hf) as Hf0.
  pose proof (Fmul_rounded _ _ Hfc1 Hf) as Hr1.
  pose proof (Fmul_rounded _ _ Hfc2 Hf) as Hr2.
  pose proof (Frounded_self _ Hfc2) as Hs.
  destruct (Frounded_mono _ _ _ _ Hr2 Hs ltac:(rewrite Hvc2; nra) Hfc2) as [Hp2 _].
  destruct (Frounded_mono _ _ _ _ Hr1 Hr2 ltac:(rewrite Hvc1, Hvc2; nra) Hp2)
    as [Hp1 Hp].
  now apply trunc_mono.
Qed.


Section Symmetry.

Variable libm_pow : float -> float -> float.

(** Two pixels equally far from the midpoint along each axis get the same
    factor: [pow] is called on the same arguments. *)
Lemma factor_symmetric w h x1 y1 x2 y2 :
  1 <= w < 2 ^ 32 -> 1 <= h < 2 ^ 32 ->
  0 <= x1 < w -> 0 <= y1 < h -> 0 <= x2 < w -> 0 <= y2 < h ->
  Z.abs (2 * x1 - w) = Z.abs (2 * x2 - w) ->
  Z.abs (2 * y1 - h) = Z.abs (2 * y2 - h) ->
  factor_at libm_pow w h x1 y1 = factor_at libm_pow w h x2 y2.
Proof.
  intros Hw Hh Hx1 Hy1 Hx2 Hy2 Hx Hy.
  assert (Hsq : forall n i j, 1 <= n < 2 ^ 32 -> 0 <= i < n -> 0 <= j < n ->
            Z.abs (2 * i - n) = Z.abs (2 * j - n) ->
            pow_2 libm_pow (delta n i) = pow_2 libm_pow (delta n j)).
  { intros n i j Hn Hi Hj Hij.
    destruct (delta_exact n i Hn Hi) as (_ & Hfi & Hvi & _).
    destruct (delta_exact n j Hn Hj) as (_ & Hfj & Hvj & _).
    apply pow_2_even; trivial. rewrite Hvi, Hvj.
    apply (f_equal IZR) in Hij. rewrite !abs_IZR in Hij.
    rewrite !minus_IZR, !mult_IZR in Hij.
    replace (IZR i - IZR n / 2)%R with ((2 * IZR i - IZR n) / 2)%R by field.
    replace (IZR j - IZR n / 2)%R with ((2 * IZR j - IZR n) / 2)%R by field.
    unfold Rdiv. rewrite !Rabs_mult. now rewrite Hij. }
  unfold factor_at, dist_at.
  now rewrite (Hsq w x1 x2), (Hsq h y1 y2).
Qed.

End Symmetry.

(** A factor below 1 by 2^-38 takes at least one off a byte. *)
Lemma channel_below c f :
  1 <= c <= 255 -> Fnonneg f -> (F2R f <= 1 - bpow (-38))%R ->
  trunc (PrimFloat.mul (float_of_Z c) f) < c.
Proof.
  intros Hc Hf Hup.
  destruct (float_of_Z_exact c ltac:(lia)) as [Hfc Hvc].
  pose proof (Fmul_rounded _ _ Hfc Hf) as Hr. rewrite Hvc in Hr.
  pose proof (Fnonneg_F2R _ Hf) as Hf0.
  assert (HC : (1 <= IZR c <= 255)%R) by (split; apply IZR_le; lia).
  set (n := c * (2 ^ 38 - 1)).
  assert (Hn : 0 < n) by (unfold n; lia).
  assert (Hnv : (IZR (Zpos (Z.to_pos n)) * bpow (-38)
                 = IZR c * (1 - bpow (-38)))%R).
  { rewrite Z2Pos.id by trivial. unfold n. rewrite mult_IZR, minus_IZR.
    change (2 ^ 38) with 274877906944. bpow_lit. field. }
  destruct (Frounded_le_bound _ _ (Z.to_pos n) (-38) 8 Hr) as [Hp Hle].
  - rewrite Hnv. apply Rmult_le_compat_l; lra.
  - rewrite Hnv. bpow_lit. lra.
  - rewrite fexp64_eq. lia.
  - lia.
  - rewrite Hnv in Hle. bpow_lit.
    destruct (int_of_float_floor _ Hp) as (v & Ev & _ & Hv1 & _).
    unfold trunc. rewrite Ev. apply lt_IZR. lra.
Qed.

Section Darker.

Variable libm_pow : float -> float -> float.
Hypothesis pow_ok : pow_accurate libm_pow.

(** Away from the midpoint the squared distance is at least an eighth. *)
Lemma dist_sum_floor w h x y :
  1 <= w < 2 ^ 32 -> 1 <= h < 2 ^ 32 -> 0 <= x < w -> 0 <= y < h ->
  2 * x <> w \/ 2 * y <> h ->
  Fnonneg (PrimFloat.add (pow_2 libm_pow (delta w x))
                         (pow_2 libm_pow (delta h y))) /\
  (/ 8 <= F2R (PrimFloat.add (pow_2 libm_pow (delta w x))
                             (pow_2 libm_pow (delta h y)))
      <= bpow 64)%R.
Proof.
  intros Hw Hh Hx Hy Hoff.
  destruct (delta_sq_ok libm_pow pow_ok w x Hw Hx) as (_ & Hfx & Hbx & Hzx & Hlx).
  destruct (delta_sq_ok libm_pow pow_ok h y Hh Hy) as (_ & Hfy & Hby & Hzy & Hly).
  assert (HW : (1 <= IZR w <= 4294967295)%R) by (split; apply IZR_le; lia).
  assert (HH : (1 <= IZR h <= 4294967295)%R) by (split; apply IZR_le; lia).
  assert (Hnz : ((IZR x - IZR w / 2) * (IZR x - IZR w / 2) <> 0 \/
                 (IZR y - IZR h / 2) * (IZR y - IZR h / 2) <> 0)%R).
  { destruct Hoff as [Hne|Hne]; [left|right]; intros H0;
      apply Rmult_integral in H0; apply Hne; apply eq_IZR;
      rewrite mult_IZR; destruct H0; lra. }
  set (dx2 := ((IZR x - IZR w / 2) * (IZR x - IZR w / 2))%R) in *.
  set (dy2 := ((IZR y - IZR h / 2) * (IZR y - IZR h / 2))%R) in *.
  set (a := (IZR w / 2 * (IZR w / 2))%R) in *.
  set (b := (IZR h / 2 * (IZR h / 2))%R) in *.
  assert (Ha : (/ 4 <= a <= 4611686018427387904)%R) by (unfold a; nra).
  assert (Hb : (/ 4 <= b <= 4611686018427387904)%R) by (unfold b; nra).
  assert (Hdx : (0 <= dx2)%R) by (unfold dx2; apply Rle_0_sqr).
  assert (Hdy : (0 <= dy2)%R) by (unfold dy2; apply Rle_0_sqr).
  unfold pow_error in *. bpow_lit.
  pose proof (Fadd_rounded _ _ Hfx Hfy) as Hr.
  destruct (Frounded_le_bound _ _ 1 64 65 Hr) as [Hn Hle].
  { bpow_lit. lra. } { bpow_lit. lra. } { rewrite fexp64_eq; lia. } { lia. }
  split; [exact Hn|]. split; [|bpow_lit; lra].
  replace (/ 8)%R with (IZR (Zpos 1) * bpow (-3))%R by (bpow_lit; lra).
  apply (Frounded_ge_bound _ _ 1 (-3) (-2) Hr Hn).
  - bpow_lit.
    destruct Hzx as [Hzx|Hzx]; destruct Hzy as [Hzy|Hzy];
      destruct Hnz as [Hnz|Hnz]; try contradiction; lra.
  - bpow_lit. lra.
  - rewrite fexp64_eq; lia.
  - lia.
Qed.

(** Away from the midpoint the factor stays below 1. *)
Lemma factor_off_centre w h x y :
  1 <= w < 2 ^ 32 -> 1 <= h < 2 ^ 32 -> 0 <= x < w -> 0 <= y < h ->
  2 * x <> w \/ 2 * y <> h ->
  (F2R (factor_at libm_pow w h x y) <= 1 - bpow (-38))%R.
Proof.
  intros Hw Hh Hx Hy Hoff.
  destruct (dist_sum_floor w h x y Hw Hh Hx Hy Hoff) as (Hn & Hlo & Hhi).
  destruct (pow_half_ok libm_pow pow_ok _ Hn) as (_ & HfD & HbD).
  { right. bpow_lit. lra. }
  fold (dist_at libm_pow w h x y) in HfD, HbD.
  destruct (sq_sum_ok libm_pow pow_ok w h Hw Hh) as (HfS & _ & HrS).
  destruct (pow_half_ok libm_pow pow_ok _ HfS (or_intror HrS))
    as (_ & HfM & HbM).
  fold (max_dist_of libm_pow w h) in HfM, HbM.
  destruct (max_dist_ok libm_pow pow_ok w h Hw Hh) as (_ & _ & _ & HM0).
  apply Rabs_rel in HbD, HbM. unfold pow_error in *. bpow_lit.
  set (sd := F2R (PrimFloat.add _ _)) in *.
  set (S := F2R (sq_sum libm_pow w h)) in *.
  set (D := F2R (dist_at libm_pow w h x y)) in *.
  set (M := F2R (max_dist_of libm_pow w h)) in *.
  assert (Hsd : (/ 4 <= R_sqrt.sqrt sd)%R) by (apply Rsqrt_ge_bound; lra).
  assert (HsS : (R_sqrt.sqrt S <= 4294967296)%R)
    by (apply Rsqrt_le_bound; lra).
  assert (HsS0 : (0 <= R_sqrt.sqrt S)%R) by apply sqrt_pos.
  assert (HD : (/ 8 <= D)%R) by lra.
  assert (HM : (M <= 8589934592)%R) by lra.
  pose proof (Fdiv_rounded _ _ HfD HfM HM0) as Hq. fold D M in Hq.
  destruct (factor_ok libm_pow pow_ok w h x y Hw Hh Hx Hy) as (_ & Hff & _).
  assert (Hfq : Fnonneg (PrimFloat.div (dist_at libm_pow w h x y)
                                       (max_dist_of libm_pow w h))).
  { destruct (dist_ok libm_pow pow_ok w h x y Hw Hh Hx Hy) as (_ & _ & Hld).
    fold D M in Hld.
    apply (Frounded_le_bound _ _ 2199023255553 (-41) 1 Hq).
    - apply Rdiv_le_bound; trivial. bpow_lit. lra.
    - bpow_lit. lra.
    - rewrite fexp64_eq; lia.
    - lia. }
  assert (Hql : (IZR (Zpos 1) * bpow (-36)
                 <= F2R (PrimFloat.div (dist_at libm_pow w h x y)
                                       (max_dist_of libm_pow w h)))%R).
  { apply (Frounded_ge_bound _ _ 1 (-36) (-35) Hq Hfq).
    - bpow_lit. unfold Rdiv.
      assert (Hinv : (/ 8589934592 <= / M)%R)
        by (apply Rinv_le_contravar; lra).
      assert (0 < / M)%R by (apply Rinv_0_lt_compat; lra).
      nra.
    - bpow_lit. lra.
    - rewrite fexp64_eq; lia.
    - lia. }
  set (q := PrimFloat.div _ _) in *.
  pose proof (Fmul_rounded _ _ Hfq Fnonneg_lit_0_3) as Ht.
  assert (Hqu : (F2R q <= 2)%R).
  { destruct (dist_ok libm_pow pow_ok w h x y Hw Hh Hx Hy) as (_ & _ & Hld).
    fold D M in Hld.
    pose proof (Frounded_le_bound _ _ 2199023255553 (-41) 1 Hq) as Hb.
    destruct Hb as [_ Hb].
    - apply Rdiv_le_bound; trivial. bpow_lit. lra.
    - bpow_lit. lra.
    - rewrite fexp64_eq; lia.
    - lia.
    - bpow_lit. lra. }
  destruct (Frounded_le_bound _ _ 1 0 1 Ht) as [Hft _].
  { rewrite F2R_lit_0_3. bpow_lit. lra. }
  { bpow_lit. lra. } { rewrite fexp64_eq; lia. } { lia. }
  assert (Htl : (IZR (Zpos 1) * bpow (-38) <= F2R (PrimFloat.mul q lit_0_3))%R).
  { apply (Frounded_ge_bound _ _ 1 (-38) (-37) Ht Hft).
    - rewrite F2R_lit_0_3. bpow_lit. lra.
    - bpow_lit. lra.
    - rewrite fexp64_eq; lia.
    - lia. }
  assert (Htu : (F2R (PrimFloat.mul q lit_0_3) <= 1)%R).
  { pose proof (Frounded_le_bound _ _ 1 0 1 Ht) as Hb. destruct Hb as [_ Hb].
    - rewrite F2R_lit_0_3. bpow_lit. lra.
    - bpow_lit. lra.
    - rewrite fexp64_eq; lia.
    - lia.
    - bpow_lit. lra. }
  destruct (float_of_Z_exact 1 ltac:(lia)) as [Hf1 Hv1].
  pose proof (Fsub_rounded _ _ Hf1 Hft ltac:(rewrite Hv1; exact Htu)) as Hf.
  rewrite Hv1 in Hf.
  change (PrimFloat.sub (float_of_Z 1) (PrimFloat.mul q lit_0_3))
    with (factor_at libm_pow w h x y) in Hf.
  pose proof (Frounded_le_bound _ _ 274877906943 (-38) 0 Hf) as Hb.
  destruct Hb as [_ Hb].
  - bpow_lit. lra.
  - bpow_lit. lra.
  - rewrite fexp64_eq; lia.
  - lia.
  - bpow_lit. lra.
Qed.

End Darker.

(** * Edge cases of the inputs *)

Lemma int_truediv_small n :
  Z.abs n < 2 ^ 53 -> int_truediv n 2 = Ok (center n).
Proof.
  intros Hn. unfold int_truediv, center. cbn [Z.eqb].
  destruct (Z.ltb_spec (Z.abs n) (2 ^ 53)); [|lia].
  destruct (Z.ltb_spec (Z.abs 2) (2 ^ 53)); [|lia]. reflexivity.
Qed.

Lemma flat_map_singleton {A B : Type} (v : B) (l : list A) :
  flat_map (fun _ => [v]) l = repeat v (length l).
Proof. induction l as [|a l IH]; cbn; [reflexivity | now rewrite IH]. Qed.

Lemma bytes_of_ints_zeros n : bytes_of_ints (repeat 0 n) = Ok (repeat x00 n).
Proof.
  induction n as [|n IH]; cbn [repeat bytes_of_ints]; [reflexivity|].
  rewrite IH. reflexivity.
Qed.

Lemma bytes_of_ints_raise l i v :
  nth_error l i = Some v -> ~ 0 <= v <= 255 ->
  bytes_of_ints l = Raise ValueError.
Proof.
  revert i. induction l as [|u l IH]; intros [|i] Hi Hv; cbn in Hi; try easy.
  - inversion Hi; subst u. cbn [bytes_of_ints].
    destruct (Z.leb_spec 0 v); destruct (Z.ltb_spec v 256); cbn [andb];
      trivial; lia.
  - cbn [bytes_of_ints].
    destruct ((0 <=? u) && (u <? 256))%bool; [|reflexivity].
    now rewrite (IH i Hi Hv).
Qed.

Lemma even_half_range n : 1 <= n -> Z.even n = true -> 0 <= n / 2 < n.
Proof.
  intros Hn He. apply Z.even_spec in He. destruct He as [k ->].
  rewrite Z.mul_comm, Z.div_mul by lia. lia.
Qed.


Section Edges.

Variable libm_pow : float -> float -> float.
Hypothesis pow_ok : pow_accurate libm_pow.

Lemma sq_center_any n :
  0 <= n < 2 ^ 32 ->
  float_pow_2 libm_pow (center n) = Ok (pow_2 libm_pow (center n)) /\
  Fnonneg (pow_2 libm_pow (center n)) /\
  (F2R (pow_2 libm_pow (center n)) = 0 \/
   / 8 <= F2R (pow_2 libm_pow (center n)))%R /\
  (F2R (pow_2 libm_pow (center n)) <= 9223372036854775808)%R.
Proof.
  intros Hn. destruct (Z.eq_dec n 0) as [->|Hne].
  - split; [reflexivity|]. split; [reflexivity|].
    change (F2R (pow_2 libm_pow (center 0))) with 0%R. split; [now left | lra].
  - destruct (sq_center_ok libm_pow pow_ok n ltac:(lia)) as (H1 & H2 & H3).
    assert (HN : (1 <= IZR n <= 4294967295)%R) by (split; apply IZR_le; lia).
    set (a := (IZR n / 2 * (IZR n / 2))%R) in *.
    assert (Ha : (/ 4 <= a <= 4611686018427387904)%R) by (unfold a; nra).
    unfold pow_error in H3. bpow_lit.
    repeat split; trivial; [right|]; lra.
Qed.

(** [max_dist] is computed without an error for every size the header can
    hold, zero included. *)
Lemma max_dist_any w h :
  0 <= w < 2 ^ 32 -> 0 <= h < 2 ^ 32 ->
  float_pow_half libm_pow (sq_sum libm_pow w h)
    = Ok (max_dist_of libm_pow w h).
Proof.
  intros Hw Hh.
  destruct (sq_center_any w Hw) as (_ & Hfw & Hzw & Hbw).
  destruct (sq_center_any h Hh) as (_ & Hfh & Hzh & Hbh).
  pose proof (Fadd_rounded _ _ Hfw Hfh) as Hr.
  fold (sq_sum libm_pow w h) in Hr.
  pose proof (Fnonneg_F2R _ Hfw) as Hpw. pose proof (Fnonneg_F2R _ Hfh) as Hph.
  destruct (Frounded_le_bound _ _ 1 64 65 Hr) as [Hn Hle].
  { bpow_lit. lra. } { bpow_lit. lra. } { rewrite fexp64_eq; lia. } { lia. }
  rewrite Rmult_1_l in Hle.
  apply (pow_half_ok libm_pow pow_ok); trivial.
  destruct (Fnonneg_is_zero _ Hn) as [[_ H0]|[_ H0]]; [now left|right].
  split; [|exact Hle].
  assert (Hsum : (/ 8 <= F2R (pow_2 libm_pow (center w))
                        + F2R (pow_2 libm_pow (center h)))%R).
  { destruct Hzw as [Hzw|Hzw]; destruct Hzh as [Hzh|Hzh]; try lra.
    exfalso. assert (Hz : Fnonneg zero) by reflexivity.
    pose proof (Frounded_self _ Hz) as Hr0. change (F2R zero) with 0%R in Hr0.
    destruct (Frounded_mono _ _ _ _ Hr Hr0 ltac:(lra) Hz) as [_ Hc].
    change (F2R zero) with 0%R in Hc. lra. }
  replace (bpow (-3)) with (IZR (Zpos 1) * bpow (-3))%R by lra.
  apply (Frounded_ge_bound _ _ 1 (-3) (-2) Hr Hn).
  - bpow_lit. lra.
  - bpow_lit. lra.
  - rewrite fexp64_eq; lia.
  - lia.
Qed.

(** With no column or no row the loops never reach the pixel
    computation. *)
Lemma build_raw_data_degenerate w h r g b :
  0 <= w < 2 ^ 32 -> 0 <= h < 2 ^ 32 -> w = 0 \/ h = 0 ->
  build_raw_data libm_pow w h r g b = Ok (repeat 0 (Z.to_nat h)).
Proof.
  intros Hw Hh Hz. unfold build_raw_data.
  rewrite !int_truediv_small by lia. cbn [bind].
  destruct (sq_center_any w Hw) as (-> & _).
  destruct (sq_center_any h Hh) as (-> & _). cbn [bind].
  fold (sq_sum libm_pow w h). rewrite max_dist_any by trivial. cbn [bind].
  rewrite for_each_app with (f := fun _ => [0]).
  - cbn [app]. now rewrite flat_map_singleton, length_range.
  - intros s y Hy. apply in_range in Hy.
    destruct Hz as [-> | ->]; [reflexivity | lia].
Qed.

(** The midpoint pixel of an even-sized image carries the colour as
    given, whatever its range. *)
Lemma pixel_rgb_midpoint w h r g b :
  1 <= w < 2 ^ 32 -> 1 <= h < 2 ^ 32 -> Z.even w = true -> Z.even h = true ->
  0 <= r < 2 ^ 53 -> 0 <= g < 2 ^ 53 -> 0 <= b < 2 ^ 53 ->
  pixel_rgb libm_pow w h r g b (w / 2) (h / 2) = [r; g; b].
Proof.
  intros Hw Hh Ew Eh Hr Hg Hb. unfold pixel_rgb.
  rewrite (centre_factor libm_pow pow_ok) by trivial.
  now rewrite !trunc_mul_one.
Qed.

End Edges.

(** * A library function that meets the contract *)

(** Rounding correctly is more than the contract asks. *)
Lemma ideal_pow_accurate : pow_accurate ideal_pow.
Proof.
  split.
  - intros x Hx [Hlo Hhi].
    change (ideal_pow x PrimFloat.two) with (PrimFloat.mul x x).
    pose proof (Fmul_rounded _ _ Hx Hx) as Hr.
    unfold pow_error. bpow_lit.
    destruct (Frounded_le_bound _ _ 1 62 63 Hr) as [Hn _].
    { bpow_lit. nra. } { bpow_lit. lra. } { rewrite fexp64_eq; lia. } { lia. }
    split; [exact Hn|].
    pose proof (Frounded_rel _ _ Hr Hn ltac:(apply normal_of_sixteenth; nra))
      as He.
    bpow_lit. eapply Rle_trans; [exact He|]. nra.
  - intros x Hx [Hlo Hhi].
    change (ideal_pow x lit_0_5) with (PrimFloat.sqrt x).
    pose proof (bpow_gt_0 (-3)) as H3.
    pose proof (Fsqrt_rounded _ Hx ltac:(lra)) as Hr.
    unfold pow_error. bpow_lit.
    assert (Hs1 : (/ 4 <= R_sqrt.sqrt (F2R x))%R)
      by (apply Rsqrt_ge_bound; lra).
    assert (Hs2 : (R_sqrt.sqrt (F2R x) <= 4294967296)%R)
      by (apply Rsqrt_le_bound; lra).
    destruct (Frounded_le_bound _ _ 1 32 33 Hr) as [Hn _].
    { bpow_lit. lra. } { bpow_lit. lra. } { rewrite fexp64_eq; lia. } { lia. }
    split; [exact Hn|].
    pose proof (Frounded_rel _ _ Hr Hn ltac:(apply normal_of_sixteenth; lra))
      as He.
    bpow_lit. eapply Rle_trans; [exact He|]. lra.
Qed.

(** * The specification's claims *)

Example crc32_check :
  crc32 (bytes_of_string "123456789") = 0xCBF43926.
Proof. vm_compute. reflexivity. Qed.

Example iend_chunk :
  png_chunk (bytes_of_string "IEND") [] =
  Ok [x00; x00; x00; x00; x49; x45; x4e; x44; xae; x42; x60; x82].
Proof. vm_compute. reflexivity. Qed.

Example raw_2x2 :
  build_raw_data ideal_pow 2 2 99 102 241 =
  Ok [0; 69; 71; 168; 77; 80; 189;
      0; 77; 80; 189; 99; 102; 241].
Proof. vm_compute. reflexivity. Qed.

Lemma valid_input_2x2 : valid_input 2 2 99 102 241.
Proof. unfold valid_input. lia. Qed.

Lemma spec_valid_of_valid w h r g b :
  valid_input w h r g b -> spec_valid w h r g b.
Proof. unfold valid_input, spec_valid. tauto. Qed.


Section PixelClaims.

Variable libm_pow : float -> float -> float.

(** What is assumed of the C library's [pow]: see [pow_accurate]. *)
Hypothesis pow_ok : pow_accurate libm_pow.

Lemma pixel_rgb_nth w h r g b x y :
  valid_input w h r g b -> 0 <= x < w -> 0 <= y < h ->
  let factor := factor_at libm_pow w h x y in
  exists vr vg vb,
    pixel_rgb libm_pow w h r g b x y = [vr; vg; vb] /\
    int_of_float (PrimFloat.mul (float_of_Z r) factor) = Ok vr /\
    int_of_float (PrimFloat.mul (float_of_Z g) factor) = Ok vg /\
    int_of_float (PrimFloat.mul (float_of_Z b) factor) = Ok vb /\
    0 <= vr <= r /\ 0 <= vg <= g /\ 0 <= vb <= b.
Proof.
  intros (Hw & Hh & Hr & Hg & Hb) Hx Hy factor.
  destruct (factor_ok libm_pow pow_ok w h x y Hw Hh Hx Hy) as (_ & Hff & _ & Hf1).
  fold factor in Hff, Hf1.
  destruct (channel_ok r _ ltac:(lia) Hff Hf1) as (_ & Er & Rr).
  destruct (channel_ok g _ ltac:(lia) Hff Hf1) as (_ & Eg & Rg).
  destruct (channel_ok b _ ltac:(lia) Hff Hf1) as (_ & Eb & Rb).
  eexists _, _, _. split; [reflexivity|]. auto 10.
Qed.


(** C5: for every valid input the uncompressed pixel buffer has exactly
    height * (1 + width*3) entries, as has the byte string made of it, and
    for every row y the entry at offset y * (1 + width*3) is the filter
    marker 0, followed by the width RGB triplets of that row. *)
Theorem pixel_buffer_layout w h r g b :
  valid_input w h r g b ->
  exists raw bs,
    build_raw_data libm_pow w h r g b = Ok raw /\
    bytes_of_ints raw = Ok bs /\
    Z.of_nat (length raw) = h * (1 + w * 3) /\
    Z.of_nat (length bs) = h * (1 + w * 3) /\
    forall y, 0 <= y < h ->
      nth_error raw (Z.to_nat (y * (1 + w * 3))) = Some 0 /\
      exists triplets,
        firstn (Z.to_nat (1 + w * 3))
          (skipn (Z.to_nat (y * (1 + w * 3))) raw) = 0 :: triplets /\
        triplets
          = flat_map (fun x => pixel_rgb libm_pow w h r g b x y) (range w) /\
        Z.of_nat (length triplets) = w * 3.
Proof.
  intros Hv. pose proof Hv as (Hw & Hh & _).
  exists (reference_grid libm_pow w h r g b),
    (map byte_of_Z (reference_grid libm_pow w h r g b)).
  split; [now apply build_raw_data_ok|].
  split; [apply bytes_of_ints_ok; now apply reference_grid_range|].
  split; [apply length_reference_grid_Z; lia|].
  split; [rewrite length_map; apply length_reference_grid_Z; lia|].
  intros y Hy. split; [apply reference_grid_filter; lia|].
  eexists. split; [apply reference_grid_row; lia|].
  split; [reflexivity|].
  rewrite (flat_map_length_const _ 3) by reflexivity. rewrite length_range. lia.
Qed.

(** C9: for every valid input the corner pixel (0, 0) is at the largest
    distance, so its factor is 0.7 and its emitted colour is the truncation
    of the floating-point products r*0.7, g*0.7, b*0.7; for
    create_png(2, 2, 99, 102, 241) that is (69, 71, 168). *)
Theorem corner_pixel w h r g b :
  valid_input w h r g b ->
  dist_at libm_pow w h 0 0 = max_dist_of libm_pow w h /\
  factor_at libm_pow w h 0 0 = lit_0_7 /\
  (exists raw vr vg vb,
     build_raw_data libm_pow w h r g b = Ok raw /\
     int_of_float (PrimFloat.mul (float_of_Z r) lit_0_7) = Ok vr /\
     int_of_float (PrimFloat.mul (float_of_Z g) lit_0_7) = Ok vg /\
     int_of_float (PrimFloat.mul (float_of_Z b) lit_0_7) = Ok vb /\
     nth_error raw 1 = Some vr /\ nth_error raw 2 = Some vg /\
     nth_error raw 3 = Some vb) /\
  pixel_rgb libm_pow 2 2 99 102 241 0 0 = [69; 71; 168].
Proof.
  intros Hv. pose proof Hv as (Hw & Hh & _).
  split; [now apply corner_dist|]. split; [now apply corner_factor|].
  split.
  - destruct (pixel_rgb_nth w h r g b 0 0 Hv ltac:(lia) ltac:(lia))
      as (vr & vg & vb & Hp & Er & Eg & Eb & _).
    rewrite (corner_factor libm_pow pow_ok) in Er, Eg, Eb by trivial.
    pose proof (reference_grid_pixel libm_pow w h r g b 0 0 0 ltac:(lia)
                  ltac:(lia) ltac:(lia)) as H0.
    pose proof (reference_grid_pixel libm_pow w h r g b 0 0 1 ltac:(lia)
                  ltac:(lia) ltac:(lia)) as H1.
    pose proof (reference_grid_pixel libm_pow w h r g b 0 0 2 ltac:(lia)
                  ltac:(lia) ltac:(lia)) as H2.
    rewrite Hp in H0, H1, H2.
    exists (reference_grid libm_pow w h r g b), vr, vg, vb.
    split; [now apply build_raw_data_ok|]. repeat split; trivial.
  - unfold pixel_rgb.
    rewrite (corner_factor libm_pow pow_ok) by lia. reflexivity.
Qed.


(** With an odd width or height every pixel is off the midpoint, and a
    channel of base value 1 to 255 comes out strictly smaller. *)
Lemma off_centre_channel w h r g b x y c :
  valid_input w h r g b -> 0 <= x < w -> 0 <= y < h ->
  2 * x <> w \/ 2 * y <> h -> 1 <= c <= 255 ->
  trunc (PrimFloat.mul (float_of_Z c) (factor_at libm_pow w h x y)) < c.
Proof.
  intros (Hw & Hh & _) Hx Hy Hoff Hc.
  destruct (factor_ok libm_pow pow_ok w h x y Hw Hh Hx Hy) as (_ & Hff & _).
  apply channel_below; trivial.
  now apply (factor_off_centre libm_pow pow_ok).
Qed.

End PixelClaims.


Lemma pixel_buffer_layout_witness :
  valid_input 2 2 99 102 241 /\
  exists raw bs,
    build_raw_data ideal_pow 2 2 99 102 241 = Ok raw /\
    bytes_of_ints raw = Ok bs /\
    Z.of_nat (length raw) = 2 * (1 + 2 * 3) /\
    Z.of_nat (length bs) = 2 * (1 + 2 * 3) /\
    forall y, 0 <= y < 2 ->
      nth_error raw (Z.to_nat (y * (1 + 2 * 3))) = Some 0 /\
      exists triplets,
        firstn (Z.to_nat (1 + 2 * 3))
          (skipn (Z.to_nat (y * (1 + 2 * 3))) raw) = 0 :: triplets /\
        triplets
          = flat_map (fun x => pixel_rgb ideal_pow 2 2 99 102 241 x y)
              (range 2) /\
        Z.of_nat (length triplets) = 2 * 3.
Proof.
  split; [exact valid_input_2x2|].
  exact (pixel_buffer_layout ideal_pow ideal_pow_accurate 2 2 99 102 241
           valid_input_2x2).
Defined.

Lemma corner_pixel_witness :
  valid_input 2 2 99 102 241 /\ factor_at ideal_pow 2 2 0 0 = lit_0_7.
Proof.
  split; [exact valid_input_2x2|].
  exact (proj1 (proj2 (corner_pixel ideal_pow ideal_pow_accurate
                         2 2 99 102 241 valid_input_2x2))).
Defined.



(** C3: for every type tag and every data payload that a 32-bit length can
    describe, the serialized chunk is uint32_be(len(data)) + type + data +
    uint32_be(crc32(type + data)): the length field counts the data bytes
    only, the CRC covers type and data and not the length, and masking the
    CRC with 0xffffffff changes nothing.  A longer payload makes
    [struct.pack] raise. *)
Theorem png_chunk_layout chunk_type data :
  png_chunk chunk_type data =
    (if Z.of_nat (length data) <? 2 ^ 32
     then Ok (uint32_be (Z.of_nat (length data)) ++ chunk_type ++ data
                ++ uint32_be (crc32 (chunk_type ++ data)))
     else Raise StructError) /\
  Z.land (crc32 (chunk_type ++ data)) 0xffffffff = crc32 (chunk_type ++ data) /\
  uint32_of_be (uint32_be (crc32 (chunk_type ++ data)))
    = crc32 (chunk_type ++ data).
Proof.
  split; [|split].
  - destruct (Z.ltb_spec (Z.of_nat (length data)) (2 ^ 32)).
    + now apply png_chunk_ok.
    + now apply png_chunk_raise.
  - apply crc32_mask.
  - apply uint32_of_be_uint32_be, crc32_range.
Qed.

Section Claims.

Variable zlib_compress : list byte -> Z -> list byte.
Variable libm_pow : float -> float -> float.


(** C4: for every valid input the IHDR payload is 13 bytes: width and height
    as big-endian uint32, bit depth 8, colour type 2, then compression,
    filter and interlace methods 0; read back, it reports the width and
    height passed in, bit depth 8 and colour type 2. *)
Theorem ihdr_fields w h r g b out :
  spec_valid w h r g b ->
  create_png zlib_compress libm_pow w h r g b = Ok out ->
  exists data rest,
    parse_png out = Some ((bytes_of_string "IHDR", data) :: rest) /\
    data = uint32_be w ++ uint32_be h ++ [x08; x02; x00; x00; x00] /\
    length data = 13%nat /\
    parse_ihdr data = Some (w, h, 8, 2).
Proof.
  intros Hs Hc. destruct (create_png_inv _ _ _ _ _ _ _ _ Hs Hc) as (Hv & Hl & ->).
  pose proof Hv as (Hw & Hh & _).
  eexists _, _. split; [now apply parse_png_stream|].
  split; [reflexivity|]. split; [reflexivity|].
  apply parse_ihdr_payload; lia.
Qed.

Hypothesis pow_ok : pow_accurate libm_pow.


End Claims.

Lemma store_length libm_pow w h r g b :
  0 <= w < 2 ^ 32 -> 0 <= h < 2 ^ 32 ->
  h * (1 + w * 3) < 2 ^ 32 ->
  Z.of_nat (length (store (raw_bytes libm_pow w h r g b) 9)) < 2 ^ 32.
Proof.
  intros Hw Hh Hl. unfold store, raw_bytes.
  rewrite length_map, length_reference_grid_Z; lia.
Qed.

Lemma create_png_store_2x2 :
  create_png store ideal_pow 2 2 99 102 241
    = Ok (png_stream 2 2 (store (raw_bytes ideal_pow 2 2 99 102 241) 9)).
Proof.
  apply (create_png_ok store ideal_pow ideal_pow_accurate);
    [exact valid_input_2x2 | apply store_length; lia].
Qed.

Lemma spec_valid_2x2 : spec_valid 2 2 99 102 241.
Proof. unfold spec_valid. lia. Qed.


Lemma ihdr_fields_witness :
  spec_valid 2 2 99 102 241 /\
  exists out data rest,
    create_png store ideal_pow 2 2 99 102 241 = Ok out /\
    parse_png out = Some ((bytes_of_string "IHDR", data) :: rest) /\
    length data = 13%nat /\
    parse_ihdr data = Some (2, 2, 8, 2).
Proof.
  split; [exact spec_valid_2x2|].
  destruct (ihdr_fields store ideal_pow 2 2 99 102 241 _ spec_valid_2x2
              create_png_store_2x2) as (d & rest & H1 & _ & H2 & H3).
  eexists _, d, rest. split; [exact create_png_store_2x2|]. auto.
Defined.



Section RoundTrip.

Variable zlib_compress : list byte -> Z -> list byte.
Variable zlib_decompress : list byte -> list byte.
Variable libm_pow : float -> float -> float.

(** What zlib promises: decompression undoes compression. *)
Hypothesis zlib_round_trip :
  forall data, zlib_decompress (zlib_compress data 9) = data.


End RoundTrip.


Lemma valid_icon n : In n [192; 512; 180] -> valid_input n n 99 102 241.
Proof.
  unfold valid_input. intros [<-|[<-|[<-|[]]]]; lia.
Qed.

Section DriverClaims.

Variable zlib_compress : list byte -> Z -> list byte.
Variable libm_pow : float -> float -> float.
Variable writable : string -> bool.

Hypothesis pow_ok : pow_accurate libm_pow.

(** C10: running the program performs exactly three file writes, in order:
    pwa-192x192.png with create_png(192, 192, 99, 102, 241), pwa-512x512.png
    with create_png(512, 512, 99, 102, 241) and apple-touch-icon.png with
    create_png(180, 180, 99, 102, 241), all under the public directory and
    all of base colour (99, 102, 241), each followed by its message. *)
Theorem main_writes_three_icons script_dir :
  (forall n, In n [192; 512; 180] ->
     Z.of_nat (length (zlib_compress (raw_bytes libm_pow n n 99 102 241) 9))
       < 2 ^ 32) ->
  (forall name,
     In name ["pwa-192x192.png"; "pwa-512x512.png"; "apple-touch-icon.png"]%string ->
     writable (icon_path script_dir name) = true) ->
  exists png_192 png_512 png_180,
    create_png zlib_compress libm_pow 192 192 99 102 241 = Ok png_192 /\
    create_png zlib_compress libm_pow 512 512 99 102 241 = Ok png_512 /\
    create_png zlib_compress libm_pow 180 180 99 102 241 = Ok png_180 /\
    main zlib_compress libm_pow writable script_dir [] =
      (Ok tt,
       [FileWritten (icon_path script_dir "pwa-192x192.png") png_192;
        Printed "Created pwa-192x192.png";
        FileWritten (icon_path script_dir "pwa-512x512.png") png_512;
        Printed "Created pwa-512x512.png";
        FileWritten (icon_path script_dir "apple-touch-icon.png") png_180;
        Printed "Created apple-touch-icon.png";
        Printed "All PWA icons created successfully!"]).
Proof.
  intros Hz Hw.
  pose proof (create_png_ok zlib_compress libm_pow pow_ok 192 192 99 102 241
                (valid_icon 192 ltac:(cbn; auto)) (Hz 192 ltac:(cbn; auto))) as E1.
  pose proof (create_png_ok zlib_compress libm_pow pow_ok 512 512 99 102 241
                (valid_icon 512 ltac:(cbn; auto)) (Hz 512 ltac:(cbn; auto))) as E2.
  pose proof (create_png_ok zlib_compress libm_pow pow_ok 180 180 99 102 241
                (valid_icon 180 ltac:(cbn; auto)) (Hz 180 ltac:(cbn; auto))) as E3.
  pose proof (Hw "pwa-192x192.png"%string ltac:(cbn; auto)) as W1.
  pose proof (Hw "pwa-512x512.png"%string ltac:(cbn; auto)) as W2.
  pose proof (Hw "apple-touch-icon.png"%string ltac:(cbn; auto)) as W3.
  eexists _, _, _. split; [exact E1|]. split; [exact E2|]. split; [exact E3|].
  unfold main, io_bind, io_lift, write_file, print. cbv zeta.
  fold (icon_path script_dir "pwa-192x192.png").
  fold (icon_path script_dir "pwa-512x512.png").
  fold (icon_path script_dir "apple-touch-icon.png").
  rewrite E1, W1, E2, W2, E3, W3. reflexivity.
Qed.

End DriverClaims.

Lemma main_writes_three_icons_witness :
  exists png_192 png_512 png_180,
    main store ideal_pow (fun _ => true) "/app/scripts" [] =
      (Ok tt,
       [FileWritten "/app/scripts/../public/pwa-192x192.png" png_192;
        Printed "Created pwa-192x192.png";
        FileWritten "/app/scripts/../public/pwa-512x512.png" png_512;
        Printed "Created pwa-512x512.png";
        FileWritten "/app/scripts/../public/apple-touch-icon.png" png_180;
        Printed "Created apple-touch-icon.png";
        Printed "All PWA icons created successfully!"]).
Proof.
  destruct (main_writes_three_icons store ideal_pow (fun _ => true)
              ideal_pow_accurate "/app/scripts")
    as (p1 & p2 & p3 & _ & _ & _ & H).
  - intros n [<-|[<-|[<-|[]]]]; apply store_length; lia.
  - reflexivity.
  - exists p1, p2, p3. exact H.
Defined.

(** * Further properties of [create_png], [png_chunk] and the driver *)

(** X1: whatever the type and the data, a chunk that [png_chunk] returns is
    twelve bytes longer than its data and is read back, CRC checked, as
    the type and the data it was made from, leaving what follows it in the
    stream untouched. *)
Theorem png_chunk_read_back chunk_type data c rest :
  length chunk_type = 4%nat ->
  png_chunk chunk_type data = Ok c ->
  length c = (12 + length data)%nat /\
  parse_chunk (c ++ rest) = Some (chunk_type, data, rest).
Proof.
  intros Ht Hc. destruct (png_chunk_inv _ _ _ Hc) as [Hl ->]. split.
  - unfold chunk_bytes. rewrite !length_app, !uint32_be_length, Ht. lia.
  - now apply parse_chunk_chunk_bytes.
Qed.

Lemma png_chunk_read_back_witness :
  exists c,
    png_chunk (bytes_of_string "IDAT") [x01; x02; x03] = Ok c /\
    length c = 15%nat /\
    parse_chunk (c ++ [xff])
      = Some (bytes_of_string "IDAT", [x01; x02; x03], [xff]).
Proof.
  exists (chunk_bytes (bytes_of_string "IDAT") [x01; x02; x03]).
  assert (H : png_chunk (bytes_of_string "IDAT") [x01; x02; x03]
              = Ok (chunk_bytes (bytes_of_string "IDAT") [x01; x02; x03]))
    by (apply png_chunk_ok; cbn; lia).
  split; [exact H|].
  exact (png_chunk_read_back (bytes_of_string "IDAT") [x01; x02; x03] _ [xff]
           eq_refl H).
Defined.

Section Extras.

Variable zlib_compress : list byte -> Z -> list byte.
Variable libm_pow : float -> float -> float.

(** X2: a width or a height that is negative or at least 2^32 makes
    [create_png] raise [struct.error] at the IHDR packing, before any pixel
    is computed and whatever the colour. *)
Theorem create_png_rejects_size_outside_uint32 w h r g b :
  ~ (0 <= w < 2 ^ 32 /\ 0 <= h < 2 ^ 32) ->
  create_png zlib_compress libm_pow w h r g b = Raise StructError.
Proof.
  intros Hn. now apply create_png_wide.
Qed.

(** X5: whenever [create_png] returns, on any input at all, the result is
    the signature and the three chunks around the compressed bytes of the
    buffer the loops built: 57 bytes of framing plus the compressed data,
    and a chunk reader finds IHDR, IDAT and IEND in it. *)
Theorem create_png_output_framing w h r g b out :
  create_png zlib_compress libm_pow w h r g b = Ok out ->
  exists raw bs,
    build_raw_data libm_pow w h r g b = Ok raw /\
    bytes_of_ints raw = Ok bs /\
    out = png_stream w h (zlib_compress bs 9) /\
    length out = (57 + length (zlib_compress bs 9))%nat /\
    parse_png out = Some [(bytes_of_string "IHDR", ihdr_payload w h);
                          (bytes_of_string "IDAT", zlib_compress bs 9);
                          (bytes_of_string "IEND", [])].
Proof.
  intros H.
  destruct (create_png_frame _ _ _ _ _ _ _ _ H)
    as (Hw & Hh & Hraw & HF & Hl & ->).
  exists (reference_grid libm_pow w h r g b), (raw_bytes libm_pow w h r g b).
  split; [exact Hraw|]. split; [now apply bytes_of_ints_ok|].
  split; [reflexivity|]. split.
  - unfold png_stream, chunk_bytes. rewrite !length_app, !uint32_be_length.
    change (length signature) with 8%nat.
    change (length (bytes_of_string "IHDR")) with 4%nat.
    change (length (bytes_of_string "IDAT")) with 4%nat.
    change (length (bytes_of_string "IEND")) with 4%nat.
    rewrite length_ihdr_payload. cbn [length]. lia.
  - now apply (parse_png_stream w h).
Qed.

(** What is assumed of the C library's [pow] from here on: see
    [pow_accurate]. *)
Hypothesis pow_ok : pow_accurate libm_pow.

(** X3: with a width or a height of zero nothing is divided and the colour
    is never looked at: [create_png] returns a stream whose pixel data is
    one filter byte per row and nothing else, also for the 0 x 0 image,
    whose [max_dist] is zero. *)
Theorem create_png_zero_dimension w h r g b :
  0 <= w < 2 ^ 32 -> 0 <= h < 2 ^ 32 -> w = 0 \/ h = 0 ->
  Z.of_nat (length (zlib_compress (repeat x00 (Z.to_nat h)) 9)) < 2 ^ 32 ->
  build_raw_data libm_pow w h r g b = Ok (repeat 0 (Z.to_nat h)) /\
  create_png zlib_compress libm_pow w h r g b
    = Ok (png_stream w h (zlib_compress (repeat x00 (Z.to_nat h)) 9)).
Proof.
  intros Hw Hh Hz Hl.
  pose proof (build_raw_data_degenerate libm_pow pow_ok w h r g b Hw Hh Hz)
    as Hraw.
  split; [exact Hraw|]. unfold create_png.
  rewrite pack_ihdr_ok by trivial. cbn [bind].
  rewrite png_chunk_ok by (rewrite length_ihdr_payload; lia). cbn [bind].
  rewrite Hraw. cbn [bind]. rewrite bytes_of_ints_zeros. cbn [bind].
  rewrite png_chunk_ok by trivial. cbn [bind].
  rewrite png_chunk_ok by (cbn; lia). reflexivity.
Qed.

(** X4: on an image of even width and height, a colour component above 255
    makes [create_png] raise [ValueError]: the loops run to the end, and
    [bytes()] then rejects the midpoint pixel, which carries the colour
    unchanged. *)
Theorem create_png_rejects_colour_over_255 w h r g b :
  1 <= w < 2 ^ 32 -> 1 <= h < 2 ^ 32 -> Z.even w = true -> Z.even h = true ->
  0 <= r < 2 ^ 53 -> 0 <= g < 2 ^ 53 -> 0 <= b < 2 ^ 53 ->
  255 < r \/ 255 < g \/ 255 < b ->
  build_raw_data libm_pow w h r g b
    = Ok (reference_grid libm_pow w h r g b) /\
  create_png zlib_compress libm_pow w h r g b = Raise ValueError.
Proof.
  intros Hw Hh Ew Eh Hr Hg Hb Hbig.
  pose proof (build_raw_data_exact libm_pow pow_ok w h r g b Hw Hh Hr Hg Hb)
    as Hraw.
  split; [exact Hraw|]. unfold create_png.
  rewrite pack_ihdr_ok by lia. cbn [bind].
  rewrite png_chunk_ok by (rewrite length_ihdr_payload; lia). cbn [bind].
  rewrite Hraw. cbn [bind].
  pose proof (even_half_range w ltac:(lia) Ew) as Hx.
  pose proof (even_half_range h ltac:(lia) Eh) as Hy.
  pose proof (pixel_rgb_midpoint libm_pow pow_ok w h r g b Hw Hh Ew Eh
                Hr Hg Hb) as Hp.
  assert (Hnth : forall c, (c < 3)%nat ->
            nth_error (reference_grid libm_pow w h r g b)
              (offset w (w / 2) (h / 2) (Z.of_nat c))
            = nth_error [r; g; b] c).
  { intros c Hc. rewrite <- Hp. now apply reference_grid_pixel. }
  destruct Hbig as [H|[H|H]].
  - rewrite (bytes_of_ints_raise _ _ r (Hnth 0%nat ltac:(lia))) by lia.
    reflexivity.
  - rewrite (bytes_of_ints_raise _ _ g (Hnth 1%nat ltac:(lia))) by lia.
    reflexivity.
  - rewrite (bytes_of_ints_raise _ _ b (Hnth 2%nat ltac:(lia))) by lia.
    reflexivity.
Qed.

(** X6: only the midpoint pixel of an image of even width and height keeps
    the base colour.  Every other pixel, and so every pixel of an image
    with an odd width or height, is strictly darker in each channel whose
    base value is not 0. *)
Theorem off_centre_pixel_darker w h r g b x y :
  valid_input w h r g b -> 0 <= x < w -> 0 <= y < h ->
  2 * x <> w \/ 2 * y <> h ->
  exists raw,
    build_raw_data libm_pow w h r g b = Ok raw /\
    forall c, (c < 3)%nat -> 1 <= nth c [r; g; b] 0 ->
      exists v,
        nth_error raw (offset w x y (Z.of_nat c)) = Some v /\
        0 <= v < nth c [r; g; b] 0.
Proof.
  intros Hv Hx Hy Hoff. pose proof Hv as (Hw & Hh & Hr & Hg & Hb).
  exists (reference_grid libm_pow w h r g b).
  split; [now apply build_raw_data_ok|].
  destruct (factor_ok libm_pow pow_ok w h x y Hw Hh Hx Hy) as (_ & Hff & _ & Hf1).
  assert (Hch : forall k, 1 <= k <= 255 ->
            0 <= trunc (PrimFloat.mul (float_of_Z k)
                          (factor_at libm_pow w h x y)) < k).
  { intros k Hk. split.
    - now apply (channel_ok k _ ltac:(lia) Hff Hf1).
    - now apply (off_centre_channel libm_pow pow_ok w h r g b). }
  intros c Hc Hpos. rewrite reference_grid_pixel by trivial. unfold pixel_rgb.
  destruct c as [|[|[|c]]]; [| | |lia]; cbn [nth_error nth] in *;
    eexists; (split; [reflexivity|]); apply Hch; lia.
Qed.

(** X7: the gradient is symmetric about the midpoint: two pixels equally
    far from it along each axis (mirror images in the vertical or the
    horizontal midline, or both) get the same three bytes. *)
Theorem gradient_symmetric w h r g b x1 y1 x2 y2 :
  valid_input w h r g b ->
  0 <= x1 < w -> 0 <= y1 < h -> 0 <= x2 < w -> 0 <= y2 < h ->
  Z.abs (2 * x1 - w) = Z.abs (2 * x2 - w) ->
  Z.abs (2 * y1 - h) = Z.abs (2 * y2 - h) ->
  exists raw,
    build_raw_data libm_pow w h r g b = Ok raw /\
    forall c, (c < 3)%nat ->
      nth_error raw (offset w x1 y1 (Z.of_nat c))
        = nth_error raw (offset w x2 y2 (Z.of_nat c)).
Proof.
  intros Hv Hx1 Hy1 Hx2 Hy2 Hx Hy. pose proof Hv as (Hw & Hh & _).
  exists (reference_grid libm_pow w h r g b).
  split; [now apply build_raw_data_ok|].
  intros c Hc. rewrite !reference_grid_pixel by trivial. unfold pixel_rgb.
  now rewrite (factor_symmetric libm_pow w h x1 y1 x2 y2).
Qed.


(** X9: the channels of a pixel keep the order of the base colour's: if
    [c1 <= c2] for two components of the colour, the same holds for the
    two bytes of every pixel. *)
Theorem channel_order_kept w h r g b x y c1 c2 :
  valid_input w h r g b -> 0 <= x < w -> 0 <= y < h ->
  (c1 < 3)%nat -> (c2 < 3)%nat ->
  nth c1 [r; g; b] 0 <= nth c2 [r; g; b] 0 ->
  exists raw v1 v2,
    build_raw_data libm_pow w h r g b = Ok raw /\
    nth_error raw (offset w x y (Z.of_nat c1)) = Some v1 /\
    nth_error raw (offset w x y (Z.of_nat c2)) = Some v2 /\
    v1 <= v2.
Proof.
  intros Hv Hx Hy Hc1 Hc2 Hle. pose proof Hv as (Hw & Hh & Hr & Hg & Hb).
  destruct (factor_ok libm_pow pow_ok w h x y Hw Hh Hx Hy) as (_ & Hf & _ & Hl1).
  exists (reference_grid libm_pow w h r g b).
  assert (Hn : forall c, (c < 3)%nat ->
            nth_error (reference_grid libm_pow w h r g b)
              (offset w x y (Z.of_nat c))
            = Some (trunc (PrimFloat.mul (float_of_Z (nth c [r; g; b] 0))
                             (factor_at libm_pow w h x y))) /\
            0 <= nth c [r; g; b] 0 <= 255).
  { intros c Hc. rewrite reference_grid_pixel by trivial. unfold pixel_rgb.
    destruct c as [|[|[|c]]]; [| | |lia]; cbn [nth_error nth]; auto. }
  destruct (Hn c1 Hc1) as [E1 R1]. destruct (Hn c2 Hc2) as [E2 R2].
  eexists _, _. split; [now apply build_raw_data_ok|].
  split; [exact E1|]. split; [exact E2|].
  apply channel_mono_colour; trivial; lia.
Qed.

End Extras.

Lemma create_png_rejects_size_outside_uint32_witness :
  create_png store ideal_pow (-1) 16 99 102 241 = Raise StructError /\
  create_png store ideal_pow 16 (2 ^ 32) 99 102 241 = Raise StructError.
Proof.
  split.
  - apply (create_png_rejects_size_outside_uint32 store ideal_pow
             (-1) 16 99 102 241). lia.
  - apply (create_png_rejects_size_outside_uint32 store ideal_pow
             16 (2 ^ 32) 99 102 241). lia.
Defined.

Lemma create_png_zero_dimension_witness :
  build_raw_data ideal_pow 0 2 300 (-5) 0 = Ok [0; 0] /\
  create_png store ideal_pow 0 2 300 (-5) 0 = Ok (png_stream 0 2 [x00; x00]).
Proof.
  apply (create_png_zero_dimension store ideal_pow ideal_pow_accurate
           0 2 300 (-5) 0);
    [lia | lia | now left | reflexivity].
Defined.

Lemma create_png_rejects_colour_over_255_witness :
  create_png store ideal_pow 2 2 256 0 0 = Raise ValueError.
Proof.
  apply (create_png_rejects_colour_over_255 store ideal_pow ideal_pow_accurate
           2 2 256 0 0);
    [lia | lia | reflexivity | reflexivity | lia | lia | lia | left; lia].
Defined.

Lemma create_png_output_framing_witness :
  exists raw bs,
    build_raw_data ideal_pow 2 2 99 102 241 = Ok raw /\
    bytes_of_ints raw = Ok bs /\
    create_png store ideal_pow 2 2 99 102 241
      = Ok (png_stream 2 2 (store bs 9)) /\
    length (png_stream 2 2 (store bs 9)) = (57 + length (store bs 9))%nat.
Proof.
  destruct (create_png_output_framing store ideal_pow 2 2 99 102 241 _
              create_png_store_2x2) as (raw & bs & Hr & Hb & Ho & Hl & _).
  exists raw, bs. split; [exact Hr|]. split; [exact Hb|].
  rewrite <- Ho. split; [exact create_png_store_2x2 | exact Hl].
Defined.

Lemma off_centre_pixel_darker_witness :
  exists raw,
    build_raw_data ideal_pow 3 3 99 102 241 = Ok raw /\
    forall c, (c < 3)%nat -> 1 <= nth c [99; 102; 241] 0 ->
      exists v,
        nth_error raw (offset 3 1 1 (Z.of_nat c)) = Some v /\
        0 <= v < nth c [99; 102; 241] 0.
Proof.
  apply (off_centre_pixel_darker ideal_pow ideal_pow_accurate
           3 3 99 102 241 1 1);
    unfold valid_input; lia.
Defined.

Lemma gradient_symmetric_witness :
  exists raw,
    build_raw_data ideal_pow 4 6 99 102 241 = Ok raw /\
    forall c, (c < 3)%nat ->
      nth_error raw (offset 4 1 2 (Z.of_nat c))
        = nth_error raw (offset 4 3 4 (Z.of_nat c)).
Proof.
  apply (gradient_symmetric ideal_pow ideal_pow_accurate 4 6 99 102 241 1 2 3 4);
    unfold valid_input; lia.
Defined.


Lemma channel_order_kept_witness :
  exists raw v1 v2,
    build_raw_data ideal_pow 3 3 99 102 241 = Ok raw /\
    nth_error raw (offset 3 2 0 0) = Some v1 /\
    nth_error raw (offset 3 2 0 2) = Some v2 /\
    v1 <= v2.
Proof.
  apply (channel_order_kept ideal_pow ideal_pow_accurate
           3 3 99 102 241 2 0 0%nat 2%nat);
    [unfold valid_input; lia | lia | lia | lia | lia | cbn; lia].
Defined.

Section DriverExtras.

Variable zlib_compress : list byte -> Z -> list byte.
Variable libm_pow : float -> float -> float.
Variable writable : string -> bool.

Hypothesis pow_ok : pow_accurate libm_pow.

(** X10: the driver stops at the first file it cannot open: nothing is
    written or printed for that icon or any later one, the icons before it
    stay written with their messages, and the closing message never
    appears. *)
Theorem main_stops_at_unwritable_path script_dir :
  (forall n, In n [192; 512; 180] ->
     Z.of_nat (length (zlib_compress (raw_bytes libm_pow n n 99 102 241) 9))
       < 2 ^ 32) ->
  exists png_192 png_512,
    create_png zlib_compress libm_pow 192 192 99 102 241 = Ok png_192 /\
    create_png zlib_compress libm_pow 512 512 99 102 241 = Ok png_512 /\
    (writable (icon_path script_dir "pwa-192x192.png") = false ->
     main zlib_compress libm_pow writable script_dir [] = (Raise OSError, [])) /\
    (writable (icon_path script_dir "pwa-192x192.png") = true ->
     writable (icon_path script_dir "pwa-512x512.png") = false ->
     main zlib_compress libm_pow writable script_dir [] =
       (Raise OSError,
        [FileWritten (icon_path script_dir "pwa-192x192.png") png_192;
         Printed "Created pwa-192x192.png"])) /\
    (writable (icon_path script_dir "pwa-192x192.png") = true ->
     writable (icon_path script_dir "pwa-512x512.png") = true ->
     writable (icon_path script_dir "apple-touch-icon.png") = false ->
     main zlib_compress libm_pow writable script_dir [] =
       (Raise OSError,
        [FileWritten (icon_path script_dir "pwa-192x192.png") png_192;
         Printed "Created pwa-192x192.png";
         FileWritten (icon_path script_dir "pwa-512x512.png") png_512;
         Printed "Created pwa-512x512.png"])).
Proof.
  intros Hz.
  pose proof (create_png_ok zlib_compress libm_pow pow_ok 192 192 99 102 241
                (valid_icon 192 ltac:(cbn; auto)) (Hz 192 ltac:(cbn; auto))) as E1.
  pose proof (create_png_ok zlib_compress libm_pow pow_ok 512 512 99 102 241
                (valid_icon 512 ltac:(cbn; auto)) (Hz 512 ltac:(cbn; auto))) as E2.
  pose proof (create_png_ok zlib_compress libm_pow pow_ok 180 180 99 102 241
                (valid_icon 180 ltac:(cbn; auto)) (Hz 180 ltac:(cbn; auto))) as E3.
  eexists _, _. split; [exact E1|]. split; [exact E2|].
  unfold main, io_bind, io_lift, write_file, print. cbv zeta.
  fold (icon_path script_dir "pwa-192x192.png").
  fold (icon_path script_dir "pwa-512x512.png").
  fold (icon_path script_dir "apple-touch-icon.png").
  rewrite E1, E2, E3. split; [|split].
  - intros W1. rewrite W1. reflexivity.
  - intros W1 W2. rewrite W1, W2. reflexivity.
  - intros W1 W2 W3. rewrite W1, W2, W3. reflexivity.
Qed.

End DriverExtras.

Lemma main_stops_at_unwritable_path_witness :
  exists png_192,
    main store ideal_pow (String.eqb "/app/scripts/../public/pwa-192x192.png")
      "/app/scripts" [] =
      (Raise OSError,
       [FileWritten "/app/scripts/../public/pwa-192x192.png" png_192;
        Printed "Created pwa-192x192.png"]).
Proof.
  destruct (main_stops_at_unwritable_path store ideal_pow
              (String.eqb "/app/scripts/../public/pwa-192x192.png")
              ideal_pow_accurate "/app/scripts")
    as (p1 & p2 & _ & _ & _ & H & _).
  - intros n [<-|[<-|[<-|[]]]]; apply store_length; lia.
  - exists p1. apply H; reflexivity.
Defined.
